(** * NAVI-CA change analyzer: shallow embedding and verified properties

    The development follows the Python sources of the analysis core:
    - [navica/core/parser.py]   (module [Parser])
    - [navica/core/mapping.py]  (module [Mapping])
    - [navica/data/db.py]       (module [DB])
    - [navica/core/scoring.py]  (module [Scoring])

    Modelling conventions.
    - A Python [str] is a Rocq [string]; the character functions ([upper],
      [strip], [splitlines], the regular expression classes) are the
      Python ones on the ASCII range.  Codes above 127 are carried through
      unchanged and are neither spaces nor identifier characters.
    - A value decoded from JSON is a [pyval]; a Python exception is a
      constructor of [exn], and code that may raise returns a [result].
    - A Python [dict] whose iteration order is observable is an association
      list updated in place ([dict_set]); Python [set]s of keys are [gset]s.
    - A Python [float] is the rational number ([Q]) it denotes.  The
      arithmetic of the scorer is that of doubles: every operation rounds
      its exact result to the nearest double (module [PyFloat]); [round]
      is Python 3's round-half-to-even.  The impact score of the matcher
      is kept as the exact quotient, of which the code holds the nearest
      double; its order and its cap at 1 are the same for both.
    - Functions of the Python run-time library that the sources call
      ([json.loads], [json.dumps], [csv.DictReader], [bytes.decode],
      [datetime.fromisoformat], [fnmatch.fnmatch], [str] on a non-string)
      are the fields of the class [Runtime]. *)

From Stdlib Require Import ZArith QArith Qround Qminmax Qpower Qabs Qreduction.
From Stdlib Require Import Floats.SpecFloat List String Ascii Bool Lia Lqa.
From Stdlib Require Import Permutation Sorted.
From stdpp Require Import base option list gmap strings pretty.

Import ListNotations.
Set Warnings "-register-all".
Local Open Scope string_scope.
Local Open Scope list_scope.
Local Open Scope nat_scope.

(** ** Python values, exceptions and results *)

Inductive exn : Type :=
| AttributeError
| TypeError
| ValueError
| JSONDecodeError
| CsvError.

Inductive result (A : Type) : Type :=
| Ok (a : A)
| Raise (e : exn).
Arguments Ok {A} a.
Arguments Raise {A} e.

#[global] Instance result_ret : MRet result := fun _ a => Ok a.
#[global] Instance result_bind : MBind result :=
  fun _ _ f m => match m with Ok a => f a | Raise e => Raise e end.

Definition is_ok {A} (r : result A) : bool :=
  match r with Ok _ => true | Raise _ => false end.

Definition of_option {A} (e : exn) (o : option A) : result A :=
  match o with Some a => Ok a | None => Raise e end.

(** Values as [json.loads] builds them: [None], [bool], numbers, [str],
    [list] and [dict] with string keys.  Only the truth value of a number
    is ever observed. *)
Inductive pyval : Type :=
| PNone
| PBool (b : bool)
| PNum (q : Q)
| PStr (s : string)
| PList (l : list pyval)
| PDict (kv : list (string * pyval)).

Definition truthy (v : pyval) : bool :=
  match v with
  | PNone => false
  | PBool b => b
  | PNum q => negb (Qeq_bool q 0)
  | PStr s => negb (String.eqb s "")
  | PList l => match l with [] => false | _ => true end
  | PDict kv => match kv with [] => false | _ => true end
  end.

(** [a or b] *)
Definition py_or (a b : pyval) : pyval := if truthy a then a else b.

Fixpoint assoc {V} (k : string) (kv : list (string * V)) : option V :=
  match kv with
  | [] => None
  | (k', v) :: kv' => if String.eqb k k' then Some v else assoc k kv'
  end.

(** [v.get(k, d)]: only a [dict] has the method. *)
Definition py_get_default (v : pyval) (k : string) (d : pyval) : result pyval :=
  match v with
  | PDict kv => Ok (default d (assoc k kv))
  | _ => Raise AttributeError
  end.

(** [v.get(k)] *)
Definition py_get (v : pyval) (k : string) : result pyval :=
  py_get_default v k PNone.

(** [for x in v]: a list yields its items, a dict its keys, a string its
    characters; nothing else is iterable. *)
Definition py_iter (v : pyval) : result (list pyval) :=
  match v with
  | PList l => Ok l
  | PDict kv => Ok (map (fun p => PStr (fst p)) kv)
  | PStr s => Ok (map (fun c => PStr (String c EmptyString)) (list_ascii_of_string s))
  | _ => Raise TypeError
  end.

(** Lists and dicts are the unhashable values. *)
Definition hashable (v : pyval) : bool :=
  match v with
  | PList _ | PDict _ => false
  | _ => true
  end.

(** A string or [None]: what a text token or a CSV cell can be. *)
Definition stringy (v : pyval) : bool :=
  match v with PStr _ | PNone => true | _ => false end.

(** The run-time library functions the sources rely on. *)
Inductive datetime : Type :=
| Naive
| Aware (utc_us : Z).

Definition csv_row : Type := list (string * option string).

Class Runtime : Type := {
  (** [bytes.decode("utf-8", errors="replace")] *)
  utf8_decode : string -> string;
  (** [json.loads]; [None] stands for [JSONDecodeError] *)
  json_loads : string -> option pyval;
  (** [json.dumps] of a CSV row *)
  json_dumps : csv_row -> string;
  (** the rows [csv.DictReader(io.StringIO(txt))] yields, and whether
      its iteration then stops with [_csv.Error] (a carriage return
      inside a line, a field beyond the size limit) *)
  csv_DictReader : string -> list csv_row * bool;
  (** [str(v)] for a value that is not a string *)
  py_repr : pyval -> string;
  (** [datetime.fromisoformat]; [None] stands for [ValueError] *)
  fromisoformat : string -> option datetime;
  (** [fnmatch.fnmatch(name, pat)] *)
  fnmatch : string -> string -> bool;
  (** the empty string is no ISO time stamp *)
  fromisoformat_empty : fromisoformat "" = None
}.

(** ** Python string functions on the ASCII range *)

Module PyStr.

Definition in_range (lo hi : nat) (c : ascii) : bool :=
  (lo <=? nat_of_ascii c) && (nat_of_ascii c <=? hi).

(** [str.isspace] of one character: TAB..CR, FS..US and the blank. *)
Definition isspace (c : ascii) : bool :=
  in_range 9 13 c || in_range 28 32 c.

Definition char_upper (c : ascii) : ascii :=
  if in_range 97 122 c then ascii_of_nat (nat_of_ascii c - 32) else c.

Fixpoint upper (s : string) : string :=
  match s with
  | EmptyString => EmptyString
  | String c s' => String (char_upper c) (upper s')
  end.

Fixpoint lstrip (s : list ascii) : list ascii :=
  match s with
  | c :: s' => if isspace c then lstrip s' else s
  | [] => []
  end.

Definition strip (s : string) : string :=
  string_of_list_ascii
    (rev (lstrip (rev (lstrip (list_ascii_of_string s))))).

(** The strings of white space only. *)
Definition blank (s : string) : bool :=
  forallb isspace (list_ascii_of_string s).

(** Line boundaries of [str.splitlines]: LF, CR, CR LF, VT, FF, FS, GS, RS. *)
Definition is_linebreak (c : ascii) : bool :=
  in_range 10 13 c || in_range 28 30 c.

Fixpoint splitlines_from (cur : list ascii) (s : list ascii) : list string :=
  match s with
  | [] => match cur with
          | [] => []
          | _ => [string_of_list_ascii (rev cur)]
          end
  | c :: s' =>
      if is_linebreak c then
        string_of_list_ascii (rev cur) ::
          match s' with
          | c' :: s'' =>
              if (nat_of_ascii c =? 13) && (nat_of_ascii c' =? 10)
              then splitlines_from [] s''
              else splitlines_from [] s'
          | [] => splitlines_from [] s'
          end
      else splitlines_from (c :: cur) s'
  end.

Definition splitlines (s : string) : list string :=
  splitlines_from [] (list_ascii_of_string s).

(** [re.split(r"[\t\s]+", s)]: the pieces between maximal runs of
    white space, an empty piece included at either end. *)
Fixpoint re_split_ws_from (cur : list ascii) (in_ws : bool) (s : list ascii)
  : list string :=
  match s with
  | [] => [string_of_list_ascii (rev cur)]
  | c :: s' =>
      if isspace c then
        if in_ws then re_split_ws_from cur true s'
        else string_of_list_ascii (rev cur) :: re_split_ws_from [] true s'
      else re_split_ws_from (c :: cur) false s'
  end.

Definition re_split_ws (s : string) : list string :=
  re_split_ws_from [] false (list_ascii_of_string s).

(** [s.startswith(p)] *)
Fixpoint startswith (s p : string) : bool :=
  match p, s with
  | EmptyString, _ => true
  | String a p', String b s' => Ascii.eqb a b && startswith s' p'
  | String _ _, EmptyString => false
  end.

Definition in_strs (x : string) (l : list string) : bool :=
  existsb (String.eqb x) l.

End PyStr.

(** ** navica/core/parser.py *)

Module Parser.
Import PyStr.

(** The canonical object record [_make_obj] builds ([subtype] is always
    [None] and is left out). *)
Record Obj : Type := mkObj {
  obj_class : string;
  obj_type : string;
  obj_name : string;
  package : option string;
  component : option string;
  raw : string;
  normalized_key : string
}.

(** *** The pattern [_ABAP_LINE_RE]

    [(R3TR|LIMU)\s+([A-Z0-9_]{3,5})\s+([A-Z0-9_/\\\-~><=]+)] with
    [re.IGNORECASE].  A greedy repetition of a character class tries the
    longest run first and backs off one character at a time. *)

Definition is_alnum_us (c : ascii) : bool :=
  in_range 65 90 c || in_range 97 122 c || in_range 48 57 c
  || (nat_of_ascii c =? 95).

Definition is_type_char : ascii -> bool := is_alnum_us.

Definition is_name_char (c : ascii) : bool :=
  is_alnum_us c
  || existsb (Nat.eqb (nat_of_ascii c)) [47; 92; 45; 126; 62; 60; 61].

Definition at_most (hi : option nat) (n : nat) : bool :=
  match hi with Some h => n <? h | None => true end.

(** [cls{lo,hi}] followed by the rest of the pattern [k]. *)
Fixpoint rep_greedy {R} (cls : ascii -> bool) (lo : nat) (hi : option nat)
    (acc : list ascii) (s : list ascii)
    (k : string -> list ascii -> option R) : option R :=
  let stop :=
    if lo <=? length acc then k (string_of_list_ascii (rev acc)) s
    else None in
  match s with
  | c :: s' =>
      if cls c && at_most hi (length acc) then
        match rep_greedy cls lo hi (c :: acc) s' k with
        | Some r => Some r
        | None => stop
        end
      else stop
  | [] => stop
  end.

(** [(R3TR|LIMU)], ignoring case. *)
Definition class_token {R} (s : list ascii)
    (k : string -> list ascii -> option R) : option R :=
  match s with
  | a :: b :: c :: d :: s' =>
      let tok := string_of_list_ascii [a; b; c; d] in
      if in_strs (upper tok) ["R3TR"; "LIMU"] then k tok s' else None
  | _ => None
  end.

(** A match beginning at the head of [s]: the three named groups. *)
Definition re_match_here (s : list ascii) : option (string * string * string) :=
  class_token s (fun cls s1 =>
  rep_greedy isspace 1 None [] s1 (fun _ s2 =>
  rep_greedy is_type_char 3 (Some 5) [] s2 (fun ty s3 =>
  rep_greedy isspace 1 None [] s3 (fun _ s4 =>
  rep_greedy is_name_char 1 None [] s4 (fun nm _ =>
  Some (cls, ty, nm)))))).

(** [_ABAP_LINE_RE.search]: the leftmost position with a match. *)
Fixpoint re_search_from (s : list ascii) : option (string * string * string) :=
  match re_match_here s with
  | Some m => Some m
  | None => match s with
            | [] => None
            | _ :: s' => re_search_from s'
            end
  end.

Definition re_search (ln : string) : option (string * string * string) :=
  re_search_from (list_ascii_of_string ln).

Definition KNOWN_TYPES : list string :=
  [ "PROG"; "REPS"; "REPT";
    "CMOD"; "SMOD"; "ENHO"; "ENHS"; "SPOT";
    "CLAS"; "INTF"; "FUGR"; "FUNC";
    "TABL"; "VIEW"; "DTEL"; "DOMA"; "TTYP"; "DDLS" ].

(** [(s or "").strip().upper()] *)
Definition _norm (s : pyval) : result string :=
  match py_or s (PStr "") with
  | PStr t => Ok (upper (strip t))
  | _ => Raise AttributeError
  end.

(** [_norm(v) if v else None] *)
Definition norm_opt (v : pyval) : result (option string) :=
  if truthy v then s ← _norm v; mret (Some s) else mret None.

Definition _make_obj (obj_class obj_type obj_name : pyval) (raw : string)
    (package component : pyval) : result Obj :=
  obj_class ← _norm obj_class;
  obj_type ← _norm obj_type;
  obj_name ← _norm obj_name;
  let normalized_key := obj_class +:+ ":" +:+ obj_type +:+ ":" +:+ obj_name in
  package ← norm_opt package;
  component ← norm_opt component;
  mret {| obj_class := obj_class;
          obj_type := obj_type;
          obj_name := obj_name;
          package := package;
          component := component;
          raw := if String.eqb raw "" then "" else strip raw;
          normalized_key := normalized_key |}.

(** The dict [found]: insertion ordered; assigning to a key that is
    present replaces the value where it stands. *)
Definition dict (V : Type) : Type := list (string * V).

Fixpoint dict_set {V} (d : dict V) (k : string) (v : V) : dict V :=
  match d with
  | [] => [(k, v)]
  | (k', v') :: d' =>
      if String.eqb k k' then (k, v) :: d' else (k', v') :: dict_set d' k v
  end.

Definition dict_values {V} (d : dict V) : list V := map snd d.

(** [found[o["normalized_key"]] = o] *)
Definition store (found : dict Obj) (o : Obj) : dict Obj :=
  dict_set found (normalized_key o) o.

(** The last of [cands] with the key [k], and the dict after the
    objects [cands] have been stored in turn. *)
Definition last_with (k : string) (cands : list Obj) : option Obj :=
  List.find (fun o => String.eqb k (normalized_key o)) (rev cands).

Definition store_all (found : dict Obj) (cands : list Obj) : dict Obj :=
  fold_left store cands found.

(** The object one line of the text gives, if any: the pattern first,
    then the two white-space-split fallbacks. *)
Definition line_object (line : string) : result (option Obj) :=
  let ln := strip line in
  if String.eqb ln "" then mret None else
  match re_search ln with
  | Some (c, t, n) =>
      o ← _make_obj (PStr c) (PStr t) (PStr n) ln PNone PNone; mret (Some o)
  | None =>
      let parts := re_split_ws ln in
      p0 ← (if 3 <=? length parts then _norm (PStr (nth 0 parts "")) else mret "");
      if (3 <=? length parts) && in_strs p0 ["R3TR"; "LIMU"] then
        otype ← _norm (PStr (nth 1 parts ""));
        oname ← _norm (PStr (nth 2 parts ""));
        o ← _make_obj (PStr (nth 0 parts "")) (PStr otype) (PStr oname) ln
              PNone PNone;
        mret (Some o)
      else
        q0 ← (if 2 <=? length parts then _norm (PStr (nth 0 parts "")) else mret "");
        if (2 <=? length parts) && in_strs q0 KNOWN_TYPES then
          o ← _make_obj (PStr "R3TR") (PStr (nth 0 parts ""))
                (PStr (nth 1 parts "")) ln PNone PNone;
          mret (Some o)
        else mret None
  end.

(** The body of [for line in text.splitlines()]. *)
Fixpoint parse_lines (found : dict Obj) (lines : list string)
  : result (dict Obj) :=
  match lines with
  | [] => mret found
  | line :: rest =>
      o ← line_object line;
      parse_lines (match o with Some o => store found o | None => found end)
                  rest
  end.

Definition parse_abap_object_text (text : string) : result (list Obj) :=
  if String.eqb text "" || String.eqb (strip text) "" then mret []
  else found ← parse_lines [] (splitlines text); mret (dict_values found).

(** *** CSV and JSON modes *)

Section Modes.
Context `{Runtime}.

(** [row.get(k)] and [row.get(k, d)]: a cell is a string, or [None]
    where the line was shorter than the header. *)
Definition cell (c : option string) : pyval :=
  match c with Some s => PStr s | None => PNone end.

Definition row_get_default (row : csv_row) (k : string) (d : pyval) : pyval :=
  match assoc k row with Some c => cell c | None => d end.

Definition row_get (row : csv_row) (k : string) : pyval :=
  row_get_default row k PNone.

(** The object one CSV row gives, if any. *)
Definition csv_object (row : csv_row) : result (option Obj) :=
  let obj_class := row_get_default row "obj_class" (PStr "R3TR") in
  let obj_type :=
    py_or (row_get row "obj_type")
      (py_or (row_get row "object_type")
         (py_or (row_get row "type") (PStr ""))) in
  let obj_name :=
    py_or (row_get row "obj_name")
      (py_or (row_get row "object_name")
         (py_or (row_get row "name") (PStr ""))) in
  let package :=
    py_or (row_get row "package") (py_or (row_get row "devclass") PNone) in
  let component := py_or (row_get row "component") PNone in
  if negb (truthy obj_type) || negb (truthy obj_name) then mret None
  else
    o ← _make_obj obj_class obj_type obj_name (json_dumps row)
          package component;
    mret (Some o).

Fixpoint csv_rows (found : dict Obj) (rows : list csv_row)
  : result (dict Obj) :=
  match rows with
  | [] => mret found
  | row :: rest =>
      o ← csv_object row;
      csv_rows (match o with Some o => store found o | None => found end)
               rest
  end.

Definition load_objects_from_csv (raw_bytes : string) : result (list Obj) :=
  if String.eqb raw_bytes "" then mret []
  else
    let txt := utf8_decode raw_bytes in
    let '(rows, broken) := csv_DictReader txt in
    found ← csv_rows [] rows;
    if broken then Raise CsvError else mret (dict_values found).

(** [str(v)] *)
Definition py_str (v : pyval) : string :=
  match v with PStr s => s | _ => py_repr v end.

Definition isinstance_dict (v : pyval) : bool :=
  match v with PDict _ => true | _ => false end.

Definition isinstance_list (v : pyval) : bool :=
  match v with PList _ => true | _ => false end.

(** The object one entry of the JSON array gives, if any. *)
Definition json_object (o0 : pyval) : result (option Obj) :=
  if negb (isinstance_dict o0) then mret None
  else
    obj_class ← py_get_default o0 "obj_class" (PStr "R3TR");
    t1 ← py_get o0 "obj_type";
    t2 ← py_get o0 "object_type";
    let obj_type := py_or t1 (py_or t2 (PStr "")) in
    n1 ← py_get o0 "obj_name";
    n2 ← py_get o0 "object_name";
    let obj_name := py_or n1 (py_or n2 (PStr "")) in
    package ← py_get o0 "package";
    component ← py_get o0 "component";
    raw ← py_get_default o0 "raw" (PStr "");
    if negb (truthy obj_type) || negb (truthy obj_name) then mret None
    else
      o ← _make_obj obj_class obj_type obj_name (py_str raw)
            package component;
      mret (Some o).

Fixpoint json_entries (found : dict Obj) (objects : list pyval)
  : result (dict Obj) :=
  match objects with
  | [] => mret found
  | o0 :: rest =>
      o ← json_object o0;
      json_entries (match o with Some o => store found o | None => found end)
                   rest
  end.

Definition load_objects_from_json (raw_bytes : string) : result (list Obj) :=
  if String.eqb raw_bytes "" then mret []
  else
    data ← of_option JSONDecodeError (json_loads (utf8_decode raw_bytes));
    objects ← py_get_default data "objects"
                (if isinstance_list data then data else PList []);
    items ← py_iter objects;
    found ← json_entries [] items;
    mret (dict_values found).

End Modes.

End Parser.

(** ** Python's stable sorts *)

Module PySort.
Section Sort.
Context {A : Type} (leb : A -> A -> bool).

(** [sorted(l)]: [x], which stood before the items of [l], goes in front
    of the first item that is not smaller. *)
Fixpoint insert_asc (x : A) (l : list A) : list A :=
  match l with
  | [] => [x]
  | y :: l' => if leb x y then x :: l else y :: insert_asc x l'
  end.

Fixpoint sorted (l : list A) : list A :=
  match l with
  | [] => []
  | x :: l' => insert_asc x (sorted l')
  end.

(** [l.sort(reverse=True)]: descending, and items that compare equal
    keep the order they had. *)
Fixpoint insert_desc (x : A) (l : list A) : list A :=
  match l with
  | [] => [x]
  | y :: l' => if leb y x then x :: l else y :: insert_desc x l'
  end.

Fixpoint sort_reverse (l : list A) : list A :=
  match l with
  | [] => []
  | x :: l' => insert_desc x (sort_reverse l')
  end.

(** Ascending and descending order of neighbours. *)
Definition asc (a b : A) : Prop := leb a b = true.
Definition desc (a b : A) : Prop := leb b a = true.
End Sort.
End PySort.

(** ** navica/core/mapping.py *)

Module Mapping.
Import PyStr Parser.

Record MatchRules : Type := mkRules {
  packages : list string;
  namespaces : list string;
  object_types : list string
}.

(** One entry of the catalog's ["apps"] array.  [display_name] and
    [criticality] may be absent. *)
Record App : Type := mkApp {
  app_id : string;
  app_display_name : option string;
  app_tags : list string;
  app_criticality : option Z;
  match_rules : MatchRules
}.

Record Catalog : Type := mkCatalog {
  version : string;
  apps : list App
}.

Record ImpactedApp : Type := mkImpacted {
  ia_app_id : string;
  display_name : string;
  impact_score : Q;
  matched_objects : nat;
  top_objects : list string;
  tags : list string;
  criticality : Z
}.

(** The sort key [(impact_score, criticality)], compared as Python
    compares tuples. *)
Definition key_leb (x y : ImpactedApp) : bool :=
  match Qcompare (impact_score x) (impact_score y) with
  | Lt => true
  | Eq => (criticality x <=? criticality y)%Z
  | Gt => false
  end.

Definition key_eqb (x y : ImpactedApp) : bool :=
  Qeq_bool (impact_score x) (impact_score y)
  && (criticality x =? criticality y)%Z.

Section Matcher.
Context `{Runtime}.

Definition _match_any (patterns : list string) (value : string) : bool :=
  match patterns with
  | [] => false
  | _ => let v := upper value in
         existsb (fun pat => fnmatch v (upper pat)) patterns
  end.

Definition is_nil {A} (l : list A) : bool :=
  match l with [] => true | _ => false end.

(** The test of the inner loop: [type_ok and (ns_ok or pkg_ok)]. *)
Definition object_matches (rules : MatchRules) (o : Obj) : bool :=
  let pkg_pats := packages rules in
  let ns_pats := namespaces rules in
  let obj_types : gset string := list_to_set (map upper (object_types rules)) in
  let otype := upper (obj_type o) in
  let oname := upper (obj_name o) in
  let opkg := upper (default "" (package o)) in
  let type_ok := bool_decide (obj_types = ∅) || bool_decide (otype ∈ obj_types) in
  let ns_ok := is_nil ns_pats || _match_any ns_pats oname in
  let pkg_ok := is_nil pkg_pats || _match_any pkg_pats opkg in
  type_ok && (ns_ok || pkg_ok).

Definition matched_subset (app : App) (objects : list Obj) : list Obj :=
  List.filter (object_matches (match_rules app)) objects.

(** The entry appended to [results] for an app with matches. *)
Definition summary (app : App) (objects matched : list Obj) : ImpactedApp :=
  {| ia_app_id := app_id app;
     display_name := default (app_id app) (app_display_name app);
     impact_score :=
       Qmin 1 (Qmake (Z.of_nat (length matched))
                     (Pos.of_nat (Nat.max 1 (length objects))));
     matched_objects := length matched;
     top_objects := map normalized_key (firstn 10 matched);
     tags := app_tags app;
     criticality := default 3%Z (app_criticality app) |}.

Fixpoint collect (objects : list Obj) (apps : list App) : list ImpactedApp :=
  match apps with
  | [] => []
  | app :: rest =>
      let matched := matched_subset app objects in
      if is_nil matched then collect objects rest
      else summary app objects matched :: collect objects rest
  end.

Definition map_objects_to_apps (objects : list Obj) (catalog : Catalog)
  : list ImpactedApp :=
  PySort.sort_reverse key_leb (collect objects (apps catalog)).
End Matcher.

End Mapping.

(** ** navica/data/db.py *)

Module DB.
Import PyStr Parser.

(** A row of the table [changes]; [change_id] is its primary key and
    [generated_at] may be NULL. *)
Record Row : Type := mkRow {
  change_id : string;
  generated_at : option string;
  findings_json : string
}.

Record OverlapRecord : Type := mkOverlap {
  other_change_id : string;
  shared_object_count : nat;
  shared_objects : list string
}.

(** [INSERT OR REPLACE]: the row with the same key goes, the new one is
    added. *)
Definition save_change (table : list Row) (row : Row) : list Row :=
  List.filter (fun r => negb (String.eqb (change_id r) (change_id row))) table
  ++ [row].

(** [timedelta(days=1)] in microseconds. *)
Definition us_per_day : Z := 86400000000.

Definition count_leb (x y : OverlapRecord) : bool :=
  shared_object_count x <=? shared_object_count y.

(** [set([o.get("normalized_key") for o in objects if o.get("normalized_key")])] *)
Definition object_set (objects : list Obj) : gset string :=
  list_to_set
    (List.filter (fun k => negb (String.eqb k "")) (map normalized_key objects)).

(** [[r.get("normalized_key") for r in items if r.get("normalized_key")]] *)
Fixpoint risk_keys (items : list pyval) : result (list pyval) :=
  match items with
  | [] => mret []
  | r :: rest =>
      v ← py_get r "normalized_key";
      vs ← risk_keys rest;
      mret (if truthy v then v :: vs else vs)
  end.

(** [[o.get("normalized_key") for o in items]] *)
Fixpoint object_keys (items : list pyval) : result (list pyval) :=
  match items with
  | [] => mret []
  | o :: rest =>
      v ← py_get o "normalized_key";
      vs ← object_keys rest;
      mret (v :: vs)
  end.

(** [set(l)]: the members are kept as the list of values; an unhashable
    value raises. *)
Definition py_set (l : list pyval) : result (list pyval) :=
  if forallb hashable l then mret l else Raise TypeError.

Fixpoint strings_of (l : list pyval) : list string :=
  match l with
  | [] => []
  | PStr s :: l' => s :: strings_of l'
  | _ :: l' => strings_of l'
  end.

(** [dt < cutoff], where [cutoff] carries a time zone. *)
Definition datetime_lt (dt : datetime) (cutoff : Z) : result bool :=
  match dt with
  | Aware t => mret (t <? cutoff)%Z
  | Naive => Raise TypeError
  end.

(** The key set of a stored change: the keys of its [object_risks], or
    those of its [objects] when there are none. *)
Definition other_keys (other : pyval) : result (list pyval) :=
  risks ← py_get_default other "object_risks" (PList []);
  items ← py_iter risks;
  ks ← risk_keys items;
  other_objs ← py_set ks;
  objs ← py_get other "objects";
  if Mapping.is_nil other_objs && truthy objs then
    objs' ← py_get_default other "objects" (PList []);
    items' ← py_iter objs';
    ks' ← object_keys items';
    py_set ks'
  else mret other_objs.

(** [sorted(list(obj_set.intersection(other_objs)))]; the members of
    [obj_set] are strings. *)
Definition shared_keys (obj_set : gset string) (other_objs : list pyval)
  : list string :=
  PySort.sorted String.leb
    (elements (obj_set ∩ list_to_set (strings_of other_objs))).

Section Overlaps.
Context `{Runtime}.

(** The recency test: [false] when the row is older than the cutoff
    ([continue]); a timestamp that does not parse, or has no time
    zone, raises. *)
Definition recent (gen_at : option string) (cutoff : Z) : result bool :=
  match gen_at with
  | Some g =>
      if String.eqb g "" then mret true
      else
        dt ← of_option ValueError (fromisoformat g);
        old ← datetime_lt dt cutoff;
        mret (negb old)
  | None => mret true
  end.

(** The body of the [try]: the record the row contributes, if any. *)
Definition overlap_of_row (obj_set : gset string) (cutoff : Z) (row : Row)
  : result (option OverlapRecord) :=
  ok ← recent (generated_at row) cutoff;
  if negb ok then mret None
  else
    other ← of_option JSONDecodeError (json_loads (findings_json row));
    other_objs ← other_keys other;
    let shared := shared_keys obj_set other_objs in
    if Mapping.is_nil shared then mret None
    else mret (Some {| other_change_id := change_id row;
                       shared_object_count := length shared;
                       shared_objects := firstn 200 shared |}).

(** The loop over the rows; [except Exception: continue]. *)
Fixpoint scan (obj_set : gset string) (cutoff : Z) (rows : list Row)
  : list OverlapRecord :=
  match rows with
  | [] => []
  | row :: rest =>
      match overlap_of_row obj_set cutoff row with
      | Ok (Some r) => r :: scan obj_set cutoff rest
      | Ok None => scan obj_set cutoff rest
      | Raise _ => scan obj_set cutoff rest
      end
  end.

(** [SELECT ... WHERE change_id <> ?] *)
Definition select_others (table : list Row) (cid : string) : list Row :=
  List.filter (fun r => negb (String.eqb (change_id r) cid)) table.

(** [now] and the parsed stamps are instants, in microseconds since the
    epoch.  The cutoff is formed here for every number of days; the code
    forms it for the windows whose cutoff is a [datetime] and raises
    [OverflowError] for the others, before it reads a row. *)
Definition find_overlaps (table : list Row) (now : Z) (cid : string)
    (objects : list Obj) (window_days : Z) : list OverlapRecord :=
  let obj_set := object_set objects in
  let rows := select_others table cid in
  let cutoff := (now - window_days * us_per_day)%Z in
  let overlaps := scan obj_set cutoff rows in
  firstn 25 (PySort.sort_reverse count_leb overlaps).

(** A stored row is malformed when its JSON does not decode, decodes to
    something that is no object, or has neither of the expected fields. *)
Definition malformed (row : Row) : Prop :=
  match json_loads (findings_json row) with
  | None => True
  | Some (PDict kv) =>
      assoc "object_risks" kv = None ∧ assoc "objects" kv = None
  | Some _ => True
  end.
End Overlaps.

End DB.

(** ** Python floats *)

Module PyFloat.

(** A finite [float] is the rational number it denotes.  An operation
    gives the exact result rounded to the nearest double: IEEE 754
    binary64, a significand of 53 bits, a tie to the even significand,
    gradual underflow below 2^-1022.  The exponent has no upper end
    here (the scorer's values stay far below the largest double), and
    the sign of a zero is not kept (nothing in the sources observes
    it). *)

(** The nearest integer, a tie to the even one. *)
Definition nearest_even (q : Q) : Z :=
  let f := Qfloor q in
  match Qcompare (q - inject_Z f)%Q (1 # 2)%Q with
  | Lt => f
  | Gt => (f + 1)%Z
  | Eq => if Z.even f then f else (f + 1)%Z
  end.

Definition pow2 (e : Z) : Q := (2 ^ e)%Q.

(** [floor(log2(q))] of a positive [q]. *)
Definition ilog2 (q : Q) : Z :=
  let l := (Z.log2 (Qnum q) - Z.log2 (Zpos (Qden q)))%Z in
  if Qle_bool (pow2 l) q then l else (l - 1)%Z.

(** The exponent of the last bit of the significand of the doubles
    next to [q]. *)
Definition ulp_exp (q : Q) : Z := Z.max (-1074) (ilog2 (Qabs q) - 52).

(** The double nearest to [q]. *)
Definition fl (q : Q) : Q :=
  if Qeq_bool q 0 then 0%Q
  else
    let e := ulp_exp q in
    Qred (inject_Z (nearest_even (q / pow2 e)) * pow2 e)%Q.

(** [float(z)]; an [int] operand of an operation on a [float] is
    converted in the same way. *)
Definition of_int (z : Z) : Q := fl (inject_Z z).

(** A decimal literal such as [1.3] or [1.25]. *)
Definition literal (q : Q) : Q := fl q.

Definition fadd (x y : Q) : Q := fl (x + y)%Q.
Definition fmul (x y : Q) : Q := fl (x * y)%Q.

(** [x / y] for a divisor other than zero. *)
Definition fdiv (x y : Q) : Q := fl (x / y)%Q.

(** What [total += x] leaves, from [0.0], after the items of a list. *)
Definition fsum (l : list Q) : Q := fold_left fadd l 0%Q.

(** For comparison, the doubles of the Standard Library's model of
    IEEE 754 ([SpecFloat], at 53 bits): the value of one, and the double
    of an integer. *)
Definition of_spec_float (x : spec_float) : Q :=
  match x with
  | S754_finite s m e =>
      Qred ((if s then -1 else 1) * inject_Z (Zpos m) * pow2 e)%Q
  | _ => 0%Q
  end.

Definition double (z : Z) : spec_float := binary_normalize 53 1024 z 0 false.

End PyFloat.

(** ** navica/core/scoring.py *)

Module Scoring.
Import PyStr Parser PyFloat.

Definition BASE_POINTS : list (string * Z) :=
  [ ("PROG", 6); ("REPS", 6); ("REPT", 6);
    ("CMOD", 8); ("SMOD", 8); ("ENHO", 9); ("ENHS", 9); ("SPOT", 9);
    ("CLAS", 7); ("INTF", 7); ("FUGR", 8); ("FUNC", 8);
    ("TABL", 10); ("VIEW", 9); ("DDLS", 9); ("DTEL", 5); ("DOMA", 5);
    ("TTYP", 5) ]%Z.

(** [BASE_POINTS.get(otype, 3)] *)
Definition base_points (otype : string) : Z :=
  default 3%Z (assoc otype BASE_POINTS).

Definition _risk_level (score : Z) : string :=
  if (75 <=? score)%Z then "High"
  else if (40 <=? score)%Z then "Medium"
  else "Low".

(** [round(x)] of a float: to the nearest integer, a tie to the even
    one. *)
Definition py_round (x : Q) : Z := nearest_even x.

Record ObjectRisk : Type := mkRisk {
  risk_key : string;
  risk_points : Z;
  reasons : list string
}.

Record Summary : Type := mkSummary {
  risk_score : Z;
  risk_level : string;
  objects_total : nat;
  apps_impacted : nat;
  overlaps_found : nat
}.

Record Findings : Type := mkFindings {
  navica_version : string;
  f_change_id : string;
  f_generated_at : string;
  summary : Summary;
  impacted_apps : list Mapping.ImpactedApp;
  overlaps : list DB.OverlapRecord;
  object_risks : list ObjectRisk;
  notes : list string
}.

Definition risk_leb (x y : ObjectRisk) : bool :=
  (risk_points x <=? risk_points y)%Z.

(** [overlap_counts]: in how many overlap records a key is listed. *)
Definition count_key (counts : gmap string nat) (nk : string) : gmap string nat :=
  <[nk := default 0 (counts !! nk) + 1]> counts.

Definition overlap_counts (overlaps : list DB.OverlapRecord) : gmap string nat :=
  fold_left (fun counts o => fold_left count_key (DB.shared_objects o) counts)
            overlaps ∅.

(** The [top_objects] of the apps of criticality 4 or more. *)
Definition critical_object_set (impacted_apps : list Mapping.ImpactedApp)
  : gset string :=
  let critical_apps :=
    List.filter (fun a => (4 <=? Mapping.criticality a)%Z) impacted_apps in
  fold_left (fun acc a => fold_left (fun acc nk => acc ∪ {[nk]})
                                    (Mapping.top_objects a) acc)
            critical_apps ∅.

(** The overlap bonus for a key shared with [n] other changes, and its
    reason; there is none for a key that is not shared. *)
Definition overlap_bonus (n : nat) : option (Z * string) :=
  match n with
  | 0 => None
  | 1 => Some (2%Z, "shared_across_changes(1)")
  | 2 => Some (5%Z, "shared_across_changes(2)")
  | _ => Some (9%Z, "shared_across_changes(" +:+ pretty n +:+ ")")
  end.

(** One turn of the loop over the objects: the points before rounding
    and the reasons. *)
Definition object_points (counts : gmap string nat) (critical : gset string)
    (napps : nat) (o : Obj) : Q * list string :=
  let nk := normalized_key o in
  let otype := upper (obj_type o) in
  let base := base_points otype in
  let points := of_int base in
  let reasons := ["type:" +:+ (if String.eqb otype "" then "UNK" else otype)] in
  let '(points, reasons) :=
    if bool_decide (nk ∈ critical)
    then (fmul points (literal (13 # 10)), reasons ++ ["matched_critical_app"])
    else (points, reasons) in
  let n := default 0 (counts !! nk) in
  let '(points, reasons) :=
    match overlap_bonus n with
    | Some (bonus, why) => (fadd points (of_int bonus), reasons ++ [why])
    | None => (points, reasons)
    end in
  if (3 <? napps) && (startswith (upper (obj_name o)) "Z"
                      || startswith (upper (obj_name o)) "Y")
  then (fadd points (of_int 2), reasons ++ ["wide_app_impact_hint"])
  else (points, reasons).

(** The loop: [total_points] and [object_risks] as it leaves them. *)
Definition score_objects (counts : gmap string nat) (critical : gset string)
    (napps : nat) (objects : list Obj) : Q * list ObjectRisk :=
  fold_left
    (fun '(total_points, object_risks) o =>
       let '(points, reasons) := object_points counts critical napps o in
       (fadd total_points points,
        object_risks ++ [{| risk_key := normalized_key o;
                            risk_points := py_round points;
                            reasons := reasons |}]))
    objects (0%Q, []).

Definition scale : Q := literal (125 # 100).

(** [(total_points / count) * scale * 10], the value that is rounded. *)
Definition scaled_average (total_points : Q) (count : nat) : Q :=
  fmul (fmul (fdiv total_points (of_int (Z.of_nat count))) scale) (of_int 10).

Section Score.
Context `{Runtime}.

(** [table] is the content of the history store and [now] the clock
    read by [find_overlaps]; [stamp] is [datetime.now(APP_TZ).isoformat()]. *)
Definition score_change (table : list DB.Row) (now : Z) (stamp : string)
    (change_id : string) (objects : list Obj)
    (impacted_apps : list Mapping.ImpactedApp) (overlap_window_days : Z)
  : Findings :=
  let overlaps :=
    DB.find_overlaps table now change_id objects overlap_window_days in
  let overlaps_found :=
    length (List.filter (fun o => 0 <? DB.shared_object_count o) overlaps) in
  let counts := overlap_counts overlaps in
  let critical := critical_object_set impacted_apps in
  let '(total_points, object_risks) :=
    score_objects counts critical (length impacted_apps) objects in
  let score :=
    Z.min 100
      (py_round (scaled_average total_points (Nat.max 1 (length objects)))) in
  let level := _risk_level score in
  {| navica_version := "0.1";
     f_change_id := change_id;
     f_generated_at := stamp;
     summary := {| risk_score := score;
                   risk_level := level;
                   objects_total := length objects;
                   apps_impacted := length impacted_apps;
                   overlaps_found := overlaps_found |};
     impacted_apps := impacted_apps;
     overlaps := overlaps;
     object_risks := PySort.sort_reverse risk_leb object_risks;
     notes := [] |}.
(** The points of one object of the change before rounding, as
    [score_change] computes them. *)
Definition raw_points (table : list DB.Row) (now : Z) (change_id : string)
    (objects : list Obj) (impacted_apps : list Mapping.ImpactedApp)
    (overlap_window_days : Z) (o : Obj) : Q :=
  fst (object_points
         (overlap_counts
            (DB.find_overlaps table now change_id objects overlap_window_days))
         (critical_object_set impacted_apps)
         (length impacted_apps) o).
End Score.

End Scoring.

(** ** A run-time instance for the examples

    A small, executable stand-in for the library: enough of each function
    for the inputs the examples use. *)

Module Demo.
Import PyStr.

Definition nl : string := String (ascii_of_nat 10) EmptyString.
Definition dq : string := String (ascii_of_nat 34) EmptyString.

Fixpoint join (sep : string) (l : list string) : string :=
  match l with
  | [] => ""
  | [x] => x
  | x :: l' => x +:+ sep +:+ join sep l'
  end.

(** [json.dumps] (with [python := false]) and [repr] (with
    [python := true]) of a value whose strings need no escape and whose
    numbers are integers. *)
Fixpoint show (python : bool) (v : pyval) : string :=
  let q := if python then "'" else dq in
  match v with
  | PNone => if python then "None" else "null"
  | PBool b => if python then (if b then "True" else "False")
               else (if b then "true" else "false")
  | PNum n => pretty (Qfloor n)
  | PStr s => q +:+ s +:+ q
  | PList l => "[" +:+ join ", " (map (show python) l) +:+ "]"
  | PDict kv =>
      "{" +:+ join ", " (map (fun p => q +:+ fst p +:+ q +:+ ": "
                                       +:+ show python (snd p)) kv) +:+ "}"
  end.

Definition dumps : pyval -> string := show false.

(** The decoder knows the documents of the examples, each under the
    text [json.dumps] gives it; any other text is rejected. *)
Definition loads_known (docs : list pyval) (text : string) : option pyval :=
  List.find (fun v => String.eqb (dumps v) text) docs.

(** Shell patterns with [*] and [?]; bracket expressions are not
    interpreted. *)
Fixpoint glob (pat s : list ascii) {struct pat} : bool :=
  match pat with
  | [] => Mapping.is_nil s
  | p :: pat' =>
      if nat_of_ascii p =? 42 then
        (fix star (s : list ascii) : bool :=
           glob pat' s || match s with [] => false | _ :: s' => star s' end) s
      else
        match s with
        | c :: s' => ((nat_of_ascii p =? 63) || Ascii.eqb p c) && glob pat' s'
        | [] => false
        end
  end.

Definition split_commas (s : string) : list string :=
  (fix go (cur : list ascii) (s : list ascii) : list string :=
     match s with
     | [] => [string_of_list_ascii (rev cur)]
     | c :: s' => if nat_of_ascii c =? 44
                  then string_of_list_ascii (rev cur) :: go [] s'
                  else go (c :: cur) s'
     end) [] (list_ascii_of_string s).

Fixpoint zip_row (header : list string) (cells : list string) : csv_row :=
  match header, cells with
  | [], _ => []
  | h :: header', [] => (h, None) :: zip_row header' []
  | h :: header', c :: cells' => (h, Some c) :: zip_row header' cells'
  end.

(** Comma-separated text without quoting: the first line names the
    columns, blank lines are passed over. *)
Definition simple_csv (txt : string) : list csv_row :=
  match splitlines txt with
  | [] => []
  | header :: lines =>
      map (zip_row (split_commas header))
          (map split_commas
             (List.filter (fun l => negb (String.eqb l "")) lines))
  end.

(** The reader takes the text line by line, a line ending at LF.  A
    carriage return inside a line that is followed by anything but CR
    or LF stops it ("new-line character seen in unquoted field"); the
    rows of the lines before that one have been yielded. *)
Fixpoint bare_cr (s : list ascii) : bool :=
  match s with
  | c :: s' =>
      match s' with
      | c' :: _ =>
          (nat_of_ascii c =? 13)
          && negb ((nat_of_ascii c' =? 13) || (nat_of_ascii c' =? 10))
          || bare_cr s'
      | [] => false
      end
  | [] => false
  end.

Fixpoint lines_at_lf (cur : list ascii) (s : list ascii) : list string :=
  match s with
  | [] => [string_of_list_ascii (rev cur)]
  | c :: s' =>
      if nat_of_ascii c =? 10
      then string_of_list_ascii (rev (c :: cur)) :: lines_at_lf [] s'
      else lines_at_lf (c :: cur) s'
  end.

Fixpoint sound_lines (lines : list string) : string * bool :=
  match lines with
  | [] => ("", false)
  | l :: rest =>
      if bare_cr (list_ascii_of_string l) then ("", true)
      else let '(txt, broken) := sound_lines rest in (l +:+ txt, broken)
  end.

Definition csv_reader (txt : string) : list csv_row * bool :=
  let '(sound, broken) :=
    sound_lines (lines_at_lf [] (list_ascii_of_string txt)) in
  (simple_csv sound, broken).

(** A CSV file of one object, and one whose second line holds a
    carriage return in the middle. *)
Definition cr : string := String (ascii_of_nat 13) EmptyString.

Definition table_csv : string :=
  "obj_type,obj_name" +:+ nl +:+ "prog,za" +:+ nl.

Definition broken_csv : string :=
  "obj_type,obj_name" +:+ nl +:+ "prog,za" +:+ nl
  +:+ "tabl" +:+ cr +:+ ",zt" +:+ nl.

(** The text of the two-line scenario, and one with a repeated object. *)
Definition scenario_text : string :=
  "R3TR PROG ZFI_POSTING_REPORT" +:+ nl +:+ "R3TR CMOD ZFI_EXIT_001".

Definition repeated_text : string :=
  "R3TR PROG ZA" +:+ nl +:+ "R3TR TABL ZT" +:+ nl +:+ "r3tr prog za again".

(** Two change records of the history examples. *)
Definition risk_entry (k : string) : pyval :=
  PDict [("normalized_key", PStr k); ("risk_points", PNum 6)].

Definition findings_doc (keys : list string) : pyval :=
  PDict [("change_id", PStr "CHG-1");
         ("object_risks", PList (map risk_entry keys))].

Definition many_keys (n : nat) : list string :=
  map (fun i => "R3TR:PROG:Z" +:+ pretty i) (seq 0 n).

Definition docs : list pyval :=
  [ findings_doc ["R3TR:PROG:ZA"; "R3TR:TABL:ZT"];
    findings_doc (many_keys 201);
    PDict [("change_id", PStr "CHG-0")];
    PList [];
    PDict [("objects", PList [PDict [("obj_type", PStr "prog");
                                     ("obj_name", PStr "za")];
                              PDict [("obj_type", PStr "PROG");
                                     ("obj_name", PStr "ZA");
                                     ("package", PStr "zpkg")]])] ].

Definition prog (name : string) : Parser.Obj :=
  Parser.mkObj "R3TR" "PROG" name None None ("R3TR PROG " +:+ name)
               ("R3TR:PROG:" +:+ name).

Definition many_objects (n : nat) : list Parser.Obj :=
  map (fun i => prog ("Z" +:+ pretty i)) (seq 0 n).

(** Time stamps of the examples, in microseconds since the epoch. *)
Definition stamps : list (string * datetime) :=
  [ ("2024-01-01T00:00:00-05:00", Aware 1704085200000000);
    ("2024-03-01T00:00:00-05:00", Aware 1709269200000000);
    ("2024-03-01T00:00:00", Naive) ].

Definition runtime : Runtime := {|
  utf8_decode := fun b => b;
  json_loads := loads_known docs;
  json_dumps := fun row => dumps (PDict (map (fun p => (fst p, Parser.cell (snd p))) row));
  csv_DictReader := csv_reader;
  py_repr := show true;
  fromisoformat := fun s => assoc s stamps;
  fnmatch := fun name pat =>
               glob (list_ascii_of_string pat) (list_ascii_of_string name);
  fromisoformat_empty := eq_refl
|}.

(** A history with an old change, a recent one and a row that is not
    JSON; the clock stands at 2024-03-05T00:00:00-05:00. *)
Definition old_row : DB.Row :=
  DB.mkRow "CHG-OLD" (Some "2024-01-01T00:00:00-05:00")
           (dumps (findings_doc ["R3TR:PROG:ZA"; "R3TR:TABL:ZT"])).

Definition new_row : DB.Row :=
  DB.mkRow "CHG-NEW" (Some "2024-03-01T00:00:00-05:00")
           (dumps (findings_doc ["R3TR:PROG:ZA"; "R3TR:TABL:ZT"])).

Definition bad_row : DB.Row :=
  DB.mkRow "CHG-BAD" (Some "2024-03-01T00:00:00-05:00") "{".

Definition big_row : DB.Row :=
  DB.mkRow "CHG-BIG" None (dumps (findings_doc (many_keys 201))).

Definition clock : Z := 1709614800000000.

End Demo.


(** ** The three input modes together *)

Module Modes.
Import Parser.

Inductive mode : Type := FreeText | CSV | JSON.

Section Parse.
Context `{Runtime}.

(** The parser the application calls for each kind of input. *)
Definition parse (m : mode) (input : string) : result (list Obj) :=
  match m with
  | FreeText => parse_abap_object_text input
  | CSV => load_objects_from_csv input
  | JSON => load_objects_from_json input
  end.

Definition produced {A} (f : A -> result (option Obj)) (records : list A)
  : list Obj :=
  flat_map (fun r => match f r with Ok (Some o) => [o] | _ => [] end) records.

(** The objects the input records give, one after the other, before
    any of them has replaced another.  Empty bytes hold no record. *)
Definition candidates (m : mode) (input : string) : list Obj :=
  match m with
  | FreeText => produced line_object (PyStr.splitlines input)
  | CSV =>
      if String.eqb input "" then []
      else produced csv_object (fst (csv_DictReader (utf8_decode input)))
  | JSON =>
      if String.eqb input "" then []
      else
        match json_loads (utf8_decode input) with
        | Some data =>
            match
              objects ← py_get_default data "objects"
                          (if isinstance_list data then data else PList []);
              py_iter objects
            with
            | Ok items => produced json_object items
            | Raise _ => []
            end
        | None => []
        end
  end.
End Parse.

(** [o] is the last of [cands] with its key. *)
Definition is_last (cands : list Obj) (o : Obj) : Prop :=
  ∃ l1 l2, cands = l1 ++ o :: l2
           ∧ Forall (fun o' => normalized_key o' ≠ normalized_key o) l2.

(** Last-wins: the keys of [out] are distinct, its members are the
    candidates that are last with their key, and every candidate's key
    is present. *)
Definition last_wins (cands out : list Obj) : Prop :=
  List.NoDup (map normalized_key out)
  ∧ (∀ o, In o out ↔ is_last cands o)
  ∧ (∀ o, In o cands → In (normalized_key o) (map normalized_key out)).

End Modes.

(** ** The matching rule as the specification words it *)

Module MatcherSpec.
Import PyStr Parser Mapping.

Section Rule.
Context `{Runtime}.

Definition type_constraint (rules : MatchRules) (o : Obj) : Prop :=
  object_types rules = []
  ∨ In (upper (obj_type o)) (map upper (object_types rules)).

(** Some pattern matches the value, ignoring case. *)
Definition some_match (patterns : list string) (value : string) : Prop :=
  ∃ pat, In pat patterns ∧ fnmatch (upper value) (upper pat) = true.

Definition namespace_check (rules : MatchRules) (o : Obj) : Prop :=
  some_match (namespaces rules) (obj_name o).

Definition package_check (rules : MatchRules) (o : Obj) : Prop :=
  some_match (packages rules) (default "" (package o)).

(** The rule as stated: with a pattern in either set one of the two
    checks has to pass. *)
Definition stated_rule (rules : MatchRules) (o : Obj) : Prop :=
  type_constraint rules o
  ∧ (namespaces rules ≠ [] ∨ packages rules ≠ [] →
     namespace_check rules o ∨ package_check rules o).

(** The rule of the code: an empty pattern set passes its own check. *)
Definition coded_rule (rules : MatchRules) (o : Obj) : Prop :=
  type_constraint rules o
  ∧ (namespaces rules = [] ∨ packages rules = []
     ∨ namespace_check rules o ∨ package_check rules o).
End Rule.

End MatcherSpec.

(** ** Notions for the parser output *)

Module ParserNotions.
Import PyStr Parser.

(** The keys of [ks] in the order of their first occurrence, those of
    [seen] left out. *)
Fixpoint first_occurrences (seen ks : list string) : list string :=
  match ks with
  | [] => []
  | k :: ks' =>
      if in_strs k seen then first_occurrences seen ks'
      else k :: first_occurrences (seen ++ [k]) ks'
  end.

(** A field as [_norm] leaves it: upper case, no white space around. *)
Definition normal (s : string) : Prop := upper s = s ∧ strip s = s.

(** An object as [_make_obj] builds it. *)
Definition canonical (o : Obj) : Prop :=
  normalized_key o = obj_class o +:+ ":" +:+ obj_type o +:+ ":" +:+ obj_name o
  ∧ normal (obj_class o) ∧ normal (obj_type o) ∧ normal (obj_name o)
  ∧ match package o with Some p => normal p | None => True end
  ∧ match component o with Some c => normal c | None => True end
  ∧ strip (raw o) = raw o.

End ParserNotions.

(** ** The shape of a pattern match *)

Module PatternNotions.
Import PyStr Parser.




(** An entry of the JSON array whose fields, where present, are strings
    or [null]; an entry that is no object is passed over by the loop. *)
Definition plain_field (kv : list (string * pyval)) (k : string) : bool :=
  stringy (default PNone (assoc k kv)).

Definition plain_entry (o0 : pyval) : bool :=
  match o0 with
  | PDict kv =>
      forallb (plain_field kv)
        ["obj_class"; "obj_type"; "object_type"; "obj_name"; "object_name";
         "package"; "component"]
  | _ => true
  end.

End PatternNotions.

(** ** Joining texts *)

Module TextNotions.

(** The line feed, and two texts with a line feed between them. *)
Definition newline : string := String (ascii_of_nat 10) EmptyString.

Definition join_lines (a b : string) : string := a +:+ newline +:+ b.

Definition LF : ascii := ascii_of_nat 10.

End TextNotions.

(** ** Letter case in the matcher *)

Module MatcherNotions.
Import PyStr Parser Mapping.

(** The rules and the object with every string the matcher looks at put
    in upper case. *)
Definition upper_rules (rules : MatchRules) : MatchRules :=
  {| packages := map upper (packages rules);
     namespaces := map upper (namespaces rules);
     object_types := map upper (object_types rules) |}.

Definition upper_fields (o : Obj) : Obj :=
  {| obj_class := obj_class o;
     obj_type := upper (obj_type o);
     obj_name := upper (obj_name o);
     package := option_map upper (package o);
     component := component o;
     raw := raw o;
     normalized_key := normalized_key o |}.

(** The entry of [apps] that has no rule at all. *)
Definition no_rules : MatchRules :=
  {| packages := []; namespaces := []; object_types := [] |}.

End MatcherNotions.

(** ** Notions for the history store *)

Module DBNotions.
Import Parser DB.

(** A row without a time stamp (NULL or the empty string). *)
Definition stampless (row : Row) : Prop :=
  generated_at row = None ∨ generated_at row = Some "".

Section Window.
Context `{Runtime}.


(** The stamp of the row is there but parses to no zone-aware date. *)
Definition bad_stamp (row : Row) : Prop :=
  ∃ g, generated_at row = Some g ∧ g ≠ ""
       ∧ (fromisoformat g = None ∨ fromisoformat g = Some Naive).
End Window.

(** The range of [datetime]: 0001-01-01T00:00:00 to
    9999-12-31T23:59:59.999999 on the wall clock, in microseconds since
    the epoch; [APP_TZ] is five hours behind UTC. *)
Definition datetime_min : Z := -62135596800000000.
Definition datetime_max : Z := 253402300799999999.
Definition APP_TZ_offset : Z := -18000000000.

(** The window that [find_overlaps] can compute with:
    [timedelta(days=window_days)] exists and [now - timedelta(...)] is a
    date of the years 1 to 9999 on the clock of [APP_TZ].  Outside it the
    subtraction raises [OverflowError] before any row is read. *)
Definition window_fits (now window_days : Z) : Prop :=
  (-999999999 <= window_days <= 999999999)%Z
  ∧ (datetime_min <= now + APP_TZ_offset - window_days * us_per_day
     <= datetime_max)%Z.

End DBNotions.

(** ** Further example data *)

Module DemoMore.
Import Demo.

(** A row whose stamp has no time zone, and one whose stamp is no date. *)
Definition naive_row : DB.Row :=
  DB.mkRow "CHG-NAIVE" (Some "2024-03-01T00:00:00")
           (dumps (findings_doc ["R3TR:PROG:ZA"; "R3TR:TABL:ZT"])).

Definition garbled_row : DB.Row :=
  DB.mkRow "CHG-GARBLED" (Some "yesterday")
           (dumps (findings_doc ["R3TR:PROG:ZA"; "R3TR:TABL:ZT"])).

(** A row without a stamp. *)
Definition undated_row : DB.Row :=
  DB.mkRow "CHG-UNDATED" None
           (dumps (findings_doc ["R3TR:PROG:ZA"; "R3TR:TABL:ZT"])).

(** A change of five objects, of which the enhancement and the class
    are among the top objects of an app of criticality 5.  Their
    points are 3, 3, 9 * 1.3, 3 and 7 * 1.3. *)
Definition named (otype name : string) : Parser.Obj :=
  Parser.mkObj "R3TR" otype name None None
               ("R3TR " +:+ otype +:+ " " +:+ name)
               ("R3TR:" +:+ otype +:+ ":" +:+ name).

Definition five_objects : list Parser.Obj :=
  [ named "MSAG" "A1"; named "MSAG" "A2"; named "ENHO" "E1";
    named "MSAG" "A3"; named "CLAS" "C1" ].

Definition critical_app : Mapping.ImpactedApp :=
  Mapping.mkImpacted "billing" "Billing" (2 # 5) 2
                     ["R3TR:ENHO:E1"; "R3TR:CLAS:C1"] [] 5.

(** The value that is rounded for the five objects, computed with the
    operations of [SpecFloat]. *)
Definition five_objects_ieee : spec_float :=
  let add := SFadd 53 1024 in
  let mul := SFmul 53 1024 in
  let div := SFdiv 53 1024 in
  let factor := div (PyFloat.double 13) (PyFloat.double 10) in
  let total :=
    add (add (add (add (add (PyFloat.double 0) (PyFloat.double 3))
                       (PyFloat.double 3))
                  (mul (PyFloat.double 9) factor))
             (PyFloat.double 3))
        (mul (PyFloat.double 7) factor) in
  mul (mul (div total (PyFloat.double 5))
           (div (PyFloat.double 125) (PyFloat.double 100)))
      (PyFloat.double 10).

End DemoMore.

(** ** Notions for the scorer *)

Module ScoringNotions.
Import PyStr Parser Scoring.

(** The overlap record lists the key among its (at most 200)
    [shared_objects]. *)
Definition lists_key (k : string) (o : DB.OverlapRecord) : bool :=
  in_strs k (DB.shared_objects o).

(** The app is critical and has the key among its [top_objects]. *)
Definition critical_for (k : string) (a : Mapping.ImpactedApp) : Prop :=
  (4 <= Mapping.criticality a)%Z ∧ In k (Mapping.top_objects a).

(** Every object of the change has a type of base 8 or more
    (enhancements and exits, function groups and modules, tables, views). *)
Definition heavy (objects : list Obj) : Prop :=
  Forall (fun o => (8 <= base_points (upper (obj_type o)))%Z) objects.

End ScoringNotions.

(** ** navica/core/exporter.py *)

Module Exporter.
Import PyStr Parser Scoring.

(** [sep.join(l)] *)
Fixpoint str_join (sep : string) (l : list string) : string :=
  match l with
  | [] => ""
  | [x] => x
  | x :: l' => x +:+ sep +:+ str_join sep l'
  end.

(** [s.split()]: the words between runs of white space. *)
Definition py_split (s : string) : list string :=
  List.filter (fun w => negb (String.eqb w "")) (re_split_ws s).

(** [x in s] for strings *)
Fixpoint contains (x s : string) : bool :=
  startswith s x
  || match s with
     | EmptyString => false
     | String _ s' => contains x s'
     end.

(** [sum(len(x) for x in cur)] *)
Definition sum_len (cur : list string) : nat :=
  fold_right (fun x n => String.length x + n) 0 cur.

(** One turn of the loop of [wrap] over the words. *)
Definition wrap_step (max_chars : nat) (st : list string * list string)
    (w : string) : list string * list string :=
  let '(lines, cur) := st in
  if max_chars <? sum_len cur + length cur + String.length w
  then (lines ++ [str_join " " cur], [w])
  else (lines, cur ++ [w]).

(** The helper [wrap] of [render_checklist_pdf]. *)
Definition wrap (text : string) (max_chars : nat) : list string :=
  let words := py_split text in
  let '(lines, cur) := fold_left (wrap_step max_chars) words ([], []) in
  let lines :=
    match cur with
    | [] => lines
    | _ => lines ++ [str_join " " cur]
    end in
  match lines with
  | [] => [""]
  | _ => lines
  end.

Definition ENHANCEMENT_MARKS : list string :=
  [":CMOD:"; ":SMOD:"; ":ENHO:"; ":ENHS:"; ":SPOT:"].

Definition DDIC_MARKS : list string := [":TABL:"; ":VIEW:"; ":DDLS:"].

(** [any(x in r.get("normalized_key","") for x in marks)] *)
Definition mentions (marks : list string) (r : ObjectRisk) : bool :=
  existsb (fun x => contains x (risk_key r)) marks.

Definition key_line (r : ObjectRisk) : string := "- " +:+ risk_key r.

Section Sections.
(** [str(round(x, 2))] of an impact score *)
Variable show_round2 : Q → string.

Definition app_line (a : Mapping.ImpactedApp) : string :=
  let nm := if String.eqb (Mapping.display_name a) ""
            then Mapping.ia_app_id a else Mapping.display_name a in
  "- " +:+ nm +:+ " (matched objects: " +:+ pretty (Mapping.matched_objects a)
  +:+ ", impact: " +:+ show_round2 (Mapping.impact_score a) +:+ ")".

Definition overlap_line (o : DB.OverlapRecord) : string :=
  "- Overlaps with " +:+ DB.other_change_id o +:+ " (shared objects: "
  +:+ pretty (DB.shared_object_count o) +:+ ")".

Definition focus_section (f : Findings) : list string :=
  let risks := object_risks f in
  let impacted := impacted_apps f in
  let top_enh := firstn 10 (List.filter (mentions ENHANCEMENT_MARKS) risks) in
  let focus :=
    match top_enh with
    | [] => []
    | _ => "Prioritize validation around exits/enhancements (high regression risk):"
           :: map key_line top_enh
    end in
  let top_ddic := firstn 10 (List.filter (mentions DDIC_MARKS) risks) in
  let focus :=
    match top_ddic with
    | [] => focus
    | _ => focus
           ++ "Prioritize DDIC/CDS checks (data structure & semantics):"
              :: map key_line top_ddic
    end in
  let focus :=
    match impacted with
    | [] => focus
    | _ => focus
           ++ "Impacted apps/components to regression test (ranked):"
              :: map app_line (firstn 10 impacted)
    end in
  match focus with
  | [] => ["- Review top risk objects and select at least 1 happy-path + 1 negative-path scenario per impacted area."]
  | _ => focus
  end.

Definition dedupe_section (f : Findings) : list string :=
  match overlaps f with
  | [] => ["- No recent overlaps detected in local history (or no prior analyses in last window)."]
  | _ => "Avoid redundant testing where overlap is already covered:"
         :: map overlap_line (firstn 10 (overlaps f))
  end.

Definition smoke_section : list string :=
  [ "- Run quick smoke for the impacted apps (basic navigation + primary transaction).";
    "- Validate authorization/role impacts if exits/enhancements touch security-sensitive flows.";
    "- Confirm error handling: failures should be localized and actionable (keep it boring).";
    "- Capture screenshots/logs for any new validations to make future triage faster." ].

(** The sections in the order the dict holds them. *)
Definition build_checklist_sections (f : Findings)
  : list (string * list string) :=
  [ ("What to focus on (to keep prod fixes boring)", focus_section f);
    ("Redundancy guardrails", dedupe_section f);
    ("Quick smoke checklist", smoke_section) ].

(** The text of a list item: [item[2:] if item.startswith("- ") else item] *)
Definition item_text (item : string) : string :=
  if startswith item "- " then String.substring 2 (String.length item - 2) item
  else item.
End Sections.

(** A group of words fits a line: it is a single word (or none), or its
    words with the blanks between them take at most [max_chars]. *)
Definition fits (max_chars : nat) (g : list string) : Prop :=
  length g ≤ 1 ∨ String.length (str_join " " g) ≤ max_chars.

End Exporter.

(** ** navica/navica_app.py: loading and analysing *)

Module App.
Import PyStr Parser Scoring.

(** *** The findings as the dict [score_change] returns *)

Definition py_int (z : Z) : pyval := PNum (inject_Z z).
Definition py_nat (n : nat) : pyval := py_int (Z.of_nat n).
Definition py_strs (l : list string) : pyval := PList (map PStr l).

Definition impacted_py (a : Mapping.ImpactedApp) : pyval :=
  PDict [ ("app_id", PStr (Mapping.ia_app_id a));
          ("display_name", PStr (Mapping.display_name a));
          ("impact_score", PNum (Mapping.impact_score a));
          ("matched_objects", py_nat (Mapping.matched_objects a));
          ("top_objects", py_strs (Mapping.top_objects a));
          ("tags", py_strs (Mapping.tags a));
          ("criticality", py_int (Mapping.criticality a)) ].

Definition overlap_py (o : DB.OverlapRecord) : pyval :=
  PDict [ ("other_change_id", PStr (DB.other_change_id o));
          ("shared_object_count", py_nat (DB.shared_object_count o));
          ("shared_objects", py_strs (DB.shared_objects o)) ].

Definition risk_py (r : ObjectRisk) : pyval :=
  PDict [ ("normalized_key", PStr (risk_key r));
          ("risk_points", py_int (risk_points r));
          ("reasons", py_strs (reasons r)) ].

Definition summary_py (s : Summary) : pyval :=
  PDict [ ("risk_score", py_int (risk_score s));
          ("risk_level", PStr (risk_level s));
          ("objects_total", py_nat (objects_total s));
          ("apps_impacted", py_nat (apps_impacted s));
          ("overlaps_found", py_nat (overlaps_found s)) ].

Definition findings_py (f : Findings) : pyval :=
  PDict [ ("navica_version", PStr (navica_version f));
          ("change_id", PStr (f_change_id f));
          ("generated_at", PStr (f_generated_at f));
          ("summary", summary_py (summary f));
          ("impacted_apps", PList (map impacted_py (impacted_apps f)));
          ("overlaps", PList (map overlap_py (overlaps f)));
          ("object_risks", PList (map risk_py (object_risks f)));
          ("notes", py_strs (notes f));
          ("tester_scope_suggestions",
           py_strs
             [ "Use the overlap table to avoid re-testing scenarios already covered by another change.";
               "Prioritize tests around user exits/enhancements and DDIC changes to keep production issues boring to fix." ]) ].

(** *** The widgets the analysis reads, and what it keeps *)

Record Inputs : Type := mkInputs {
  file_csv : string;
  file_json : string;
  paste : option string
}.

(** The history store and [latest_findings["data"]]. *)
Record Session : Type := mkSession {
  table : list DB.Row;
  latest : option Findings
}.

(** How far [_analyze] came: no objects, an exception before the
    findings were there, or the findings, computed and saved. *)
Inductive outcome : Type :=
| NoObjects
| Failed (e : exn)
| Scored (f : Findings).

Section Analyze.
Context `{Runtime}.
(** [base64.b64decode] *)
Variable b64decode : string → result string.
(** [json.dumps] *)
Variable dumps : pyval → string.

Definition _decode_fileinput (value : string) : result string :=
  if String.eqb value "" then mret "" else b64decode value.

(** Precedence: CSV, JSON, then the pasted text. *)
Definition _load_objects (inp : Inputs) : result (list Obj) :=
  if negb (String.eqb (file_csv inp) "") then
    raw ← _decode_fileinput (file_csv inp); load_objects_from_csv raw
  else if negb (String.eqb (file_json inp) "") then
    raw ← _decode_fileinput (file_json inp); load_objects_from_json raw
  else parse_abap_object_text (default "" (paste inp)).

(** [int(overlap_days.value or 30)] *)
Definition window_of (overlap_days : option Z) : Z :=
  match overlap_days with
  | Some d => if (d =? 0)%Z then 30%Z else d
  | None => 30%Z
  end.

(** [db.save_change(findings["change_id"], findings)] *)
Definition stored_row (f : Findings) : DB.Row :=
  {| DB.change_id := f_change_id f;
     DB.generated_at := Some (f_generated_at f);
     DB.findings_json := dumps (findings_py f) |}.

(** [_analyze] up to the point where the findings are saved; what
    follows only fills the widgets.  [catalog] is what [load_app_catalog]
    returns, [now] and [stamp] the clock as in [score_change]. *)
Definition analyze (catalog : Mapping.Catalog) (now : Z) (stamp : string)
    (change_id : string) (overlap_days : option Z) (inp : Inputs)
    (s : Session) : Session * outcome :=
  match _load_objects inp with
  | Raise e => (s, Failed e)
  | Ok objects =>
      if Mapping.is_nil objects then (s, NoObjects)
      else
        let impacted_apps := Mapping.map_objects_to_apps objects catalog in
        let findings :=
          score_change (table s) now stamp change_id objects impacted_apps
            (window_of overlap_days) in
        ({| table := DB.save_change (table s) (stored_row findings);
            latest := Some findings |},
         Scored findings)
  end.
End Analyze.

End App.

(** ** Example data for two analyses in a row *)

Module DemoApp.
Import Demo.

(** The findings of a first analysis, of one program, on an empty
    history, stamped 2024-03-01T00:00:00-05:00. *)
Definition first_findings : Scoring.Findings :=
  @Scoring.score_change Demo.runtime [] 1709269200000000
    "2024-03-01T00:00:00-05:00" "CHG-1" [prog "ZA"] [] 30.

(** The stand-in library whose decoder knows the stored findings. *)
Definition runtime : Runtime := {|
  utf8_decode := fun b => b;
  json_loads := loads_known [App.findings_py first_findings];
  json_dumps := fun row =>
                  dumps (PDict (map (fun p => (fst p, Parser.cell (snd p))) row));
  csv_DictReader := csv_reader;
  py_repr := show true;
  fromisoformat := fun s => assoc s stamps;
  fnmatch := fun name pat =>
               glob (list_ascii_of_string pat) (list_ascii_of_string name);
  fromisoformat_empty := eq_refl
|}.

(** No file is uploaded in the examples. *)
Definition no_upload : string → result string := fun _ => Raise ValueError.

Definition empty_catalog : Mapping.Catalog := Mapping.mkCatalog "0" [].

Definition first_input : App.Inputs :=
  App.mkInputs "" "" (Some "R3TR PROG ZA").


Definition empty_session : App.Session := App.mkSession [] None.

Definition first_session : App.Session :=
  App.mkSession [App.stored_row dumps first_findings] (Some first_findings).

End DemoApp.

(** * Properties *)

Ltac unfold_result :=
  unfold mbind, result_bind, mret, result_ret in *.

(** ** The dict [found] *)

Module DictFacts.
Import Parser.

Section Dict.
Context {V : Type}.
Implicit Types (d : dict V) (k : string) (v : V).

Lemma assoc_dict_set_eq d k v : assoc k (dict_set d k v) = Some v.
Proof.
  induction d as [|[k' v'] d IH]; simpl.
  - now rewrite String.eqb_refl.
  - destruct (String.eqb k k') eqn:E; simpl.
    + now rewrite String.eqb_refl.
    + now rewrite E.
Qed.

Lemma assoc_dict_set_ne d k k0 v :
  k0 ≠ k → assoc k0 (dict_set d k v) = assoc k0 d.
Proof.
  intros Hne. induction d as [|[k' v'] d IH]; simpl.
  - apply String.eqb_neq in Hne. now rewrite Hne.
  - destruct (String.eqb k k') eqn:E; simpl.
    + apply String.eqb_eq in E. subst k'.
      apply String.eqb_neq in Hne. now rewrite Hne.
    + now rewrite IH.
Qed.

Lemma keys_dict_set d k v k0 :
  In k0 (map fst (dict_set d k v)) ↔ k0 = k ∨ In k0 (map fst d).
Proof.
  induction d as [|[k' v'] d IH]; simpl.
  - intuition.
  - destruct (String.eqb k k') eqn:E; simpl.
    + apply String.eqb_eq in E. subst. intuition.
    + rewrite IH. intuition.
Qed.

Lemma NoDup_dict_set d k v :
  List.NoDup (map fst d) → List.NoDup (map fst (dict_set d k v)).
Proof.
  induction d as [|[k' v'] d IH]; simpl; intros Hnd.
  - constructor; [intros [] | constructor].
  - inversion Hnd as [|? ? Hnotin Hnd']; subst.
    destruct (String.eqb k k') eqn:E; simpl.
    + apply String.eqb_eq in E. subst. now constructor.
    + constructor; [|now apply IH].
      rewrite keys_dict_set. intros [->|Hin]; [|contradiction].
      now rewrite String.eqb_refl in E.
Qed.

Lemma assoc_None_keys d k : assoc k d = None ↔ ¬ In k (map fst d).
Proof.
  induction d as [|[k' v'] d IH]; simpl.
  - intuition.
  - destruct (String.eqb k k') eqn:E.
    + apply String.eqb_eq in E. subst. split; [discriminate | intuition].
    + apply String.eqb_neq in E. rewrite IH. intuition congruence.
Qed.

Lemma In_assoc d k v :
  List.NoDup (map fst d) → In (k, v) d ↔ assoc k d = Some v.
Proof.
  induction d as [|[k' v'] d IH]; simpl; intros Hnd.
  - split; [intros [] | discriminate].
  - inversion Hnd as [|? ? Hnotin Hnd']; subst.
    destruct (String.eqb k k') eqn:E.
    + apply String.eqb_eq in E. subst k'. split.
      * intros [Heq|Hin]; [congruence|].
        exfalso. apply Hnotin. apply (in_map fst) in Hin. exact Hin.
      * intros [= ->]. now left.
    + apply String.eqb_neq in E. rewrite <- (IH Hnd'). split.
      * intros [Heq|Hin]; [congruence | exact Hin].
      * intros Hin. now right.
Qed.
End Dict.


Lemma store_all_snoc found cands o :
  store_all found (cands ++ [o]) = store (store_all found cands) o.
Proof. unfold store_all. now rewrite fold_left_app. Qed.

Lemma store_all_keys cands :
  List.NoDup (map fst (store_all [] cands))
  ∧ (∀ k v, In (k, v) (store_all [] cands) → k = normalized_key v)
  ∧ (∀ k, assoc k (store_all [] cands) = last_with k cands).
Proof.
  induction cands as [|o cands IH] using rev_ind.
  - simpl. repeat split; [constructor | intros ? ? []].
  - destruct IH as (Hnd & Hkey & Hlast).
    rewrite store_all_snoc. unfold store. repeat split.
    + now apply NoDup_dict_set.
    + intros k v Hin.
      assert (Hnd' := NoDup_dict_set _ (normalized_key o) o Hnd).
      apply (In_assoc _ _ _ Hnd') in Hin.
      destruct (String.eqb_spec k (normalized_key o)) as [->|Hne].
      * rewrite assoc_dict_set_eq in Hin. congruence.
      * rewrite assoc_dict_set_ne in Hin by exact Hne.
        apply (In_assoc _ _ _ Hnd) in Hin. now apply Hkey.
    + intros k. unfold last_with. rewrite rev_app_distr. simpl.
      destruct (String.eqb_spec k (normalized_key o)) as [->|Hne].
      * apply assoc_dict_set_eq.
      * rewrite assoc_dict_set_ne by exact Hne. apply Hlast.
Qed.

Lemma find_first {A} (f : A → bool) (l : list A) (x : A) :
  List.find f l = Some x ↔
  ∃ l1 l2, l = l1 ++ x :: l2 ∧ f x = true ∧ Forall (fun y => f y = false) l1.
Proof.
  induction l as [|a l IH]; simpl.
  - split; [discriminate|]. intros (l1 & l2 & Heq & _).
    destruct l1; discriminate.
  - destruct (f a) eqn:E.
    + split.
      * intros [= ->]. exists [], l. repeat split; [exact E | constructor].
      * intros (l1 & l2 & Heq & Hx & Hall). destruct l1 as [|b l1].
        -- simpl in Heq. congruence.
        -- simpl in Heq. injection Heq as -> _.
           inversion Hall; subst. congruence.
    + rewrite IH. split.
      * intros (l1 & l2 & -> & Hx & Hall). exists (a :: l1), l2.
        repeat split; [exact Hx | now constructor].
      * intros (l1 & l2 & Heq & Hx & Hall). destruct l1 as [|b l1].
        -- simpl in Heq. injection Heq as -> _. congruence.
        -- simpl in Heq. injection Heq as -> ->.
           inversion Hall; subst. now exists l1, l2.
Qed.

Lemma last_with_is_last cands o :
  last_with (normalized_key o) cands = Some o ↔ Modes.is_last cands o.
Proof.
  unfold last_with, Modes.is_last. rewrite find_first. split.
  - intros (l1 & l2 & Heq & _ & Hall).
    exists (rev l2), (rev l1). split.
    + rewrite <- (rev_involutive cands), Heq, rev_app_distr. simpl.
      now rewrite <- app_assoc.
    + apply List.Forall_forall. intros o' Hin. apply in_rev in Hin.
      rewrite List.Forall_forall in Hall. specialize (Hall _ Hin).
      apply String.eqb_neq in Hall. congruence.
  - intros (l1 & l2 & -> & Hall).
    exists (rev l2), (rev l1). repeat split.
    + rewrite rev_app_distr. simpl. now rewrite <- app_assoc.
    + apply String.eqb_refl.
    + apply List.Forall_forall. intros o' Hin. apply in_rev in Hin.
      rewrite List.Forall_forall in Hall. specialize (Hall _ Hin).
      apply String.eqb_neq. congruence.
Qed.

(** Storing the candidates one after the other is last-wins. *)
Lemma store_all_last_wins cands :
  Modes.last_wins cands (dict_values (store_all [] cands)).
Proof.
  destruct (store_all_keys cands) as (Hnd & Hkey & Hlast).
  assert (Hmap : map normalized_key (dict_values (store_all [] cands))
                 = map fst (store_all [] cands)).
  { unfold dict_values. rewrite map_map. apply map_ext_in.
    intros [k v] Hin. simpl. symmetry. now apply Hkey. }
  unfold Modes.last_wins. rewrite Hmap. split; [exact Hnd|]. split.
  - intros o. rewrite <- last_with_is_last, <- Hlast. split.
    + intros Hin. apply (In_assoc _ _ _ Hnd).
      unfold dict_values in Hin. apply List.in_map_iff in Hin.
      destruct Hin as ([k v] & Hv & Hin). simpl in Hv. subst v.
      now rewrite <- (Hkey _ _ Hin).
    + intros Hl. apply (In_assoc _ _ _ Hnd) in Hl.
      unfold dict_values. apply List.in_map_iff.
      now exists (normalized_key o, o).
  - intros o Hin.
    destruct (assoc (normalized_key o) (store_all [] cands)) eqn:E.
    + destruct (in_dec string_dec (normalized_key o)
                  (map fst (store_all [] cands))) as [Hk|Hk]; [exact Hk|].
      apply assoc_None_keys in Hk. congruence.
    + exfalso. rewrite Hlast in E. unfold last_with in E.
      apply in_rev in Hin.
      assert (Hf := find_none _ _ E o Hin). simpl in Hf.
      now rewrite String.eqb_refl in Hf.
Qed.

End DictFacts.

(** ** The parsers *)

Module ParserFacts.
Import PyStr Parser DictFacts Modes.


Lemma py_or_stringy a b : stringy a = true → stringy b = true →
  stringy (py_or a b) = true.
Proof. unfold py_or. now destruct (truthy a). Qed.

Lemma _norm_stringy v : stringy v = true → ∃ t, _norm v = Ok t.
Proof.
  destruct v; try discriminate; intros _; unfold _norm, py_or; simpl.
  - eauto.
  - destruct (negb (String.eqb s "")); eauto.
Qed.

Lemma norm_opt_stringy v : stringy v = true → ∃ t, norm_opt v = Ok t.
Proof.
  intros Hv. unfold norm_opt. destruct (truthy v); [|unfold_result; eauto].
  destruct (_norm_stringy v Hv) as [t ->]. unfold_result. eauto.
Qed.

Lemma _make_obj_stringy c t n raw p k :
  stringy c = true → stringy t = true → stringy n = true →
  stringy p = true → stringy k = true →
  ∃ o, _make_obj c t n raw p k = Ok o.
Proof.
  intros Hc Ht Hn Hp Hk. unfold _make_obj.
  destruct (_norm_stringy c Hc) as [? ->].
  destruct (_norm_stringy t Ht) as [? ->].
  destruct (_norm_stringy n Hn) as [? ->].
  destruct (norm_opt_stringy p Hp) as [? Ep].
  destruct (norm_opt_stringy k Hk) as [? Ek].
  unfold_result. rewrite Ep, Ek. eauto.
Qed.

Ltac make_obj_ok :=
  match goal with
  | |- context [_make_obj ?c ?t ?n ?r ?p ?k] =>
      let o := fresh "o" in
      let E := fresh "E" in
      destruct (_make_obj_stringy c t n r p k) as [o E];
      [reflexivity .. |]; rewrite E
  end.

Lemma _norm_PStr s : _norm (PStr s) = Ok (upper (strip s)).
Proof.
  unfold _norm, py_or. simpl.
  destruct (String.eqb_spec s "") as [->|Hne]; reflexivity.
Qed.

(** A line of text never raises. *)
Lemma line_object_total line : ∃ r, line_object line = Ok r.
Proof.
  unfold line_object.
  destruct (String.eqb (strip line) ""); [unfold_result; eauto|].
  destruct (re_search (strip line)) as [[[c t] n]|].
  - make_obj_ok. unfold_result. eauto.
  - rewrite !_norm_PStr.
    destruct (3 <=? length (re_split_ws (strip line)));
    destruct (2 <=? length (re_split_ws (strip line)));
    unfold_result; cbn [andb];
    repeat match goal with
           | |- context [in_strs ?x ?l] => destruct (in_strs x l)
           end;
    repeat make_obj_ok; eauto.
Qed.

Lemma produced_cons_ok {A} (f : A → result (option Obj)) r rest o :
  f r = Ok o →
  produced f (r :: rest)
  = match o with Some o => [o] | None => [] end ++ produced f rest.
Proof. intros E. unfold produced. simpl. rewrite E. now destruct o. Qed.

Lemma store_all_step found o cands :
  store_all (match o with Some o => store found o | None => found end) cands
  = store_all found (match o with Some o => [o] | None => [] end ++ cands).
Proof. now destruct o. Qed.

Lemma parse_lines_store found lines :
  parse_lines found lines = Ok (store_all found (produced line_object lines)).
Proof.
  revert found. induction lines as [|line rest IH]; intros found.
  - reflexivity.
  - destruct (line_object_total line) as [o E].
    rewrite (produced_cons_ok _ _ _ _ E). cbn [parse_lines].
    rewrite E. unfold_result. rewrite IH. now rewrite store_all_step.
Qed.

(** *** Blank text *)

Lemma lstrip_spaces l : forallb isspace l = true → lstrip l = [].
Proof.
  induction l as [|c l IH]; simpl; [reflexivity|].
  intros Hl. apply andb_true_iff in Hl. destruct Hl as [-> Hl]. now apply IH.
Qed.

Lemma lstrip_nil l : lstrip l = [] → forallb isspace l = true.
Proof.
  induction l as [|c l IH]; simpl; [reflexivity|].
  destruct (isspace c); [exact IH | discriminate].
Qed.

Lemma lstrip_head l c m : lstrip l = c :: m → isspace c = false.
Proof.
  induction l as [|a l IH]; simpl; [discriminate|].
  destruct (isspace a) eqn:E; [exact IH | congruence].
Qed.

Lemma forallb_rev {A} (f : A → bool) l : forallb f (rev l) = forallb f l.
Proof.
  induction l as [|a l IH]; simpl; [reflexivity|].
  rewrite forallb_app, IH. simpl. rewrite andb_true_r. apply andb_comm.
Qed.


Lemma strip_blank s : strip s = "" ↔ blank s = true.
Proof.
  unfold strip, blank. split.
  - intros E. apply (f_equal list_ascii_of_string) in E.
    rewrite list_ascii_of_string_of_list_ascii in E. simpl in E.
    apply (f_equal (@rev ascii)) in E. rewrite rev_involutive in E.
    simpl in E. apply lstrip_nil in E. rewrite forallb_rev in E.
    destruct (lstrip (list_ascii_of_string s)) as [|c m] eqn:El.
    + now apply lstrip_nil.
    + apply lstrip_head in El. simpl in E. now rewrite El in E.
  - intros Hb. now rewrite (lstrip_spaces _ Hb).
Qed.

Lemma blank_of_list l :
  blank (string_of_list_ascii l) = forallb isspace l.
Proof. unfold blank. now rewrite list_ascii_of_string_of_list_ascii. Qed.

Lemma splitlines_from_blank n : ∀ cur s, length s ≤ n →
  forallb isspace cur = true → forallb isspace s = true →
  Forall (fun l => blank l = true) (splitlines_from cur s).
Proof.
  induction n as [|n IH]; intros cur s Hlen Hcur Hs.
  - destruct s; [|simpl in Hlen; lia]. simpl.
    destruct cur; constructor; [|constructor].
    now rewrite blank_of_list, forallb_rev.
  - destruct s as [|c s]; simpl.
    + destruct cur; constructor; [|constructor].
      now rewrite blank_of_list, forallb_rev.
    + simpl in Hs, Hlen. apply andb_true_iff in Hs. destruct Hs as [Hc Hs].
      destruct (is_linebreak c).
      * constructor; [now rewrite blank_of_list, forallb_rev|].
        destruct s as [|c' s']; [constructor|].
        simpl in Hs, Hlen. apply andb_true_iff in Hs.
        destruct ((nat_of_ascii c =? 13) && (nat_of_ascii c' =? 10)).
        -- apply IH; [lia | reflexivity | apply Hs].
        -- apply IH; [simpl; lia | reflexivity |].
           simpl. now apply andb_true_iff.
      * apply IH; [lia | | exact Hs]. simpl. now rewrite Hc.
Qed.

Lemma line_object_blank line : blank line = true → line_object line = Ok None.
Proof.
  intros Hb. unfold line_object.
  apply strip_blank in Hb. now rewrite Hb.
Qed.

(** A text of white space only has no candidate. *)
Lemma blank_text_no_object text :
  strip text = "" → produced line_object (splitlines text) = [].
Proof.
  intros Hs. apply strip_blank in Hs.
  assert (Hall := splitlines_from_blank _ [] (list_ascii_of_string text)
                    (le_n _) eq_refl Hs).
  fold (splitlines text) in Hall. unfold produced.
  induction Hall as [|l ls Hl _ IH]; simpl; [reflexivity|].
  now rewrite (line_object_blank _ Hl).
Qed.

Section Modes.
Context `{Runtime}.

Lemma cell_stringy c : stringy (cell c) = true.
Proof. now destruct c. Qed.

Lemma row_get_default_stringy row k d :
  stringy d = true → stringy (row_get_default row k d) = true.
Proof.
  intros Hd. unfold row_get_default.
  destruct (assoc k row); [apply cell_stringy | exact Hd].
Qed.

Lemma row_get_stringy row k : stringy (row_get row k) = true.
Proof. now apply row_get_default_stringy. Qed.

(** A CSV row never raises. *)
Lemma csv_object_total row : ∃ r, csv_object row = Ok r.
Proof.
  unfold csv_object.
  match goal with |- context [if ?b then _ else _] => destruct b end;
    [unfold_result; eauto|].
  match goal with
  | |- context [_make_obj ?c ?t ?n ?r ?p ?k] =>
      destruct (_make_obj_stringy c t n r p k) as [o E]
  end;
  repeat first [ apply py_or_stringy | apply row_get_stringy
               | apply row_get_default_stringy | reflexivity ].
  rewrite E. unfold_result. eauto.
Qed.

Lemma csv_rows_store found rows :
  csv_rows found rows = Ok (store_all found (produced csv_object rows)).
Proof.
  revert found. induction rows as [|row rest IH]; intros found.
  - reflexivity.
  - destruct (csv_object_total row) as [o E].
    rewrite (produced_cons_ok _ _ _ _ E). cbn [csv_rows].
    rewrite E. unfold_result. rewrite IH. now rewrite store_all_step.
Qed.

Lemma json_entries_store found items d :
  json_entries found items = Ok d →
  d = store_all found (produced json_object items).
Proof.
  revert found. induction items as [|o0 rest IH]; intros found.
  - now intros [= <-].
  - cbn [json_entries].
    destruct (json_object o0) as [o|e] eqn:E; unfold_result;
      [|discriminate].
    intros Hd. apply IH in Hd.
    rewrite (produced_cons_ok _ _ _ _ E). now rewrite <- store_all_step.
Qed.

(** What each mode returns is the candidates stored in turn. *)
Lemma parse_store_all m input out :
  parse m input = Ok out →
  out = dict_values (store_all [] (candidates m input)).
Proof.
  destruct m; simpl.
  - unfold parse_abap_object_text.
    destruct (String.eqb input "" || String.eqb (strip input) "") eqn:E.
    + intros [= <-]. rewrite blank_text_no_object; [reflexivity|].
      apply orb_true_iff in E. destruct E as [E|E];
        apply String.eqb_eq in E; [now subst | exact E].
    + rewrite parse_lines_store. unfold_result. now intros [= <-].
  - unfold load_objects_from_csv.
    destruct (String.eqb input "") eqn:E.
    + now intros [= <-].
    + destruct (csv_DictReader (utf8_decode input)) as [rows broken].
      rewrite csv_rows_store. unfold_result. simpl.
      destruct broken; [discriminate | now intros [= <-]].
  - unfold load_objects_from_json.
    destruct (String.eqb input "") eqn:E.
    + now intros [= <-].
    + destruct (json_loads (utf8_decode input)) as [data|]; simpl;
        [|discriminate].
      unfold_result.
      destruct (py_get_default data "objects" _) as [objects|];
        [|discriminate].
      destruct (py_iter objects) as [items|]; [|discriminate].
      destruct (json_entries [] items) as [d|] eqn:Ed; [|discriminate].
      intros [= <-]. now rewrite (json_entries_store _ _ _ Ed).
Qed.
End Modes.

End ParserFacts.

(** ** Claims about the parsers *)

Module ParserClaims.
Import PyStr Parser DictFacts Modes ParserFacts.

(** C5. In every mode the parser output is last-wins: its
    [normalized_key]s are pairwise distinct, an Object is in the output
    exactly when it is the last of the objects the input records produce
    with its key, and the key of every produced object is present. *)
Theorem parse_last_wins `{Runtime} (m : mode) (input : string)
    (out : list Obj) :
  parse m input = Ok out → last_wins (candidates m input) out.
Proof.
  intros Hout. rewrite (parse_store_all _ _ _ Hout).
  apply store_all_last_wins.
Qed.

Lemma parse_last_wins_witness :
  let out := [ mkObj "R3TR" "PROG" "ZA" None None "r3tr prog za again"
                     "R3TR:PROG:ZA";
               mkObj "R3TR" "TABL" "ZT" None None "R3TR TABL ZT"
                     "R3TR:TABL:ZT" ] in
  @parse Demo.runtime FreeText Demo.repeated_text = Ok out
  ∧ last_wins (@candidates Demo.runtime FreeText Demo.repeated_text) out.
Proof.
  split; [reflexivity|].
  apply (@parse_last_wins Demo.runtime FreeText Demo.repeated_text).
  reflexivity.
Defined.

(** C2, as stated, fails: the JSON mode raises on bytes that are not
    JSON. *)
Lemma json_mode_raises :
  @parse Demo.runtime JSON "{" = Raise JSONDecodeError.
Proof. reflexivity. Qed.

(** C2, amended. The free-text mode returns a sequence for every text.
    The CSV mode returns one whenever the reader yields its rows without
    an error, and raises [_csv.Error] when the reader stops with it;
    each mode returns the empty sequence on empty input, the free-text
    mode also on white space; the JSON mode raises the decoder's error
    on bytes that do not decode. *)
Theorem parse_total_except_json `{Runtime} :
  (∀ text, ∃ out, parse FreeText text = Ok out)
  ∧ (∀ raw, snd (csv_DictReader (utf8_decode raw)) = false →
       ∃ out, parse CSV raw = Ok out)
  ∧ (∀ raw, raw ≠ "" → snd (csv_DictReader (utf8_decode raw)) = true →
       parse CSV raw = Raise CsvError)
  ∧ (∀ m, parse m "" = Ok [])
  ∧ (∀ text, strip text = "" → parse FreeText text = Ok [])
  ∧ (∀ raw, raw ≠ "" → json_loads (utf8_decode raw) = None →
       parse JSON raw = Raise JSONDecodeError).
Proof.
  repeat split.
  - intros text. simpl. unfold parse_abap_object_text.
    destruct (_ || _); [unfold_result; eauto|].
    rewrite parse_lines_store. unfold_result. eauto.
  - intros raw Hsound. simpl. unfold load_objects_from_csv.
    destruct (String.eqb raw ""); [unfold_result; eauto|].
    destruct (csv_DictReader (utf8_decode raw)) as [rows broken].
    simpl in Hsound. subst broken.
    rewrite csv_rows_store. unfold_result. eauto.
  - intros raw Hne Hbroken. simpl. unfold load_objects_from_csv.
    apply String.eqb_neq in Hne. rewrite Hne.
    destruct (csv_DictReader (utf8_decode raw)) as [rows broken].
    simpl in Hbroken. subst broken.
    rewrite csv_rows_store. reflexivity.
  - intros []; reflexivity.
  - intros text Hs. simpl. unfold parse_abap_object_text.
    apply String.eqb_eq in Hs. rewrite Hs, orb_true_r. reflexivity.
  - intros raw Hne Hdec. simpl. unfold load_objects_from_json.
    apply String.eqb_neq in Hne. rewrite Hne, Hdec. reflexivity.
Qed.

Lemma parse_total_except_json_witness :
  @parse Demo.runtime FreeText "   " = Ok []
  ∧ (∃ out, @parse Demo.runtime CSV Demo.table_csv = Ok out)
  ∧ @parse Demo.runtime CSV Demo.broken_csv = Raise CsvError
  ∧ @parse Demo.runtime JSON "{" = Raise JSONDecodeError.
Proof.
  destruct (@parse_total_except_json Demo.runtime)
    as (_ & Hcsv & Hbroken & _ & Hblank & Hjson).
  split; [|split; [|split]].
  - apply Hblank. reflexivity.
  - apply Hcsv. reflexivity.
  - apply Hbroken; [discriminate | reflexivity].
  - apply Hjson; [discriminate | reflexivity].
Defined.

(** The CSV mode on the two example files. *)
Lemma csv_mode_examples :
  @parse Demo.runtime CSV Demo.table_csv
  = Ok [ mkObj "R3TR" "PROG" "ZA" None None
               (Demo.dumps (PDict [("obj_type", PStr "prog");
                                   ("obj_name", PStr "za")]))
               "R3TR:PROG:ZA" ]
  ∧ @parse Demo.runtime CSV Demo.broken_csv = Raise CsvError.
Proof. split; reflexivity. Qed.

(** The bare array form: [data.get] is looked up on a list. *)
Lemma json_bare_array_raises :
  @parse Demo.runtime JSON (Demo.dumps (PList [])) = Raise AttributeError.
Proof. reflexivity. Qed.

End ParserClaims.

(** ** The stable sorts *)

Module SortFacts.
Import PySort.

Section Sort.
Context {A : Type} (leb : A → A → bool).


Lemma insert_desc_perm x l : Permutation (x :: l) (insert_desc leb x l).
Proof.
  induction l as [|y l IH]; simpl; [reflexivity|].
  destruct (leb y x); [reflexivity|].
  rewrite perm_swap. now apply perm_skip.
Qed.

Lemma sort_reverse_perm l : Permutation l (sort_reverse leb l).
Proof.
  induction l as [|x l IH]; simpl; [reflexivity|].
  rewrite <- insert_desc_perm. now apply perm_skip.
Qed.

Lemma insert_asc_perm x l : Permutation (x :: l) (insert_asc leb x l).
Proof.
  induction l as [|y l IH]; simpl; [reflexivity|].
  destruct (leb x y); [reflexivity|].
  rewrite perm_swap. now apply perm_skip.
Qed.

Lemma sorted_perm l : Permutation l (sorted leb l).
Proof.
  induction l as [|x l IH]; simpl; [reflexivity|].
  rewrite <- insert_asc_perm. now apply perm_skip.
Qed.

Lemma sorted_length l : length (sorted leb l) = length l.
Proof. symmetry. apply Permutation_length, sorted_perm. Qed.

Lemma sort_reverse_In x l : In x (sort_reverse leb l) ↔ In x l.
Proof.
  split; apply Permutation_in;
    [symmetry|]; apply sort_reverse_perm.
Qed.

Lemma Sorted_firstn (R : A → A → Prop) n l :
  Sorted R l → Sorted R (firstn n l).
Proof.
  revert n. induction l as [|x l IH]; intros n Hs.
  - destruct n; constructor.
  - destruct n as [|n]; [constructor|]. simpl.
    inversion Hs as [|? ? Hs' Hhd]; subst.
    constructor; [now apply IH|].
    destruct l as [|y l]; [destruct n; constructor|].
    destruct n; simpl; constructor. now inversion Hhd.
Qed.

Hypothesis leb_total : ∀ x y, leb x y = true ∨ leb y x = true.

Lemma insert_desc_sorted x l :
  Sorted (desc leb) l → Sorted (desc leb) (insert_desc leb x l).
Proof.
  induction l as [|y l IH]; simpl; intros Hs.
  - repeat constructor.
  - destruct (leb y x) eqn:E.
    + constructor; [exact Hs|]. now constructor.
    + inversion Hs as [|? ? Hs' Hhd]; subst.
      constructor; [now apply IH|].
      destruct l as [|z l]; simpl.
      * constructor. unfold desc.
        destruct (leb_total x y); [assumption | congruence].
      * destruct (leb z x).
        -- constructor. unfold desc.
           destruct (leb_total x y); [assumption | congruence].
        -- constructor. now inversion Hhd.
Qed.

Lemma sort_reverse_sorted l : Sorted (desc leb) (sort_reverse leb l).
Proof.
  induction l as [|x l IH]; simpl; [constructor|].
  now apply insert_desc_sorted.
Qed.

Lemma insert_asc_sorted x l :
  Sorted (asc leb) l → Sorted (asc leb) (insert_asc leb x l).
Proof.
  induction l as [|y l IH]; simpl; intros Hs.
  - repeat constructor.
  - destruct (leb x y) eqn:E.
    + constructor; [exact Hs|]. now constructor.
    + inversion Hs as [|? ? Hs' Hhd]; subst.
      constructor; [now apply IH|].
      destruct l as [|z l]; simpl.
      * constructor. unfold asc.
        destruct (leb_total x y); [congruence | assumption].
      * destruct (leb x z).
        -- constructor. unfold asc.
           destruct (leb_total x y); [congruence | assumption].
        -- constructor. now inversion Hhd.
Qed.

Lemma sorted_sorted l : Sorted (asc leb) (sorted leb l).
Proof.
  induction l as [|x l IH]; simpl; [constructor|].
  now apply insert_asc_sorted.
Qed.
End Sort.

(** Stability: the items of one key class stand in the order they had. *)
Section Stable.
Context {A : Type} (leb : A → A → bool) (same : A → A → bool).
Hypothesis same_leb :
  ∀ a x y, same a x = true → leb y x = false → same a y = false.

Lemma insert_desc_stable a x l :
  List.filter (same a) (insert_desc leb x l) = List.filter (same a) (x :: l).
Proof.
  induction l as [|y l IH]; [reflexivity|].
  cbn [insert_desc]. destruct (leb y x) eqn:E; [reflexivity|].
  cbn [List.filter] in *. rewrite IH.
  destruct (same a x) eqn:Ex; [|reflexivity].
  now rewrite (same_leb a x y Ex E).
Qed.

Lemma sort_reverse_stable a l :
  List.filter (same a) (sort_reverse leb l) = List.filter (same a) l.
Proof.
  induction l as [|x l IH]; [reflexivity|].
  cbn [sort_reverse]. rewrite insert_desc_stable.
  cbn [List.filter]. now rewrite IH.
Qed.
End Stable.

End SortFacts.

(** ** Claims about the matcher *)

Module MappingClaims.
Import PyStr Parser Mapping MatcherSpec PySort SortFacts.

Lemma char_upper_idemp c : char_upper (char_upper c) = char_upper c.
Proof. destruct c as [[] [] [] [] [] [] [] []]; reflexivity. Qed.

Lemma upper_idemp s : upper (upper s) = upper s.
Proof.
  induction s as [|c s IH]; simpl; [reflexivity|].
  now rewrite char_upper_idemp, IH.
Qed.

Lemma is_nil_true {A} (l : list A) : is_nil l = true ↔ l = [].
Proof. destruct l; simpl; split; congruence. Qed.

Lemma list_to_set_empty (l : list string) :
  (list_to_set l : gset string) = ∅ ↔ l = [].
Proof.
  split; [|now intros ->].
  destruct l as [|x l]; [reflexivity|]. intros He. exfalso.
  assert (Hx : x ∈ (list_to_set (x :: l) : gset string)).
  { apply elem_of_list_to_set. now left. }
  rewrite He in Hx. now apply not_elem_of_empty in Hx.
Qed.

Section Rule.
Context `{Runtime}.

Lemma _match_any_spec patterns value :
  _match_any patterns (upper value) = true ↔ some_match patterns value.
Proof.
  unfold _match_any, some_match. rewrite upper_idemp.
  destruct patterns as [|p ps].
  - split; [discriminate | intros (? & [] & _)].
  - rewrite existsb_exists. reflexivity.
Qed.

Lemma type_ok_spec rules o :
  let obj_types : gset string :=
    list_to_set (map upper (object_types rules)) in
  bool_decide (obj_types = ∅) || bool_decide (upper (obj_type o) ∈ obj_types)
  = true ↔ type_constraint rules o.
Proof.
  simpl. unfold type_constraint.
  rewrite orb_true_iff, !bool_decide_eq_true, list_to_set_empty,
    elem_of_list_to_set, list_elem_of_In.
  split; (intros [Hl|Hr]; [left | now right]).
  - now destruct (object_types rules).
  - now rewrite Hl.
Qed.

Lemma object_matches_spec rules o :
  object_matches rules o = true ↔ coded_rule rules o.
Proof.
  unfold object_matches, coded_rule, namespace_check, package_check.
  rewrite andb_true_iff, type_ok_spec, !orb_true_iff, !is_nil_true,
    !_match_any_spec.
  tauto.
Qed.

(** C1, amended. An object is in an entry's matched subset exactly
    when the type constraint holds and the namespace pattern set is
    empty, or the package pattern set is empty, or some namespace
    pattern matches the object's name, or some package pattern matches
    its package (matching is shell-style and ignores case). *)
Theorem matched_subset_rule (app : App) (objects : list Obj) (o : Obj) :
  In o (matched_subset app objects)
  ↔ In o objects ∧ coded_rule (match_rules app) o.
Proof.
  unfold matched_subset. rewrite filter_In, object_matches_spec.
  reflexivity.
Qed.
End Rule.

(** C1, as stated, fails: with package patterns only, an object whose
    package matches none of them is matched all the same. *)
Lemma stated_rule_fails :
  let rules := mkRules ["ZFI*"] [] [] in
  let app := mkApp "fi" None [] None rules in
  let o := mkObj "R3TR" "PROG" "ZHR_REPORT" (Some "ZHR") None
                 "R3TR PROG ZHR_REPORT" "R3TR:PROG:ZHR_REPORT" in
  In o (@matched_subset Demo.runtime app [o])
  ∧ ¬ @stated_rule Demo.runtime rules o.
Proof.
  split.
  - now left.
  - intros [_ Hchk]. destruct Hchk as [(p & [] & _) | (p & Hin & Hm)].
    + right. discriminate.
    + destruct Hin as [<- | []]. discriminate Hm.
Qed.

(** *** Order of the result *)

Lemma key_leb_spec x y :
  key_leb x y = true ↔
  (impact_score x < impact_score y)%Q
  ∨ (impact_score x == impact_score y ∧ (criticality x <= criticality y)%Z)%Q.
Proof.
  unfold key_leb.
  destruct (Qcompare_spec (impact_score x) (impact_score y)) as [E|E|E].
  - rewrite Z.leb_le. split; [now right|]. intros [Hl|[_ Hz]]; [lra | exact Hz].
  - split; [now left | reflexivity].
  - split; [discriminate|]. intros [Hl|[He _]]; lra.
Qed.

Lemma key_leb_false x y :
  key_leb x y = false ↔
  (impact_score y < impact_score x)%Q
  ∨ (impact_score x == impact_score y ∧ (criticality y < criticality x)%Z)%Q.
Proof.
  unfold key_leb.
  destruct (Qcompare_spec (impact_score x) (impact_score y)) as [E|E|E].
  - rewrite Z.leb_gt. split; [now right|]. intros [Hl|[_ Hz]]; [lra | exact Hz].
  - split; [discriminate|]. intros [Hl|[He _]]; lra.
  - split; [now left | reflexivity].
Qed.

Lemma key_leb_total x y : key_leb x y = true ∨ key_leb y x = true.
Proof.
  destruct (key_leb x y) eqn:E; [now left | right].
  apply key_leb_false in E. apply key_leb_spec.
  destruct E as [E|[E1 E2]]; [now left | right].
  split; [now symmetry | lia].
Qed.

Lemma key_leb_trans x y z :
  key_leb x y = true → key_leb y z = true → key_leb x z = true.
Proof.
  rewrite !key_leb_spec.
  intros [H1|[H1 H1']] [H2|[H2 H2']].
  - left. lra.
  - left. lra.
  - left. lra.
  - right. split; [lra | lia].
Qed.

Lemma key_eqb_leb a x y :
  key_eqb a x = true → key_leb y x = false → key_eqb a y = false.
Proof.
  unfold key_eqb. rewrite andb_true_iff, Qeq_bool_iff, Z.eqb_eq.
  intros [Hq Hz] Hlt. apply key_leb_false in Hlt.
  apply andb_false_iff.
  destruct Hlt as [Hlt|[He Hlt]].
  - left. apply not_true_is_false. rewrite Qeq_bool_iff. lra.
  - right. apply Z.eqb_neq. lia.
Qed.

Section Order.
Context `{Runtime}.

Lemma collect_spec objects apps :
  collect objects apps
  = map (fun app => summary app objects (matched_subset app objects))
        (List.filter
           (fun app => negb (is_nil (matched_subset app objects))) apps).
Proof.
  induction apps as [|app apps IH]; simpl; [reflexivity|].
  destruct (is_nil (matched_subset app objects)); simpl; now rewrite IH.
Qed.

Lemma matched_length app objects :
  length (matched_subset app objects) ≤ length objects.
Proof. unfold matched_subset. apply List.filter_length_le. Qed.

Lemma summary_bounds app objects :
  is_nil (matched_subset app objects) = false →
  let a := summary app objects (matched_subset app objects) in
  1 ≤ matched_objects a
  ∧ (0 < impact_score a)%Q ∧ (impact_score a <= 1)%Q.
Proof.
  intros Hne. simpl.
  destruct (matched_subset app objects) as [|o m] eqn:E; [discriminate|].
  split; [simpl; lia|]. split.
  - apply Q.min_glb_lt; [reflexivity|].
    unfold Qlt. simpl. lia.
  - apply Q.le_min_l.
Qed.

(** C8. Every returned ImpactedApp has at least one matched object
    and an impact score in (0, 1]; the list is in descending order of
    (impact_score, criticality), holds exactly the summaries of the
    catalog entries with a non-empty matched subset, and entries with
    equal keys stand in catalog order. *)
Theorem impacted_apps_sorted_bounded (objects : list Obj)
    (catalog : Catalog) :
  let found := collect objects (apps catalog) in
  let res := map_objects_to_apps objects catalog in
  Forall (fun a => 1 ≤ matched_objects a
                   ∧ (0 < impact_score a)%Q ∧ (impact_score a <= 1)%Q) res
  ∧ StronglySorted (desc key_leb) res
  ∧ Permutation found res
  ∧ (∀ a, List.filter (key_eqb a) res = List.filter (key_eqb a) found)
  ∧ found
    = map (fun app => summary app objects (matched_subset app objects))
          (List.filter
             (fun app => negb (is_nil (matched_subset app objects)))
             (apps catalog)).
Proof.
  intros found res. unfold res, map_objects_to_apps. fold found.
  assert (Hfound : found = _) by apply collect_spec.
  repeat split.
  - apply List.Forall_forall. intros a Ha.
    apply sort_reverse_In in Ha. rewrite Hfound in Ha.
    apply List.in_map_iff in Ha. destruct Ha as (app & <- & Happ).
    apply filter_In in Happ. destruct Happ as [_ Hne].
    apply negb_true_iff in Hne. now apply summary_bounds.
  - apply Sorted_StronglySorted.
    + intros x y z Hxy Hyz. unfold desc in *.
      now apply (key_leb_trans z y x).
    + apply sort_reverse_sorted, key_leb_total.
  - apply sort_reverse_perm.
  - intros a. apply sort_reverse_stable, key_eqb_leb.
  - exact Hfound.
Qed.
End Order.

End MappingClaims.

(** ** Claims about the overlap scan *)

Module DBClaims.
Import PyStr Parser DB PySort SortFacts.


Lemma NoDup_map_inj {A B} (f : A → B) (l : list A) x y :
  List.NoDup (map f l) → In x l → In y l → f x = f y → x = y.
Proof.
  induction l as [|a l IH]; simpl; [intros _ []|].
  intros Hnd Hx Hy Hf. inversion Hnd as [|? ? Hnotin Hnd']; subst.
  destruct Hx as [->|Hx], Hy as [->|Hy].
  - reflexivity.
  - exfalso. apply Hnotin. rewrite Hf. now apply in_map.
  - exfalso. apply Hnotin. rewrite <- Hf. now apply in_map.
  - now apply IH.
Qed.

Lemma shared_keys_length obj_set other_objs :
  length (shared_keys obj_set other_objs)
  = size (obj_set ∩ list_to_set (strings_of other_objs)).
Proof. unfold shared_keys. now rewrite sorted_length. Qed.

Lemma shared_keys_sorted obj_set other_objs :
  Sorted (asc String.leb) (shared_keys obj_set other_objs).
Proof. apply sorted_sorted, String.leb_total. Qed.

Lemma shared_keys_NoDup obj_set other_objs :
  List.NoDup (shared_keys obj_set other_objs).
Proof.
  unfold shared_keys.
  eapply Permutation_NoDup; [apply sorted_perm|].
  apply NoDup_ListNoDup, NoDup_elements.
Qed.

Lemma shared_keys_nil obj_set : shared_keys obj_set [] = [].
Proof.
  unfold shared_keys. simpl.
  assert (obj_set ∩ ∅ = ∅) as -> by apply intersection_empty_r_L.
  now rewrite elements_empty.
Qed.

Lemma In_firstn {A} n (l : list A) x : In x (firstn n l) → In x l.
Proof.
  revert n. induction l as [|y l IH]; intros [|n]; simpl; try tauto.
  intros [->|Hin]; [now left | right; eauto].
Qed.

Lemma NoDup_firstn {A} n (l : list A) :
  List.NoDup l → List.NoDup (firstn n l).
Proof.
  revert n. induction l as [|x l IH]; intros [|n] Hnd; simpl;
    try constructor; inversion Hnd; subst.
  - intros Hin. apply In_firstn in Hin. contradiction.
  - now apply IH.
Qed.

Section Scan.
Context `{Runtime}.

Lemma overlap_of_row_Some obj_set cutoff row rec :
  overlap_of_row obj_set cutoff row = Ok (Some rec) →
  recent (generated_at row) cutoff = Ok true
  ∧ ∃ other keys,
      json_loads (findings_json row) = Some other
      ∧ other_keys other = Ok keys
      ∧ shared_keys obj_set keys ≠ []
      ∧ rec = {| other_change_id := change_id row;
                 shared_object_count := length (shared_keys obj_set keys);
                 shared_objects := firstn 200 (shared_keys obj_set keys) |}.
Proof.
  unfold overlap_of_row.
  destruct (recent (generated_at row) cutoff) as [[|]|]; unfold_result;
    simpl; try discriminate.
  destruct (json_loads (findings_json row)) as [other|]; simpl;
    [|discriminate].
  destruct (other_keys other) as [keys|] eqn:Ek; [|discriminate].
  destruct (shared_keys obj_set keys) as [|k ks] eqn:E; simpl;
    [discriminate|].
  intros [= <-]. split; [reflexivity|].
  exists other, keys. rewrite E. repeat split; [exact Ek | discriminate].
Qed.

Lemma scan_In obj_set cutoff rows rec :
  In rec (scan obj_set cutoff rows) ↔
  ∃ row, In row rows ∧ overlap_of_row obj_set cutoff row = Ok (Some rec).
Proof.
  induction rows as [|row rows IH]; simpl.
  - split; [intros [] | intros (? & [] & _)].
  - destruct (overlap_of_row obj_set cutoff row) as [[r|]|e] eqn:E;
      simpl; rewrite ?IH; split.
    + intros [<-|(row' & Hin & Hr)]; [exists row | exists row']; auto.
    + intros (row' & [<-|Hin] & Hr); [left; congruence | right; eauto].
    + intros (row' & Hin & Hr); eauto.
    + intros (row' & [<-|Hin] & Hr); [congruence | eauto].
    + intros (row' & Hin & Hr); eauto.
    + intros (row' & [<-|Hin] & Hr); [congruence | eauto].
Qed.

Lemma scan_app obj_set cutoff rows1 rows2 :
  scan obj_set cutoff (rows1 ++ rows2)
  = scan obj_set cutoff rows1 ++ scan obj_set cutoff rows2.
Proof.
  induction rows1 as [|row rows1 IH]; simpl; [reflexivity|].
  destruct (overlap_of_row obj_set cutoff row) as [[r|]|e]; simpl;
    now rewrite IH.
Qed.

Lemma find_overlaps_In table now cid objects days rec :
  In rec (find_overlaps table now cid objects days) →
  ∃ row, In row table ∧ change_id row ≠ cid
         ∧ overlap_of_row (object_set objects)
             (now - days * us_per_day)%Z row = Ok (Some rec).
Proof.
  unfold find_overlaps. intros Hin.
  apply In_firstn, sort_reverse_In, scan_In in Hin.
  destruct Hin as (row & Hrow & Hr).
  unfold select_others in Hrow. apply filter_In in Hrow.
  destruct Hrow as [Hrow Hne]. apply negb_true_iff, String.eqb_neq in Hne.
  eauto.
Qed.

Lemma recent_old g t cutoff :
  fromisoformat g = Some (Aware t) → (t < cutoff)%Z →
  recent (Some g) cutoff = Ok false.
Proof.
  intros Hg Hlt. unfold recent.
  destruct (String.eqb_spec g "") as [->|Hne].
  - rewrite fromisoformat_empty in Hg. discriminate.
  - rewrite Hg. simpl. unfold_result.
    apply Z.ltb_lt in Hlt. now rewrite Hlt.
Qed.

(** C4. A stored change whose time stamp parses to a date before
    [now - window_days] is in no record of the result, whatever it
    shares with the current change ([change_id] is the key of the
    table). *)
Theorem old_change_excluded (table : list Row) (now : Z) (cid : string)
    (objects : list Obj) (window_days : Z) (row : Row) (g : string)
    (t : Z) :
  List.NoDup (map change_id table) →
  In row table →
  generated_at row = Some g →
  fromisoformat g = Some (Aware t) →
  (t < now - window_days * us_per_day)%Z →
  ¬ In (change_id row)
       (map other_change_id (find_overlaps table now cid objects window_days)).
Proof.
  intros Hnd Hrow Hgen Hg Hold Hin.
  apply List.in_map_iff in Hin. destruct Hin as (rec & Hid & Hin).
  apply find_overlaps_In in Hin.
  destruct Hin as (row' & Hrow' & _ & Hr).
  apply overlap_of_row_Some in Hr.
  destruct Hr as (Hrecent & other & keys & _ & _ & _ & ->).
  simpl in Hid.
  assert (row' = row) as -> by now apply (NoDup_map_inj change_id table).
  rewrite Hgen, (recent_old g t _ Hg Hold) in Hrecent. discriminate.
Qed.

Lemma find_overlaps_record table now cid objects days rec :
  In rec (find_overlaps table now cid objects days) →
  1 ≤ shared_object_count rec
  ∧ Sorted (asc String.leb) (shared_objects rec)
  ∧ List.NoDup (shared_objects rec)
  ∧ length (shared_objects rec) ≤ 200.
Proof.
  intros Hin. apply find_overlaps_In in Hin.
  destruct Hin as (row & _ & _ & Hr). apply overlap_of_row_Some in Hr.
  destruct Hr as (_ & other & keys & _ & _ & Hne & ->). simpl.
  repeat split.
  - destruct (shared_keys _ keys); [congruence | simpl; lia].
  - apply Sorted_firstn, shared_keys_sorted.
  - apply NoDup_firstn, shared_keys_NoDup.
  - apply firstn_le_length.
Qed.

(** Saving a change keeps [change_id] a key of the table. *)
Lemma save_change_keys table row :
  List.NoDup (map change_id table) →
  List.NoDup (map change_id (save_change table row)).
Proof.
  intros Hnd. unfold save_change. rewrite map_app. simpl.
  set (keep := fun r => negb (String.eqb (change_id r) (change_id row))).
  assert (Hkept : List.NoDup (map change_id (List.filter keep table))).
  { induction table as [|r table IH]; simpl; [constructor|].
    inversion Hnd as [|? ? Hnotin Hnd']; subst.
    destruct (keep r); [|now apply IH]. simpl.
    constructor; [|now apply IH].
    intros Hin. apply Hnotin. apply List.in_map_iff in Hin.
    destruct Hin as (r' & Hr' & Hin). apply filter_In in Hin.
    apply List.in_map_iff. exists r'. tauto. }
  apply List.NoDup_app; [exact Hkept | |].
  - constructor; [intros []|constructor].
  - intros k Hin [<-|[]]. apply List.in_map_iff in Hin.
    destruct Hin as (r' & Hr' & Hin). apply filter_In in Hin.
    destruct Hin as [_ Hkeep]. unfold keep in Hkeep.
    apply negb_true_iff, String.eqb_neq in Hkeep. congruence.
Qed.

Lemma count_leb_total x y : count_leb x y = true ∨ count_leb y x = true.
Proof.
  unfold count_leb.
  destruct (Nat.leb_spec (shared_object_count x) (shared_object_count y));
    [now left | right]. apply Nat.leb_le. lia.
Qed.

(** C6. Every record of the result shares at least one object; the
    result is in descending order of [shared_object_count] and has at
    most 25 records; each [shared_objects] list is sorted, without
    repetition, and has at most 200 keys. *)
Theorem find_overlaps_shape (table : list Row) (now : Z) (cid : string)
    (objects : list Obj) (window_days : Z) :
  let res := find_overlaps table now cid objects window_days in
  Forall (fun r => 1 ≤ shared_object_count r
                   ∧ Sorted (asc String.leb) (shared_objects r)
                   ∧ List.NoDup (shared_objects r)
                   ∧ length (shared_objects r) ≤ 200) res
  ∧ StronglySorted
      (fun a b => shared_object_count b ≤ shared_object_count a) res
  ∧ length res ≤ 25.
Proof.
  intros res. split; [|split].
  - apply List.Forall_forall. intros r Hr.
    now apply (find_overlaps_record table now cid objects window_days).
  - apply Sorted_StronglySorted; [intros x y z; lia|].
    unfold res, find_overlaps. apply Sorted_firstn.
    eapply Sorted_ind with
      (P := fun l => Sorted (fun a b => shared_object_count b
                                        ≤ shared_object_count a) l);
      [constructor | | apply (sort_reverse_sorted count_leb count_leb_total)].
    intros a l _ IH Hhd. constructor; [exact IH|].
    destruct Hhd as [|b l' Hab]; constructor.
    unfold desc, count_leb in Hab. now apply Nat.leb_le in Hab.
  - unfold res, find_overlaps. apply firstn_le_length.
Qed.

Lemma overlap_of_row_malformed obj_set cutoff row :
  malformed row →
  ∀ rec, overlap_of_row obj_set cutoff row ≠ Ok (Some rec).
Proof.
  unfold malformed. intros Hbad rec Hr.
  apply overlap_of_row_Some in Hr.
  destruct Hr as (_ & other & keys & Hj & Hk & Hne & _).
  rewrite Hj in Hbad.
  destruct other as [| | | | |kv]; try discriminate Hk.
  destruct Hbad as [Hrisks Hobjs].
  unfold other_keys, py_get, py_get_default in Hk.
  rewrite Hrisks, Hobjs in Hk. simpl in Hk. injection Hk as <-.
  apply Hne, shared_keys_nil.
Qed.

Lemma scan_malformed obj_set cutoff row rows :
  malformed row → scan obj_set cutoff (row :: rows) = scan obj_set cutoff rows.
Proof.
  intros Hbad. simpl.
  destruct (overlap_of_row obj_set cutoff row) as [[r|]|e] eqn:E;
    try reflexivity.
  exfalso. exact (overlap_of_row_malformed _ _ _ Hbad r E).
Qed.

(** C7. A malformed stored row is passed over: the result is the one
    computed from the other rows, and the query returns. *)
Theorem malformed_row_skipped (pre post : list Row) (bad : Row) (now : Z)
    (cid : string) (objects : list Obj) (window_days : Z) :
  malformed bad →
  find_overlaps (pre ++ bad :: post) now cid objects window_days
  = find_overlaps (pre ++ post) now cid objects window_days.
Proof.
  intros Hbad. unfold find_overlaps, select_others.
  rewrite !List.filter_app. simpl.
  destruct (negb (String.eqb (change_id bad) cid)); [|reflexivity].
  now rewrite !scan_app, (scan_malformed _ _ _ _ Hbad).
Qed.
End Scan.

End DBClaims.

(** ** The overlap scan on the example history *)

Module DBExamples.
Import Parser DB DBClaims.

Lemma old_change_excluded_witness :
  ¬ In "CHG-OLD"
      (map other_change_id
         (@find_overlaps Demo.runtime [Demo.old_row; Demo.new_row]
            Demo.clock "CHG-2" [Demo.prog "ZA"] 30)).
Proof.
  apply (@old_change_excluded Demo.runtime [Demo.old_row; Demo.new_row]
           Demo.clock "CHG-2" [Demo.prog "ZA"] 30 Demo.old_row
           "2024-01-01T00:00:00-05:00" 1704085200000000).
  - repeat constructor; simpl; intuition discriminate.
  - now left.
  - reflexivity.
  - reflexivity.
  - reflexivity.
Defined.

Lemma recent_change_reported :
  @find_overlaps Demo.runtime [Demo.old_row; Demo.new_row] Demo.clock
    "CHG-2" [Demo.prog "ZA"] 30
  = [mkOverlap "CHG-NEW" 1 ["R3TR:PROG:ZA"]].
Proof. vm_compute. reflexivity. Qed.

Lemma malformed_row_skipped_witness :
  @find_overlaps Demo.runtime ([Demo.old_row] ++ Demo.bad_row :: [Demo.new_row])
    Demo.clock "CHG-2" [Demo.prog "ZA"] 30
  = @find_overlaps Demo.runtime ([Demo.old_row] ++ [Demo.new_row])
      Demo.clock "CHG-2" [Demo.prog "ZA"] 30.
Proof.
  apply (@malformed_row_skipped Demo.runtime [Demo.old_row] [Demo.new_row]
           Demo.bad_row Demo.clock "CHG-2" [Demo.prog "ZA"] 30).
  exact I.
Defined.

Lemma big_overlap :
  ∃ rec,
    @find_overlaps Demo.runtime [Demo.big_row] Demo.clock "CHG-2"
      (Demo.many_objects 201) 30 = [rec]
    ∧ shared_object_count rec = 201
    ∧ length (shared_objects rec) = 200.
Proof.
  eexists. split; [vm_compute; reflexivity|]. split; reflexivity.
Qed.

(** C10. In every record of the result [shared_object_count] is the
    size of the whole intersection of the current change's keys with
    the stored change's keys, and [shared_objects] is the first 200 of
    the sorted intersection, so it is never longer than the count; the
    count itself is not capped (201 shared keys give a count of 201 and
    a list of 200). *)
Theorem shared_count_uncapped :
  (∀ (R : Runtime) (table : list Row) (now : Z) (cid : string)
     (objects : list Obj) (window_days : Z),
     Forall
       (fun rec =>
          ∃ row other keys,
            In row table ∧ change_id row ≠ cid
            ∧ other_change_id rec = change_id row
            ∧ json_loads (findings_json row) = Some other
            ∧ other_keys other = Ok keys
            ∧ let full := object_set objects ∩ list_to_set (strings_of keys) in
              shared_object_count rec = size full
              ∧ shared_objects rec
                = firstn 200 (PySort.sorted String.leb (elements full))
              ∧ length (shared_objects rec) ≤ shared_object_count rec)
       (find_overlaps table now cid objects window_days))
  ∧ (∃ (R : Runtime) table now cid objects window_days rec,
       In rec (find_overlaps table now cid objects window_days)
       ∧ shared_object_count rec = 201
       ∧ length (shared_objects rec) = 200).
Proof.
  split.
  - intros R table now cid objects days.
    apply List.Forall_forall. intros rec Hin.
    apply find_overlaps_In in Hin. destruct Hin as (row & Hrow & Hne & Hr).
    apply overlap_of_row_Some in Hr.
    destruct Hr as (_ & other & keys & Hj & Hk & _ & ->).
    exists row, other, keys. simpl.
    repeat split; try assumption.
    + apply shared_keys_length.
    + rewrite length_firstn. lia.
  - destruct big_overlap as (rec & Heq & Hc & Hl).
    exists Demo.runtime, [Demo.big_row], Demo.clock, "CHG-2",
      (Demo.many_objects 201), 30%Z, rec.
    rewrite Heq. repeat split; [now left | exact Hc | exact Hl].
Qed.

End DBExamples.

(** ** Rounding to the nearest double *)

Module FloatFacts.
Import PyFloat.
Local Open Scope Q_scope.

Lemma nearest_even_compat q q' : (q == q')%Q -> nearest_even q = nearest_even q'.
Proof.
  intros E. unfold nearest_even. rewrite (Qfloor_comp _ _ E).
  assert (Hc : Qcompare (q - inject_Z (Qfloor q')) (1 # 2)
               = Qcompare (q' - inject_Z (Qfloor q')) (1 # 2)).
  { apply Qcompare_comp; [now rewrite E | reflexivity]. }
  now rewrite Hc.
Qed.

Lemma nearest_even_cases q :
  nearest_even q = Qfloor q \/ nearest_even q = (Qfloor q + 1)%Z.
Proof.
  unfold nearest_even. destruct (Qcompare _ _); [destruct (Z.even _)| |]; auto.
Qed.

Lemma nearest_even_Z z : nearest_even (inject_Z z) = z.
Proof.
  unfold nearest_even. rewrite Qfloor_Z.
  assert (E : (inject_Z z - inject_Z z ?= 1 # 2)%Q = Lt).
  { apply (proj1 (Qlt_alt _ _)). generalize (inject_Z z). intros x. lra. }
  now rewrite E.
Qed.

Lemma nearest_even_mono q q' :
  (q <= q')%Q -> (nearest_even q <= nearest_even q')%Z.
Proof.
  intros Hle.
  assert (Hf : (Qfloor q <= Qfloor q')%Z) by now apply Qfloor_resp_le.
  destruct (Z.eq_dec (Qfloor q) (Qfloor q')) as [E|NE].
  - unfold nearest_even. rewrite <- E.
    destruct (Qcompare_spec (q - inject_Z (Qfloor q)) (1#2)) as [H1|H1|H1];
    destruct (Qcompare_spec (q' - inject_Z (Qfloor q)) (1#2)) as [H2|H2|H2];
      try destruct (Z.even _); try lia; lra.
  - destruct (nearest_even_cases q) as [-> | ->];
    destruct (nearest_even_cases q') as [-> | ->]; lia.
Qed.

Lemma nearest_even_ge a q : (inject_Z a <= q)%Q -> (a <= nearest_even q)%Z.
Proof.
  intros H. rewrite <- (nearest_even_Z a). now apply nearest_even_mono.
Qed.

Lemma nearest_even_le b q : (q <= inject_Z b)%Q -> (nearest_even q <= b)%Z.
Proof.
  intros H. rewrite <- (nearest_even_Z b). now apply nearest_even_mono.
Qed.

(** The nearest integer, and the even one of two. *)
Lemma nearest_even_near q :
  (Qabs (q - inject_Z (nearest_even q)) <= 1 # 2)%Q
  /\ (Qabs (q - inject_Z (nearest_even q)) == 1 # 2 ->
      Z.even (nearest_even q) = true)%Q.
Proof.
  assert (Hlo := Qfloor_le q). assert (Hhi := Qlt_floor q).
  rewrite inject_Z_plus in Hhi. change (inject_Z 1) with 1%Q in Hhi.
  unfold nearest_even.
  destruct (Qcompare_spec (q - inject_Z (Qfloor q)) (1#2)) as [H1|H1|H1].
  - destruct (Z.even (Qfloor q)) eqn:Ev.
    + split; [|now intros _]. apply Qabs_case; intros; lra.
    + split.
      * rewrite inject_Z_plus. change (inject_Z 1) with 1%Q.
        apply Qabs_case; intros; lra.
      * intros _. rewrite Z.even_add, Ev. reflexivity.
  - split; [apply Qabs_case; intros; lra|].
    intros E. revert E. apply Qabs_case; intros; lra.
  - rewrite inject_Z_plus. change (inject_Z 1) with 1%Q.
    split; [apply Qabs_case; intros; lra|].
    intros E. revert E. apply Qabs_case; intros; lra.
Qed.

(** An integer with these two properties is the rounded value. *)
Lemma nearest_even_unique q r :
  (Qabs (q - inject_Z r) <= 1 # 2)%Q ->
  ((Qabs (q - inject_Z r) == 1 # 2)%Q -> Z.even r = true) ->
  r = nearest_even q.
Proof.
  intros Hn He.
  destruct (nearest_even_near q) as [Hn' He'].
  generalize dependent (nearest_even q). intros m Hn' He'.
  assert (Hd : (-1 <= r - m <= 1)%Z).
  { assert (H : (inject_Z (-1) <= inject_Z (r - m) <= inject_Z 1)%Q).
    { unfold Zminus. rewrite inject_Z_plus, inject_Z_opp.
      change (inject_Z (-1)) with (-1)%Q. change (inject_Z 1) with 1%Q.
      revert Hn Hn'. apply Qabs_case; apply Qabs_case; intros; lra. }
    destruct H as [H1 H2]. rewrite <- Zle_Qle in H1, H2. lia. }
  destruct (Z.eq_dec r m) as [|NE]; [assumption|exfalso].
  assert (Ht : (Qabs (q - inject_Z r) == 1#2)%Q /\ (Qabs (q - inject_Z m) == 1#2)%Q).
  { assert (Hc : r = (m + 1)%Z \/ r = (m - 1)%Z) by lia.
    destruct Hc as [-> | ->]; revert Hn Hn';
      unfold Zminus; rewrite inject_Z_plus;
      [change (inject_Z 1) with 1%Q | change (inject_Z (- (1))) with (-1)%Q];
      apply Qabs_case; apply Qabs_case; intros; split; lra. }
  destruct Ht as [Ht1 Ht2]. apply He in Ht1. apply He' in Ht2.
  assert (Hc : r = (m + 1)%Z \/ r = (m - 1)%Z) by lia.
  destruct Hc as [-> | ->].
  - rewrite Z.even_add in Ht1. rewrite Ht2 in Ht1. discriminate.
  - rewrite Z.even_sub in Ht1. rewrite Ht2 in Ht1. discriminate.
Qed.

Lemma two_neq_0 : ~ (2 == 0)%Q.
Proof. discriminate. Qed.

Lemma pow2_pos e : (0 < pow2 e)%Q.
Proof. apply Qpower_0_lt. reflexivity. Qed.

Lemma pow2_plus a b : (pow2 (a + b) == pow2 a * pow2 b)%Q.
Proof. apply Qpower_plus, two_neq_0. Qed.

Lemma pow2_le a b : (a <= b)%Z -> (pow2 a <= pow2 b)%Q.
Proof. intros. apply Qpower_le_compat_l; [assumption | discriminate]. Qed.

Lemma pow2_lt_inv a b : (pow2 a < pow2 b)%Q -> (a < b)%Z.
Proof. intros. apply (Qpower_lt_compat_l_inv 2); [assumption | reflexivity]. Qed.

Lemma pow2_Z n : (0 <= n)%Z -> (pow2 n == inject_Z (2 ^ n))%Q.
Proof. intros. symmetry. now apply Zpower_Qpower. Qed.

Lemma Qabs_pos_eq q : (0 < q)%Q -> Qabs q = q.
Proof.
  destruct q as [[|n|n] d]; unfold Qlt; simpl; intros H;
    [lia | reflexivity | lia].
Qed.

Lemma log2_bounds n :
  (0 < n)%Z ->
  (pow2 (Z.log2 n) <= inject_Z n)%Q /\ (inject_Z n < pow2 (Z.log2 n + 1))%Q.
Proof.
  intros Hn. destruct (Z.log2_spec n Hn) as [H1 H2].
  assert (H0 := Z.log2_nonneg n).
  rewrite !pow2_Z by lia. rewrite <- Zle_Qle, <- Zlt_Qlt.
  split; [assumption|]. now rewrite Z.add_1_r.
Qed.

Lemma ilog2_spec q :
  (0 < q)%Q -> (pow2 (ilog2 q) <= q)%Q /\ (q < pow2 (ilog2 q + 1))%Q.
Proof.
  intros Hq. unfold ilog2.
  set (a := Z.log2 (Qnum q)). set (b := Z.log2 (Z.pos (Qden q))).
  assert (Hn : (0 < Qnum q)%Z).
  { destruct q as [n d]. unfold Qlt in Hq. simpl in *. lia. }
  destruct (log2_bounds _ Hn) as [Ha1 Ha2]. fold a in Ha1, Ha2.
  destruct (log2_bounds (Z.pos (Qden q)) eq_refl) as [Hb1 Hb2].
  fold b in Hb1, Hb2.
  assert (Hqd : (q * inject_Z (Z.pos (Qden q)) == inject_Z (Qnum q))%Q).
  { destruct q as [n d]. unfold Qeq, Qmult, inject_Z. simpl. lia. }
  set (N := inject_Z (Qnum q)) in *. set (D := inject_Z (Z.pos (Qden q))) in *.
  assert (HD : (0 < D)%Q) by reflexivity.
  assert (Hup : (q < pow2 (a - b + 1))%Q).
  { assert (E : (pow2 (a - b + 1) * pow2 b == pow2 (a + 1))%Q).
    { rewrite <- pow2_plus. now replace (a - b + 1 + b)%Z with (a + 1)%Z by lia. }
    assert (Hp := pow2_pos (a - b + 1)). assert (Hpb := pow2_pos b).
    clearbody N D.
    generalize dependent (pow2 (a - b + 1)). generalize dependent (pow2 b).
    generalize dependent (pow2 (a + 1)). generalize dependent (pow2 (b + 1)).
    generalize dependent (pow2 a). intros. nra. }
  assert (Hlo : (pow2 (a - b - 1) <= q)%Q).
  { assert (E : (pow2 (a - b - 1) * pow2 (b + 1) == pow2 a)%Q).
    { rewrite <- pow2_plus. now replace (a - b - 1 + (b + 1))%Z with a by lia. }
    assert (Hp := pow2_pos (a - b - 1)). assert (Hpb := pow2_pos (b + 1)).
    clearbody N D.
    generalize dependent (pow2 (a - b - 1)). generalize dependent (pow2 b).
    generalize dependent (pow2 (a + 1)). generalize dependent (pow2 (b + 1)).
    generalize dependent (pow2 a). intros. nra. }
  destruct (Qle_bool (pow2 (a - b)) q) eqn:E.
  - apply Qle_bool_iff in E. split; assumption.
  - assert (Hlt : (q < pow2 (a - b))%Q).
    { apply Qnot_le_lt. intros Hc. apply Qle_bool_iff in Hc. congruence. }
    replace (a - b - 1 + 1)%Z with (a - b)%Z by lia. split; assumption.
Qed.

Lemma ilog2_lt q k : (0 < q)%Q -> (q < pow2 k)%Q -> (ilog2 q < k)%Z.
Proof.
  intros Hq Hk. destruct (ilog2_spec q Hq) as [H1 _].
  apply pow2_lt_inv. eapply Qle_lt_trans; eassumption.
Qed.

Lemma ilog2_ge q k : (0 < q)%Q -> (pow2 k <= q)%Q -> (k <= ilog2 q)%Z.
Proof.
  intros Hq Hk. destruct (ilog2_spec q Hq) as [_ H2].
  assert (k < ilog2 q + 1)%Z; [|lia].
  apply pow2_lt_inv. eapply Qle_lt_trans; eassumption.
Qed.

Lemma ilog2_mono q1 q2 :
  (0 < q1)%Q -> (q1 <= q2)%Q -> (ilog2 q1 <= ilog2 q2)%Z.
Proof.
  intros H1 H12. apply ilog2_ge; [lra|].
  destruct (ilog2_spec q1 H1) as [H _]. lra.
Qed.

Lemma ulp_exp_pos q : (0 < q)%Q -> ulp_exp q = Z.max (-1074) (ilog2 q - 52).
Proof. intros H. unfold ulp_exp. now rewrite Qabs_pos_eq. Qed.

Lemma fl_pos q :
  (0 < q)%Q ->
  (fl q == inject_Z (nearest_even (q / pow2 (ulp_exp q))) * pow2 (ulp_exp q))%Q.
Proof.
  intros Hq. unfold fl.
  destruct (Qeq_bool q 0) eqn:E.
  - apply Qeq_bool_iff in E. lra.
  - apply Qred_correct.
Qed.

Lemma fl_0 : fl 0 = 0%Q.
Proof. reflexivity. Qed.

Lemma fl_nonneg q : (0 <= q)%Q -> (0 <= fl q)%Q.
Proof.
  intros Hq. destruct (Qlt_le_dec 0 q) as [Hp|Hz].
  - rewrite (fl_pos q Hp).
    assert (Hpow := pow2_pos (ulp_exp q)).
    apply Qmult_le_0_compat; [|lra].
    change 0%Q with (inject_Z 0). rewrite <- Zle_Qle.
    apply nearest_even_ge. change (inject_Z 0) with 0%Q.
    apply Qle_shift_div_l; lra.
  - assert (E : (q == 0)%Q) by lra. unfold fl.
    apply Qeq_bool_iff in E. rewrite E. lra.
Qed.

(** Rounding keeps the order. *)
Lemma fl_mono q1 q2 : (0 <= q1)%Q -> (q1 <= q2)%Q -> (fl q1 <= fl q2)%Q.
Proof.
  intros H0 H12. destruct (Qlt_le_dec 0 q1) as [Hp|Hz].
  2:{ assert (E : (q1 == 0)%Q) by lra. unfold fl at 1.
      apply Qeq_bool_iff in E. rewrite E. apply fl_nonneg. lra. }
  assert (Hp2 : (0 < q2)%Q) by lra.
  rewrite (fl_pos q1 Hp), (fl_pos q2 Hp2).
  rewrite (ulp_exp_pos q1 Hp), (ulp_exp_pos q2 Hp2).
  assert (Hl := ilog2_mono q1 q2 Hp H12).
  set (l1 := ilog2 q1) in *. set (l2 := ilog2 q2) in *.
  set (e1 := Z.max (-1074) (l1 - 52)). set (e2 := Z.max (-1074) (l2 - 52)).
  assert (He : (e1 <= e2)%Z) by (unfold e1, e2; lia).
  assert (Hpe1 := pow2_pos e1). assert (Hpe2 := pow2_pos e2).
  destruct (Z.eq_dec e1 e2) as [E|NE].
  - rewrite <- E. apply Qmult_le_compat_r; [|lra].
    rewrite <- Zle_Qle. apply nearest_even_mono.
    apply Qmult_le_compat_r; [assumption|].
    apply Qlt_le_weak, Qinv_lt_0_compat. assumption.
  - assert (He2 : e2 = (l2 - 52)%Z) by (unfold e1, e2 in *; lia).
    assert (Hm2 : (2 ^ 52 <= nearest_even (q2 / pow2 e2))%Z).
    { apply nearest_even_ge. apply Qle_shift_div_l; [assumption|].
      rewrite <- (pow2_Z 52) by lia. rewrite <- pow2_plus.
      replace (52 + e2)%Z with l2 by lia.
      apply (ilog2_spec q2 Hp2). }
    assert (Hm1 : (nearest_even (q1 / pow2 e1) <= 2 ^ 53)%Z).
    { apply nearest_even_le. apply Qle_shift_div_r; [assumption|].
      rewrite <- (pow2_Z 53) by lia. rewrite <- pow2_plus.
      apply Qle_trans with (pow2 (l1 + 1)).
      - apply Qlt_le_weak, (ilog2_spec q1 Hp).
      - apply pow2_le. unfold e1. lia. }
    apply Qle_trans with (pow2 (53 + e1)).
    + rewrite pow2_plus, (pow2_Z 53) by lia.
      apply Qmult_le_compat_r; [|lra]. now rewrite <- Zle_Qle.
    + apply Qle_trans with (pow2 (52 + e2)).
      * apply pow2_le. lia.
      * rewrite pow2_plus, (pow2_Z 52) by lia.
        apply Qmult_le_compat_r; [|lra]. now rewrite <- Zle_Qle.
Qed.

Lemma Qred_inject_Z z : Qred (inject_Z z) = inject_Z z.
Proof.
  unfold Qred, inject_Z.
  generalize (Z.ggcd_gcd z 1) (Z.ggcd_correct_divisors z 1).
  destruct (Z.ggcd z 1) as (g, (a, b)). simpl. intros Hg [Ha Hb].
  rewrite Z.gcd_1_r in Hg. subst g.
  f_equal; [lia|]. replace b with 1%Z by lia. reflexivity.
Qed.

(** Integers below 2^53 are doubles. *)
Lemma fl_int z : (0 <= z < 2 ^ 53)%Z -> fl (inject_Z z) = inject_Z z.
Proof.
  intros [H0 H53]. destruct (Z.eq_dec z 0%Z) as [->|NZ]; [reflexivity|].
  assert (Hp : (0 < inject_Z z)%Q).
  { change 0%Q with (inject_Z 0). rewrite <- Zlt_Qlt. lia. }
  assert (E : (fl (inject_Z z) == inject_Z z)%Q).
  { rewrite (fl_pos _ Hp), (ulp_exp_pos _ Hp).
    set (e := Z.max (-1074) (ilog2 (inject_Z z) - 52)).
    assert (He : (e <= 0)%Z).
    { assert (ilog2 (inject_Z z) < 53)%Z; [|unfold e; lia].
      apply ilog2_lt; [assumption|].
      rewrite pow2_Z by lia. now rewrite <- Zlt_Qlt. }
    assert (Hs : (inject_Z z / pow2 e == inject_Z (z * 2 ^ (- e)))%Q).
    { rewrite inject_Z_mult, <- (pow2_Z (- e)) by lia.
      unfold pow2. rewrite Qpower_opp. reflexivity. }
    rewrite (nearest_even_compat _ _ Hs), nearest_even_Z.
    rewrite inject_Z_mult, <- (pow2_Z (- e)) by lia.
    rewrite <- Qmult_assoc, <- pow2_plus.
    replace (- e + e)%Z with 0%Z by lia. unfold pow2. simpl. ring. }
  unfold fl in *. destruct (Qeq_bool (inject_Z z) 0) eqn:Eb.
  - apply Qeq_bool_iff in Eb. lra.
  - transitivity (Qred (inject_Z z)); [|apply Qred_inject_Z].
    apply Qred_complete.
    etransitivity; [symmetry; apply Qred_correct | exact E].
Qed.

(** A bound that is an integer below 2^53 survives the rounding. *)
Lemma fl_ge z q : (0 <= z < 2 ^ 53)%Z -> inject_Z z <= q -> inject_Z z <= fl q.
Proof.
  intros Hz Hq. rewrite <- (fl_int z Hz). apply fl_mono; [|assumption].
  change 0 with (inject_Z 0). rewrite <- Zle_Qle. lia.
Qed.

Lemma of_int_small z : (0 <= z < 2 ^ 53)%Z -> of_int z = inject_Z z.
Proof. apply fl_int. Qed.

Lemma fadd_nonneg x y : 0 <= x -> 0 <= y -> 0 <= fadd x y.
Proof. intros. apply fl_nonneg. lra. Qed.

Lemma fmul_nonneg x y : 0 <= x -> 0 <= y -> 0 <= fmul x y.
Proof. intros. apply fl_nonneg. now apply Qmult_le_0_compat. Qed.

Lemma fdiv_nonneg x y : 0 <= x -> 0 <= y -> 0 <= fdiv x y.
Proof.
  intros. apply fl_nonneg. apply Qmult_le_0_compat; [assumption|].
  now apply Qinv_le_0_compat.
Qed.

Lemma fadd_mono x y x' y' :
  0 <= x -> 0 <= y -> x <= x' -> y <= y' -> fadd x y <= fadd x' y'.
Proof. intros. apply fl_mono; lra. Qed.

Lemma fmul_mono x y x' y' :
  0 <= x -> 0 <= y -> x <= x' -> y <= y' -> fmul x y <= fmul x' y'.
Proof.
  intros. apply fl_mono; [now apply Qmult_le_0_compat|].
  apply Qle_trans with (x * y').
  - rewrite !(Qmult_comm x). apply Qmult_le_compat_r; assumption.
  - apply Qmult_le_compat_r; lra.
Qed.

Lemma fdiv_mono x x' y :
  0 <= x -> 0 < y -> x <= x' -> fdiv x y <= fdiv x' y.
Proof.
  intros. assert (0 < / y) by now apply Qinv_lt_0_compat.
  apply fl_mono.
  - apply Qmult_le_0_compat; lra.
  - apply Qmult_le_compat_r; lra.
Qed.

Lemma fsum_from_nonneg l :
  Forall (fun p => 0 <= p) l -> forall t0, 0 <= t0 -> 0 <= fold_left fadd l t0.
Proof.
  induction 1 as [|p l Hp _ IH]; intros t0 Ht; simpl; [assumption|].
  apply IH. now apply fadd_nonneg.
Qed.

(** As long as the sums stay below 2^53, a list of [n] items of at
    least [c] adds up to at least [c * n]. *)
Lemma fsum_from_ge (c : Z) l :
  (0 <= c)%Z ->
  Forall (fun p => inject_Z c <= p) l ->
  forall (k : Z) t0,
    (0 <= k)%Z ->
    (c * (k + Z.of_nat (length l)) < 2 ^ 53)%Z ->
    inject_Z (c * k) <= t0 ->
    inject_Z (c * (k + Z.of_nat (length l))) <= fold_left fadd l t0.
Proof.
  intros Hc. induction 1 as [|p l Hp _ IH]; intros k t0 Hk Hlt Ht.
  - simpl. now rewrite Z.add_0_r.
  - cbn [fold_left length] in *. rewrite Nat2Z.inj_succ in *.
    replace (k + Z.succ (Z.of_nat (length l)))%Z
      with (k + 1 + Z.of_nat (length l))%Z in * by lia.
    apply IH; [lia | assumption |].
    apply fl_ge; [nia|].
    rewrite Z.mul_add_distr_l, Z.mul_1_r, inject_Z_plus. lra.
Qed.

End FloatFacts.

(** ** Claims about the scorer *)

Module ScoringClaims.
Import PyStr Parser PyFloat Scoring FloatFacts.

Lemma py_round_compat q q' : (q == q')%Q → py_round q = py_round q'.
Proof. apply nearest_even_compat. Qed.

Lemma py_round_nonneg q : (0 <= q)%Q → (0 <= py_round q)%Z.
Proof. intros Hq. now apply nearest_even_ge. Qed.

Lemma base_points_min otype : (3 <= base_points otype)%Z.
Proof.
  unfold base_points, BASE_POINTS. simpl.
  repeat (destruct (String.eqb otype _); [simpl; lia|]).
  simpl. lia.
Qed.

Lemma base_points_max otype : (base_points otype <= 10)%Z.
Proof.
  unfold base_points, BASE_POINTS. simpl.
  repeat (destruct (String.eqb otype _); [simpl; lia|]).
  simpl. lia.
Qed.

(** The bonus is 2, 5 or 9. *)
Lemma overlap_bonus_cases n bonus why :
  overlap_bonus n = Some (bonus, why) →
  of_int bonus = inject_Z bonus ∧ (2 <= bonus <= 9)%Z.
Proof.
  destruct n as [|[|[|n]]]; simpl; intros [= <- _]; split;
    first [reflexivity | lia].
Qed.

(** The factor 1.3 is the double next to 13/10, a little above it. *)
Lemma critical_factor : (1 <= literal (13 # 10))%Q.
Proof. apply Qle_bool_iff. vm_compute. reflexivity. Qed.

(** No step of the loop takes the points below the base. *)
Lemma object_points_base counts critical napps o :
  (inject_Z (base_points (upper (obj_type o)))
   <= fst (object_points counts critical napps o))%Q.
Proof.
  unfold object_points.
  assert (Hlo := base_points_min (upper (obj_type o))).
  assert (Hhi := base_points_max (upper (obj_type o))).
  set (b := base_points (upper (obj_type o))) in *.
  assert (Hb : (0 <= b < 2 ^ 53)%Z) by lia.
  assert (Hq : (3 <= inject_Z b)%Q).
  { change 3%Q with (inject_Z 3). now rewrite <- Zle_Qle. }
  rewrite (of_int_small b Hb).
  assert (H1 : (inject_Z b <= fmul (inject_Z b) (literal (13 # 10)))%Q).
  { apply fl_ge; [exact Hb|]. assert (Hc := critical_factor).
    generalize dependent (literal (13 # 10)). intros c Hc. nra. }
  assert (H2 : ∀ p z, (inject_Z b <= p)%Q → (0 <= inject_Z z)%Q →
                      (inject_Z b <= fadd p (inject_Z z))%Q).
  { intros p z Hp Hz. apply fl_ge; [exact Hb | lra]. }
  assert (H22 : of_int 2 = inject_Z 2) by reflexivity.
  destruct (overlap_bonus _) as [[bonus why]|] eqn:E;
    [destruct (overlap_bonus_cases _ _ _ E) as [-> Hbonus];
     assert (Hz : (0 <= inject_Z bonus)%Q)
       by (change 0%Q with (inject_Z 0); rewrite <- Zle_Qle; lia)|];
    destruct (bool_decide _); destruct (_ && _); cbn [fst];
    rewrite ?H22;
    repeat first [ apply H2; [|first [exact Hz | discriminate]]
                 | exact H1 | apply Qle_refl ].
Qed.

Lemma object_points_nonneg counts critical napps o :
  (0 <= fst (object_points counts critical napps o))%Q.
Proof.
  assert (Hb := object_points_base counts critical napps o).
  assert (Hm := base_points_min (upper (obj_type o))).
  rewrite Zle_Qle in Hm. change (inject_Z 3) with 3%Q in Hm. lra.
Qed.

(** The loop adds up the points of the objects, one after the other. *)
Lemma score_objects_total counts critical napps objects :
  fst (score_objects counts critical napps objects)
  = fsum (map (fun o => fst (object_points counts critical napps o)) objects).
Proof.
  unfold score_objects, fsum.
  assert (Hgen : ∀ t0 r0,
    fst (fold_left
           (fun '(total_points, object_risks) o =>
              let '(points, reasons) :=
                object_points counts critical napps o in
              (fadd total_points points,
               object_risks ++ [{| risk_key := normalized_key o;
                                   risk_points := py_round points;
                                   reasons := reasons |}]))
           objects (t0, r0))
    = fold_left fadd
        (map (fun o => fst (object_points counts critical napps o)) objects)
        t0).
  { induction objects as [|o objects IH]; intros t0 r0; simpl; [reflexivity|].
    destruct (object_points counts critical napps o) as [points reasons].
    now rewrite IH. }
  apply Hgen.
Qed.

Lemma scaled_average_nonneg total count :
  (0 <= total)%Q → (0 <= scaled_average total count)%Q.
Proof.
  intros Ht. unfold scaled_average.
  apply fmul_nonneg; [apply fmul_nonneg; [apply fdiv_nonneg|]|].
  - exact Ht.
  - apply fl_nonneg. change 0%Q with (inject_Z 0). rewrite <- Zle_Qle. lia.
  - apply Qle_bool_iff. vm_compute. reflexivity.
  - apply Qle_bool_iff. vm_compute. reflexivity.
Qed.

(** On the five objects of the examples the value that is rounded is
    the one the operations of [SpecFloat] give; it is above 74.5, which
    exact arithmetic would give. *)
Lemma five_objects_value (R : Runtime) now days :
  let points :=
    map (raw_points [] now "C" DemoMore.five_objects [DemoMore.critical_app]
           days) DemoMore.five_objects in
  scaled_average (fsum points) 5 = of_spec_float DemoMore.five_objects_ieee
  ∧ (149 # 2 < scaled_average (fsum points) 5)%Q
  ∧ (Qabs (scaled_average (fsum points) 5 - (149 # 2)) < 1 # 1000000000)%Q.
Proof.
  repeat split; vm_compute; reflexivity.
Qed.

Lemma risk_level_bands s :
  (_risk_level s = "High" ↔ (75 <= s)%Z)
  ∧ (_risk_level s = "Medium" ↔ (40 <= s < 75)%Z)
  ∧ (_risk_level s = "Low" ↔ (s < 40)%Z).
Proof.
  unfold _risk_level.
  destruct (Z.leb_spec 75 s); [|destruct (Z.leb_spec 40 s)];
    repeat split; intros; try discriminate; try lia; reflexivity.
Qed.

Section Score.
Context `{Runtime}.

(** C3. With [x] the value of
    (sum of the objects' raw points / max(1, object count)) * 1.25 * 10
    in the arithmetic of the program (doubles, the sum taken from 0.0
    in the order of the objects), the aggregate score is the integer
    nearest to [x], the even one of two, capped at 100; it lies between
    0 and 100; and the level is High from 75, Medium from 40 to 74 and
    Low below 40.  The arithmetic matters: the change of five objects
    of the examples comes to 74.5 in exact arithmetic and to
    74.50000000000001 in doubles, and scores 75. *)
Theorem risk_score_formula (table : list DB.Row) (now : Z) (stamp : string)
    (change_id : string) (objects : list Obj)
    (impacted_apps : list Mapping.ImpactedApp) (window_days : Z) :
  let f := score_change table now stamp change_id objects impacted_apps
             window_days in
  let points :=
    map (raw_points table now change_id objects impacted_apps window_days)
        objects in
  let s := risk_score (summary f) in
  let x :=
    fmul (fmul (fdiv (fsum points)
                     (of_int (Z.of_nat (Nat.max 1 (length objects)))))
               (literal (125 # 100)))
         (of_int 10) in
  (∃ r : Z, s = Z.min 100 r
            ∧ (Qabs (x - inject_Z r) <= 1 # 2)%Q
            ∧ ((Qabs (x - inject_Z r) == 1 # 2)%Q → Z.even r = true))
  ∧ (0 <= s <= 100)%Z
  ∧ (risk_level (summary f) = "High" ↔ (75 <= s)%Z)
  ∧ (risk_level (summary f) = "Medium" ↔ (40 <= s < 75)%Z)
  ∧ (risk_level (summary f) = "Low" ↔ (s < 40)%Z)
  ∧ risk_score
      (summary (score_change [] now stamp change_id DemoMore.five_objects
                  [DemoMore.critical_app] window_days)) = 75%Z.
Proof.
  intros f points s x.
  set (overlaps := DB.find_overlaps table now change_id objects window_days).
  set (counts := overlap_counts overlaps).
  set (critical := critical_object_set impacted_apps).
  set (napps := length impacted_apps).
  assert (Htotal := score_objects_total counts critical napps objects).
  fold (raw_points table now change_id objects impacted_apps window_days)
    in Htotal. fold points in Htotal.
  assert (Hs : s = Z.min 100 (py_round x)).
  { unfold s, f, score_change.
    fold overlaps counts critical napps.
    destruct (score_objects counts critical napps objects)
      as [total_points object_risks].
    simpl in Htotal. subst total_points. reflexivity. }
  assert (Hlevel : risk_level (summary f) = _risk_level s).
  { unfold s, f, score_change.
    destruct (score_objects _ _ _ objects). reflexivity. }
  assert (Hx : (0 <= x)%Q).
  { apply (scaled_average_nonneg (fsum points) (Nat.max 1 (length objects))).
    apply fsum_from_nonneg; [|apply Qle_refl].
    apply List.Forall_forall. intros q Hq.
    apply List.in_map_iff in Hq. destruct Hq as (o & <- & _).
    apply object_points_nonneg. }
  rewrite Hlevel. split; [|split; [|split; [|split; [|split]]]];
    try apply risk_level_bands.
  - exists (py_round x). split; [exact Hs|].
    apply (nearest_even_near x).
  - rewrite Hs. split; [|apply Z.le_min_l].
    apply Z.min_glb; [lia|]. now apply py_round_nonneg.
  - vm_compute. reflexivity.
Qed.
End Score.

(** C9. The two-line text parses to exactly two Objects with the keys
    [R3TR:PROG:ZFI_POSTING_REPORT] and [R3TR:CMOD:ZFI_EXIT_001]; their
    base points are 6 and 8, which without any bonus are their risk
    points; a type outside the table has base 3. *)
Theorem scenario_prog_cmod :
  (∃ o1 o2,
     parse_abap_object_text Demo.scenario_text = Ok [o1; o2]
     ∧ normalized_key o1 = "R3TR:PROG:ZFI_POSTING_REPORT"
     ∧ normalized_key o2 = "R3TR:CMOD:ZFI_EXIT_001"
     ∧ base_points (upper (obj_type o1)) = 6%Z
     ∧ base_points (upper (obj_type o2)) = 8%Z
     ∧ fst (object_points ∅ ∅ 0 o1) = 6%Q
     ∧ fst (object_points ∅ ∅ 0 o2) = 8%Q
     ∧ ∀ (R : Runtime) now stamp cid days,
         map (fun r => (risk_key r, risk_points r))
             (object_risks (score_change [] now stamp cid [o1; o2] [] days))
         = [("R3TR:CMOD:ZFI_EXIT_001", 8%Z);
            ("R3TR:PROG:ZFI_POSTING_REPORT", 6%Z)])
  ∧ (∀ otype, In otype (map fst BASE_POINTS) ∨ base_points otype = 3%Z).
Proof.
  split.
  - do 2 eexists. split; [vm_compute; reflexivity|].
    repeat split; try (vm_compute; reflexivity).
  - intros otype. unfold base_points.
    destruct (assoc otype BASE_POINTS) eqn:E; [left | now right].
    destruct (in_dec string_dec otype (map fst BASE_POINTS)) as [Hin|Hin];
      [exact Hin|].
    apply DictFacts.assoc_None_keys in Hin. congruence.
Qed.

End ScoringClaims.

(** ** More about the parsers *)

Module ParserMore.
Import PyStr Parser DictFacts Modes ParserFacts ParserNotions.

Lemma in_strs_In k l : in_strs k l = true ↔ In k l.
Proof.
  unfold in_strs. rewrite existsb_exists. split.
  - intros (x & Hin & Heq). apply String.eqb_eq in Heq. now subst.
  - intros Hin. exists k. split; [exact Hin | apply String.eqb_refl].
Qed.

Lemma dict_set_key_order {V} (d : dict V) k v :
  map fst (dict_set d k v)
  = if in_strs k (map fst d) then map fst d else map fst d ++ [k].
Proof.
  induction d as [|[k' v'] d IH]; simpl; [reflexivity|].
  destruct (String.eqb k k') eqn:E; simpl.
  - apply String.eqb_eq in E. now subst.
  - rewrite IH. now destruct (in_strs k (map fst d)).
Qed.

Lemma store_all_key_order (d : dict Obj) cands :
  map fst (store_all d cands)
  = map fst d ++ first_occurrences (map fst d) (map normalized_key cands).
Proof.
  revert d. induction cands as [|o cands IH]; intros d; simpl.
  - now rewrite app_nil_r.
  - change (store_all d (o :: cands)) with (store_all (store d o) cands).
    rewrite IH. unfold store. rewrite dict_set_key_order.
    destruct (in_strs (normalized_key o) (map fst d)); [reflexivity|].
    now rewrite <- app_assoc.
Qed.

Lemma values_keys cands :
  map normalized_key (dict_values (store_all [] cands))
  = map fst (store_all [] cands).
Proof.
  destruct (store_all_keys cands) as (_ & Hkey & _).
  unfold dict_values. rewrite map_map. apply map_ext_in.
  intros [k v] Hin. simpl. symmetry. now apply Hkey.
Qed.

(** *** Upper case and white space *)

Lemma upper_list s :
  list_ascii_of_string (upper s) = map char_upper (list_ascii_of_string s).
Proof. induction s as [|c s IH]; simpl; [reflexivity | now rewrite IH]. Qed.

Lemma upper_of_list l :
  upper (string_of_list_ascii l) = string_of_list_ascii (map char_upper l).
Proof. induction l as [|c l IH]; simpl; [reflexivity | now rewrite IH]. Qed.

Lemma isspace_upper c : isspace (char_upper c) = isspace c.
Proof. destruct c as [[] [] [] [] [] [] [] []]; reflexivity. Qed.

Lemma char_upper_twice c : char_upper (char_upper c) = char_upper c.
Proof. destruct c as [[] [] [] [] [] [] [] []]; reflexivity. Qed.

Lemma upper_twice s : upper (upper s) = upper s.
Proof.
  induction s as [|c s IH]; simpl; [reflexivity|].
  now rewrite char_upper_twice, IH.
Qed.

Lemma lstrip_upper l : lstrip (map char_upper l) = map char_upper (lstrip l).
Proof.
  induction l as [|c l IH]; simpl; [reflexivity|].
  rewrite isspace_upper. now destruct (isspace c).
Qed.

Lemma strip_upper s : strip (upper s) = upper (strip s).
Proof.
  unfold strip.
  now rewrite upper_list, lstrip_upper, <- map_rev, lstrip_upper, <- map_rev,
    upper_of_list.
Qed.

Lemma lstrip_twice l : lstrip (lstrip l) = lstrip l.
Proof.
  induction l as [|c l IH]; simpl; [reflexivity|].
  destruct (isspace c) eqn:E; [exact IH|]. simpl. now rewrite E.
Qed.

Lemma lstrip_app_nonspace a c b :
  isspace c = false → lstrip (a ++ c :: b) = lstrip a ++ c :: b.
Proof.
  intros Hc. induction a as [|x a IH]; simpl.
  - now rewrite Hc.
  - destruct (isspace x); [exact IH | reflexivity].
Qed.

(** The list [strip] leaves begins and ends with no white space. *)
Lemma strip_list_fixed l :
  let r := rev (lstrip (rev (lstrip l))) in
  lstrip r = r ∧ lstrip (rev r) = rev r.
Proof.
  simpl. split.
  - destruct (lstrip l) as [|c m] eqn:E; [reflexivity|].
    assert (Hc := lstrip_head _ _ _ E).
    simpl. rewrite (lstrip_app_nonspace (rev m) c [] Hc).
    rewrite rev_app_distr. simpl. now rewrite Hc.
  - rewrite rev_involutive. apply lstrip_twice.
Qed.

Lemma strip_twice s : strip (strip s) = strip s.
Proof.
  unfold strip. rewrite list_ascii_of_string_of_list_ascii.
  destruct (strip_list_fixed (list_ascii_of_string s)) as [H1 H2].
  simpl in H1, H2. rewrite H1, H2. now rewrite rev_involutive.
Qed.

Lemma normal_upper_strip t : normal (upper (strip t)).
Proof.
  unfold normal. split; [apply upper_twice|].
  now rewrite strip_upper, strip_twice.
Qed.

Lemma _norm_normal v s : _norm v = Ok s → normal s.
Proof.
  unfold _norm. destruct (py_or v (PStr "")); try discriminate.
  intros [= <-]. apply normal_upper_strip.
Qed.

Lemma norm_opt_normal v r :
  norm_opt v = Ok r → match r with Some p => normal p | None => True end.
Proof.
  unfold norm_opt. destruct (truthy v); unfold_result.
  - destruct (_norm v) as [s|] eqn:E; [|discriminate].
    intros [= <-]. now apply (_norm_normal v).
  - now intros [= <-].
Qed.

Lemma _make_obj_canonical c t n r p k o :
  _make_obj c t n r p k = Ok o → canonical o.
Proof.
  unfold _make_obj.
  destruct (_norm c) as [c'|] eqn:Ec; unfold_result; [|discriminate].
  destruct (_norm t) as [t'|] eqn:Et; [|discriminate].
  destruct (_norm n) as [n'|] eqn:En; [|discriminate].
  destruct (norm_opt p) as [p'|] eqn:Ep; [|discriminate].
  destruct (norm_opt k) as [k'|] eqn:Ek; [|discriminate].
  intros [= <-]. unfold canonical. simpl.
  split; [reflexivity|].
  split; [now apply (_norm_normal c)|].
  split; [now apply (_norm_normal t)|].
  split; [now apply (_norm_normal n)|].
  split; [now apply (norm_opt_normal p)|].
  split; [now apply (norm_opt_normal k)|].
  destruct (String.eqb r ""); [reflexivity | apply strip_twice].
Qed.

Ltac from_make_obj :=
  repeat match goal with
         | |- context [if ?b then _ else _] => destruct b
         | |- context [match ?x with Some _ => _ | None => _ end] =>
             destruct x as [[[? ?] ?]|]
         end;
  unfold_result; try discriminate;
  match goal with
  | |- context [_make_obj ?c ?t ?n ?r ?p ?k] =>
      let E := fresh "E" in
      destruct (_make_obj c t n r p k) eqn:E; [|discriminate];
      intros [= <-]; exact (_make_obj_canonical _ _ _ _ _ _ _ E)
  end.

Lemma line_object_canonical line o :
  line_object line = Ok (Some o) → canonical o.
Proof.
  unfold line_object. rewrite !_norm_PStr. unfold_result.
  cbn [andb]. from_make_obj.
Qed.

Section Modes.
Context `{Runtime}.

Lemma csv_object_canonical row o : csv_object row = Ok (Some o) → canonical o.
Proof. unfold csv_object. from_make_obj. Qed.

Lemma json_object_canonical o0 o : json_object o0 = Ok (Some o) → canonical o.
Proof.
  unfold json_object. destruct o0; simpl; unfold_result; try discriminate.
  from_make_obj.
Qed.

Lemma produced_In {A} (f : A → result (option Obj)) records o :
  In o (produced f records) → ∃ r, In r records ∧ f r = Ok (Some o).
Proof.
  unfold produced. rewrite in_flat_map. intros (r & Hr & Hin).
  exists r. split; [exact Hr|].
  destruct (f r) as [[o'|]|]; simpl in Hin; try contradiction.
  destruct Hin as [->|[]]. reflexivity.
Qed.

Lemma candidates_canonical m input :
  Forall canonical (candidates m input).
Proof.
  apply List.Forall_forall. intros o Hin. destruct m; simpl in Hin.
  - apply produced_In in Hin. destruct Hin as (l & _ & Hl).
    now apply (line_object_canonical l).
  - destruct (String.eqb input ""); [contradiction|].
    apply produced_In in Hin. destruct Hin as (r & _ & Hr).
    now apply (csv_object_canonical r).
  - destruct (String.eqb input ""); [contradiction|].
    destruct (json_loads _); [|contradiction].
    destruct (_ ← _; _) as [items|]; [|contradiction].
    apply produced_In in Hin. destruct Hin as (r & _ & Hr).
    now apply (json_object_canonical r).
Qed.

(** X1. In every mode the objects of the output stand in the order in
    which their keys first occur among the objects the input records
    produce. *)
Theorem parse_key_order (m : mode) (input : string) (out : list Obj) :
  parse m input = Ok out →
  map normalized_key out
  = first_occurrences [] (map normalized_key (candidates m input)).
Proof.
  intros Hout. rewrite (parse_store_all _ _ _ Hout), values_keys.
  now rewrite store_all_key_order.
Qed.

Lemma parse_out_canonical (m : mode) (input : string) (out : list Obj) :
  parse m input = Ok out → Forall canonical out.
Proof.
  intros Hout. apply List.Forall_forall. intros o Hin.
  assert (Hlw : last_wins (candidates m input) out).
  { rewrite (parse_store_all _ _ _ Hout). apply store_all_last_wins. }
  destruct Hlw as (_ & Hmem & _). apply Hmem in Hin.
  destruct Hin as (l1 & l2 & Hc & _).
  assert (Hall := candidates_canonical m input).
  rewrite List.Forall_forall in Hall. apply Hall. rewrite Hc.
  apply in_or_app. right. now left.
Qed.

(** X2. Every object of a parser output is in canonical form: its key is
    class:type:name, its class, type, name, package and component are
    upper case without surrounding white space, and its raw text is
    stripped. *)
Theorem parse_canonical (m : mode) (input : string) (out : list Obj) :
  parse m input = Ok out → Forall canonical out.
Proof. apply parse_out_canonical. Qed.
End Modes.

Lemma parse_key_order_witness :
  map normalized_key
    [ mkObj "R3TR" "PROG" "ZA" None None "r3tr prog za again" "R3TR:PROG:ZA";
      mkObj "R3TR" "TABL" "ZT" None None "R3TR TABL ZT" "R3TR:TABL:ZT" ]
  = first_occurrences []
      (map normalized_key
         (@candidates Demo.runtime FreeText Demo.repeated_text)).
Proof.
  apply (@parse_key_order Demo.runtime FreeText Demo.repeated_text).
  reflexivity.
Defined.

Lemma parse_canonical_witness :
  Forall canonical
    [ mkObj "R3TR" "PROG" "ZA" None None "r3tr prog za again" "R3TR:PROG:ZA";
      mkObj "R3TR" "TABL" "ZT" None None "R3TR TABL ZT" "R3TR:TABL:ZT" ].
Proof.
  apply (@parse_canonical Demo.runtime FreeText Demo.repeated_text).
  reflexivity.
Defined.

End ParserMore.

(** ** Pattern matches and JSON documents *)

Module PatternFacts.
Import PyStr Parser DictFacts Modes ParserFacts ParserNotions ParserMore
  PatternNotions.


















Section Json.
Context `{Runtime}.

(** X4. A JSON document that decodes to anything but an object makes the
    JSON mode raise [AttributeError]; this includes the bare array. *)
Theorem json_not_object_raises (raw : string) (data : pyval) :
  raw ≠ "" →
  json_loads (utf8_decode raw) = Some data →
  isinstance_dict data = false →
  parse JSON raw = Raise AttributeError.
Proof.
  intros Hne Hdec Hd. simpl. unfold load_objects_from_json.
  apply String.eqb_neq in Hne. rewrite Hne, Hdec.
  destruct data; try discriminate; reflexivity.
Qed.

Lemma plain_field_get kv k :
  plain_field kv k = true → ∃ v, py_get (PDict kv) k = Ok v ∧ stringy v = true.
Proof. unfold plain_field, py_get, py_get_default. eauto. Qed.

Lemma json_object_plain o0 :
  plain_entry o0 = true → ∃ r, json_object o0 = Ok r.
Proof.
  intros Hp. unfold json_object.
  destruct o0 as [| | | | |kv]; simpl; unfold_result; eauto.
  simpl in Hp. rewrite !andb_true_iff in Hp.
  destruct Hp as (Hc & Ht1 & Ht2 & Hn1 & Hn2 & Hpk & Hcm & _).
  unfold plain_field in *.
  destruct (negb _ || negb _); [eauto|].
  match goal with
  | |- context [_make_obj ?c ?t ?n ?r ?p ?k] =>
      destruct (_make_obj_stringy c t n r p k) as [o E]
  end;
  repeat first [ apply py_or_stringy | assumption | reflexivity ].
  - destruct (assoc "obj_class" kv); [exact Hc | reflexivity].
  - rewrite E. eauto.
Qed.

Lemma json_entries_plain items :
  forallb plain_entry items = true →
  ∀ found, ∃ d, json_entries found items = Ok d.
Proof.
  induction items as [|o0 items IH]; simpl; intros Hall found; [eauto|].
  apply andb_true_iff in Hall. destruct Hall as [Ho Hall].
  destruct (json_object_plain o0 Ho) as [r ->]. unfold_result.
  apply IH, Hall.
Qed.

(** X5. A JSON object whose ["objects"] member is absent, or is an array
    of entries with string (or null, or absent) fields, is parsed
    without an error. *)
Theorem json_plain_document_ok (raw : string) (kv : list (string * pyval)) :
  json_loads (utf8_decode raw) = Some (PDict kv) →
  match assoc "objects" kv with
  | None => True
  | Some (PList items) => forallb plain_entry items = true
  | Some _ => False
  end →
  ∃ out, parse JSON raw = Ok out.
Proof.
  intros Hdec Hobjs. simpl. unfold load_objects_from_json.
  destruct (String.eqb raw ""); [unfold_result; eauto|].
  rewrite Hdec. simpl. unfold_result.
  destruct (assoc "objects" kv) as [[| | | |items|]|]; try contradiction;
    simpl.
  - destruct (json_entries_plain items Hobjs []) as [d ->]. eauto.
  - eauto.
Qed.
End Json.

Lemma json_not_object_raises_witness :
  @parse Demo.runtime JSON (Demo.dumps (PList [])) = Raise AttributeError.
Proof.
  apply (@json_not_object_raises Demo.runtime (Demo.dumps (PList []))
           (PList [])); [discriminate | reflexivity | reflexivity].
Defined.

Lemma json_plain_document_ok_witness :
  ∃ out, @parse Demo.runtime JSON (Demo.dumps (nth 4 Demo.docs PNone)) = Ok out.
Proof.
  eapply (@json_plain_document_ok Demo.runtime).
  - reflexivity.
  - reflexivity.
Defined.

End PatternFacts.

(** ** Parsing a text twice *)

Module TextTwice.
Import PyStr Parser DictFacts Modes ParserFacts ParserNotions ParserMore
  TextNotions.

Lemma list_of_append a b :
  list_ascii_of_string (a +:+ b)
  = list_ascii_of_string a ++ list_ascii_of_string b.
Proof. induction a as [|c a IH]; simpl; [reflexivity | now rewrite IH]. Qed.

Lemma produced_cons {A} (f : A → result (option Obj)) r rest :
  produced f (r :: rest)
  = match f r with Ok (Some o) => [o] | _ => [] end ++ produced f rest.
Proof. reflexivity. Qed.

Lemma produced_app {A} (f : A → result (option Obj)) l1 l2 :
  produced f (l1 ++ l2) = produced f l1 ++ produced f l2.
Proof. unfold produced. apply flat_map_app. Qed.

Lemma produced_blank_cons line rest :
  blank line = true →
  produced line_object (line :: rest) = produced line_object rest.
Proof. intros Hb. now rewrite produced_cons, (line_object_blank _ Hb). Qed.

Lemma splitlines_from_LF cur l2 :
  splitlines_from cur (LF :: l2)
  = string_of_list_ascii (rev cur) :: splitlines_from [] l2.
Proof. destruct l2; reflexivity. Qed.

(** The lines of [l1], a line feed, [l2]: those of [l1], perhaps an empty
    line, and those of [l2]; an empty line gives no object. *)
Lemma produced_splitlines_nil cur l2 :
  produced line_object (splitlines_from cur (LF :: l2))
  = produced line_object (splitlines_from cur [])
    ++ produced line_object (splitlines_from [] l2).
Proof.
  rewrite splitlines_from_LF. destruct cur as [|c cur].
  - simpl rev. now rewrite produced_blank_cons.
  - change (splitlines_from (c :: cur) [])
      with [string_of_list_ascii (rev (c :: cur))].
    rewrite !produced_cons. change (produced line_object []) with (@nil Obj).
    now rewrite app_nil_r.
Qed.

Lemma produced_splitlines_join n : ∀ cur l1 l2, length l1 ≤ n →
  produced line_object (splitlines_from cur (l1 ++ LF :: l2))
  = produced line_object (splitlines_from cur l1)
    ++ produced line_object (splitlines_from [] l2).
Proof.
  induction n as [|n IH]; intros cur l1 l2 Hlen.
  - destruct l1; [|simpl in Hlen; lia]. apply produced_splitlines_nil.
  - destruct l1 as [|c l1]; [apply produced_splitlines_nil|].
    simpl in Hlen. cbn [app splitlines_from].
    destruct (is_linebreak c) eqn:Ec.
    + rewrite !produced_cons, <- app_assoc. f_equal.
      destruct l1 as [|c' l1].
      * rewrite app_nil_l.
        replace ((nat_of_ascii c =? 13) && (nat_of_ascii LF =? 10))
          with (nat_of_ascii c =? 13) by (now rewrite andb_true_r).
        destruct (nat_of_ascii c =? 13); [reflexivity|].
        rewrite splitlines_from_LF. now rewrite produced_blank_cons.
      * cbn [app].
        destruct ((nat_of_ascii c =? 13) && (nat_of_ascii c' =? 10)).
        -- apply IH. simpl in Hlen. lia.
        -- apply (IH [] (c' :: l1)). lia.
    + apply IH. lia.
Qed.

Lemma candidates_join a b :
  produced line_object (splitlines (join_lines a b))
  = produced line_object (splitlines a) ++ produced line_object (splitlines b).
Proof.
  unfold splitlines, join_lines. rewrite !list_of_append. simpl.
  apply (produced_splitlines_join _ _ _ _ (le_n _)).
Qed.

(** *** Storing the same objects again *)

Lemma first_occurrences_seen seen ks :
  (∀ k, In k ks → In k seen) → first_occurrences seen ks = [].
Proof.
  revert seen. induction ks as [|k ks IH]; intros seen Hin; simpl;
    [reflexivity|].
  assert (Hk : in_strs k seen = true) by (apply in_strs_In, Hin; now left).
  rewrite Hk. apply IH. intros k' Hk'. apply Hin. now right.
Qed.

Lemma assoc_store_all d cands k :
  assoc k (store_all d cands)
  = match last_with k cands with Some o => Some o | None => assoc k d end.
Proof.
  revert d. induction cands as [|o cands IH] using rev_ind; intros d.
  - reflexivity.
  - rewrite store_all_snoc. unfold store, last_with. rewrite rev_app_distr.
    simpl. destruct (String.eqb_spec k (normalized_key o)) as [->|Hne].
    + apply assoc_dict_set_eq.
    + rewrite assoc_dict_set_ne by exact Hne. apply IH.
Qed.

Lemma dict_ext {V} (d1 d2 : dict V) :
  map fst d1 = map fst d2 → List.NoDup (map fst d1) →
  (∀ k, assoc k d1 = assoc k d2) → d1 = d2.
Proof.
  revert d2. induction d1 as [|[k v] d1 IH]; intros [|[k2 v2] d2] Hk Hnd Ha;
    try discriminate; [reflexivity|].
  simpl in Hk. injection Hk as <- Hk.
  inversion Hnd as [|? ? Hnotin Hnd']; subst.
  assert (Hv := Ha k). simpl in Hv. rewrite String.eqb_refl in Hv.
  injection Hv as <-. f_equal. apply IH; [exact Hk | exact Hnd' |].
  intros k'. specialize (Ha k'). simpl in Ha.
  destruct (String.eqb_spec k' k) as [Heq|Hne]; [clear Ha; subst k'|exact Ha].
  assert (H1 : assoc k d1 = None) by now apply assoc_None_keys.
  assert (H2 : assoc k d2 = None) by (apply assoc_None_keys; now rewrite <- Hk).
  congruence.
Qed.

Lemma store_all_twice cands :
  store_all [] (cands ++ cands) = store_all [] cands.
Proof.
  unfold store_all at 1. rewrite fold_left_app.
  fold (store_all [] cands). fold (store_all (store_all [] cands) cands).
  destruct (store_all_keys cands) as (Hnd & Hkey & Hlast).
  assert (Hkeys : map fst (store_all (store_all [] cands) cands)
                  = map fst (store_all [] cands)).
  { rewrite store_all_key_order, first_occurrences_seen;
      [apply app_nil_r|].
    intros k Hk. apply List.in_map_iff in Hk. destruct Hk as (o & <- & Ho).
    destruct (store_all_last_wins cands) as (_ & _ & Hpres).
    rewrite values_keys in Hpres. now apply Hpres. }
  apply dict_ext; [exact Hkeys | now rewrite Hkeys |].
  intros k. rewrite assoc_store_all, Hlast. now destruct (last_with k cands).
Qed.

Lemma blank_join a b : blank (join_lines a b) = blank a && blank b.
Proof.
  unfold blank, join_lines. rewrite !list_of_append, !forallb_app. reflexivity.
Qed.

Lemma text_guard text :
  String.eqb text "" || String.eqb (strip text) "" = blank text.
Proof.
  destruct (blank text) eqn:Hb.
  - apply strip_blank in Hb. rewrite Hb. apply orb_true_r.
  - apply orb_false_iff. split; apply String.eqb_neq; intros He.
    + subst. discriminate.
    + apply strip_blank in He. congruence.
Qed.

(** X6. Parsing a text followed by a copy of itself gives the objects of
    the text parsed once, in the same order. *)
Theorem parse_text_twice (text : string) :
  parse_abap_object_text (join_lines text text) = parse_abap_object_text text.
Proof.
  unfold parse_abap_object_text.
  rewrite !text_guard, blank_join, andb_diag.
  destruct (blank text); [reflexivity|].
  rewrite !parse_lines_store, candidates_join. unfold_result.
  now rewrite store_all_twice.
Qed.

Lemma parse_text_join (a b : string) :
  parse_abap_object_text (join_lines a b)
  = Ok (dict_values
          (store_all []
             (produced line_object (splitlines a)
              ++ produced line_object (splitlines b)))).
Proof.
  unfold parse_abap_object_text. rewrite text_guard, blank_join.
  destruct (blank a && blank b) eqn:Hb.
  - apply andb_true_iff in Hb. destruct Hb as [Ha Hb].
    apply strip_blank in Ha, Hb.
    now rewrite (blank_text_no_object a Ha), (blank_text_no_object b Hb).
  - rewrite parse_lines_store, candidates_join. reflexivity.
Qed.

Lemma parse_text_alone (a : string) :
  parse_abap_object_text a
  = Ok (dict_values (store_all [] (produced line_object (splitlines a)))).
Proof.
  unfold parse_abap_object_text. rewrite text_guard.
  destruct (blank a) eqn:Hb.
  - apply strip_blank in Hb. now rewrite (blank_text_no_object a Hb).
  - now rewrite parse_lines_store.
Qed.

(** X7. Lines that give no object (headers, remarks, blank lines) can
    stand before or after a text without changing what is parsed. *)
Theorem parse_ignores_junk (text junk : string) :
  produced line_object (splitlines junk) = [] →
  parse_abap_object_text (join_lines text junk) = parse_abap_object_text text
  ∧ parse_abap_object_text (join_lines junk text) = parse_abap_object_text text.
Proof.
  intros Hj. rewrite !parse_text_join, Hj, app_nil_r, app_nil_l.
  now rewrite <- parse_text_alone.
Qed.

Lemma parse_ignores_junk_witness :
  parse_abap_object_text (join_lines "R3TR PROG ZA" "Transport K900123 -- objects")
  = parse_abap_object_text "R3TR PROG ZA"
  ∧ parse_abap_object_text (join_lines "Transport K900123 -- objects" "R3TR PROG ZA")
    = parse_abap_object_text "R3TR PROG ZA".
Proof.
  apply (parse_ignores_junk "R3TR PROG ZA" "Transport K900123 -- objects").
  reflexivity.
Defined.

End TextTwice.

(** ** More about the matcher *)

Module MappingMore.
Import PyStr Parser Mapping MatcherSpec PySort SortFacts MappingClaims
  MatcherNotions.

Section Matcher.
Context `{Runtime}.

Lemma result_is_summary objects catalog a :
  In a (map_objects_to_apps objects catalog) →
  ∃ app, In app (apps catalog)
         ∧ matched_subset app objects ≠ []
         ∧ a = summary app objects (matched_subset app objects).
Proof.
  unfold map_objects_to_apps. rewrite sort_reverse_In, collect_spec.
  rewrite List.in_map_iff. intros (app & <- & Happ).
  apply filter_In in Happ. destruct Happ as [Happ Hne].
  exists app. repeat split; [exact Happ|].
  intros He. rewrite He in Hne. discriminate.
Qed.

Lemma summary_in_result objects catalog app :
  In app (apps catalog) → matched_subset app objects ≠ [] →
  In (summary app objects (matched_subset app objects))
     (map_objects_to_apps objects catalog).
Proof.
  intros Happ Hne. unfold map_objects_to_apps.
  rewrite sort_reverse_In, collect_spec. apply List.in_map_iff.
  exists app. split; [reflexivity|]. apply filter_In. split; [exact Happ|].
  now destruct (matched_subset app objects).
Qed.

Lemma matched_keys app objects k :
  In k (map normalized_key (firstn 10 (matched_subset app objects))) →
  In k (map normalized_key objects).
Proof.
  rewrite !List.in_map_iff. intros (o & <- & Ho).
  exists o. split; [reflexivity|].
  apply DBClaims.In_firstn in Ho. unfold matched_subset in Ho.
  now apply filter_In in Ho.
Qed.

(** X8. For every returned app the impact score is exactly
    matched_objects / number of objects (the cap at 1 never applies, as
    matched_objects is at most the number of objects), and top_objects
    are the keys of the first ten matched objects, all keys of the
    change. *)
Theorem impact_is_ratio (objects : list Obj) (catalog : Catalog) :
  Forall
    (fun a =>
       matched_objects a ≤ length objects
       ∧ (impact_score a
          == Qmake (Z.of_nat (matched_objects a)) (Pos.of_nat (length objects)))%Q
       ∧ length (top_objects a) = Nat.min 10 (matched_objects a)
       ∧ incl (top_objects a) (map normalized_key objects))
    (map_objects_to_apps objects catalog).
Proof.
  apply List.Forall_forall. intros a Ha.
  apply result_is_summary in Ha. destruct Ha as (app & _ & Hne & ->).
  assert (Hlen := matched_length app objects).
  assert (Hpos : 1 ≤ length (matched_subset app objects)).
  { destruct (matched_subset app objects); [congruence | simpl; lia]. }
  simpl. repeat split.
  - exact Hlen.
  - replace (Nat.max 1 (length objects)) with (length objects) by lia.
    apply Q.min_r. unfold Qle. simpl.
    rewrite Z.mul_1_r, Z.mul_1_l, <- positive_nat_Z, Nat2Pos.id by lia.
    now apply Nat2Z.inj_le.
  - rewrite length_map. apply length_firstn.
  - intros k. apply matched_keys.
Qed.

Lemma filter_all {A} (f : A → bool) l :
  (∀ x, In x l → f x = true) → List.filter f l = l.
Proof.
  induction l as [|x l IH]; simpl; intros Hf; [reflexivity|].
  rewrite (Hf x (or_introl eq_refl)). f_equal. apply IH. auto.
Qed.

(** X9. A catalog entry without any rule matches every object: with a
    non-empty change it is returned with matched_objects equal to the
    number of objects and an impact score of 1. *)
Theorem catch_all_app (objects : list Obj) (catalog : Catalog) (app : App) :
  In app (apps catalog) →
  match_rules app = no_rules →
  objects ≠ [] →
  ∃ a, In a (map_objects_to_apps objects catalog)
       ∧ ia_app_id a = app_id app
       ∧ matched_objects a = length objects
       ∧ (impact_score a == 1)%Q.
Proof.
  intros Happ Hrules Hne.
  assert (Hall : matched_subset app objects = objects).
  { unfold matched_subset. apply filter_all. intros o _.
    apply object_matches_spec. rewrite Hrules. split; now left. }
  exists (summary app objects (matched_subset app objects)).
  split; [apply summary_in_result; [exact Happ | now rewrite Hall]|].
  rewrite Hall. simpl. repeat split.
  assert (Hpos : 1 ≤ length objects).
  { destruct objects; [congruence | simpl; lia]. }
  replace (Nat.max 1 (length objects)) with (length objects) by lia.
  rewrite Q.min_l; [reflexivity|].
  unfold Qle. simpl.
  rewrite Z.mul_1_r, Z.mul_1_l, <- positive_nat_Z, Nat2Pos.id by lia. lia.
Qed.

(** X10. Without objects no app is returned, whatever the catalog. *)
Theorem no_objects_no_apps (catalog : Catalog) :
  map_objects_to_apps [] catalog = [].
Proof.
  unfold map_objects_to_apps.
  assert (Hc : collect [] (apps catalog) = []).
  { induction (apps catalog) as [|app l IH]; [reflexivity | exact IH]. }
  now rewrite Hc.
Qed.

Lemma map_upper_twice l : map upper (map upper l) = map upper l.
Proof. rewrite map_map. apply map_ext. intros s. apply upper_idemp. Qed.

Lemma _match_any_upper patterns value :
  _match_any (map upper patterns) (upper value) = _match_any patterns value.
Proof.
  unfold _match_any. rewrite upper_idemp.
  destruct patterns as [|p ps]; [reflexivity|].
  change (map upper (p :: ps)) with (upper p :: map upper ps).
  cbn [existsb]. rewrite upper_idemp. f_equal.
  induction ps as [|q ps IH]; simpl; [reflexivity|].
  now rewrite upper_idemp, IH.
Qed.

Lemma is_nil_map {A B} (f : A → B) l : is_nil (map f l) = is_nil l.
Proof. now destruct l. Qed.

(** X11. Matching ignores letter case: putting the patterns and types of
    the rules, and the type, name and package of the object, in upper
    case does not change whether the object matches. *)
Theorem matching_ignores_case (rules : MatchRules) (o : Obj) :
  object_matches (upper_rules rules) (upper_fields o) = object_matches rules o.
Proof.
  unfold object_matches, upper_rules, upper_fields. simpl.
  rewrite !map_upper_twice, !upper_idemp, !is_nil_map.
  assert (Hpkg : upper (default "" (option_map upper (package o)))
                 = upper (default "" (package o))).
  { destruct (package o); simpl; [apply upper_idemp | reflexivity]. }
  rewrite Hpkg.
  rewrite <- (upper_idemp (obj_name o)) at 1.
  rewrite <- (upper_idemp (default "" (package o))) at 1.
  now rewrite !_match_any_upper.
Qed.
End Matcher.

Lemma catch_all_app_witness :
  ∃ a, In a (@map_objects_to_apps Demo.runtime [Demo.prog "ZA"]
               (mkCatalog "1" [mkApp "all" None [] None no_rules]))
       ∧ ia_app_id a = "all"
       ∧ matched_objects a = 1
       ∧ (impact_score a == 1)%Q.
Proof.
  apply (@catch_all_app Demo.runtime [Demo.prog "ZA"]
           (mkCatalog "1" [mkApp "all" None [] None no_rules])
           (mkApp "all" None [] None no_rules)).
  - now left.
  - reflexivity.
  - discriminate.
Defined.

End MappingMore.

(** ** More about the history store *)

Module DBMore.
Import PyStr Parser DB PySort SortFacts DBClaims DBNotions.

Lemma NoDup_map_filter {A B} (f : A → B) (p : A → bool) l :
  List.NoDup (map f l) → List.NoDup (map f (List.filter p l)).
Proof.
  induction l as [|x l IH]; simpl; intros Hnd; [constructor|].
  inversion Hnd as [|? ? Hnotin Hnd']; subst.
  destruct (p x); [|now apply IH]. simpl.
  constructor; [|now apply IH].
  intros Hin. apply Hnotin. apply List.in_map_iff in Hin.
  destruct Hin as (y & Hy & Hin). apply filter_In in Hin.
  apply List.in_map_iff. exists y. tauto.
Qed.

Lemma save_change_In table row r :
  In r (save_change table row)
  ↔ r = row ∨ (In r table ∧ change_id r ≠ change_id row).
Proof.
  unfold save_change. rewrite in_app_iff, filter_In. simpl.
  rewrite negb_true_iff, String.eqb_neq. intuition.
Qed.

(** X12. Saving a change is an upsert: afterwards the table holds the
    new row, every other row whose id differs, and nothing else; the new
    row is the only one with its id, and ids stay unique if they were. *)
Theorem save_change_upsert (table : list Row) (row : Row) :
  (∀ r, In r (save_change table row)
        ↔ r = row ∨ (In r table ∧ change_id r ≠ change_id row))
  ∧ (∀ r, In r (save_change table row) → change_id r = change_id row → r = row)
  ∧ (List.NoDup (map change_id table) →
     List.NoDup (map change_id (save_change table row))).
Proof.
  split; [apply save_change_In|]. split.
  - intros r Hin Hid. apply save_change_In in Hin.
    destruct Hin as [->|[_ Hne]]; [reflexivity | contradiction].
  - apply save_change_keys.
Qed.

Lemma save_change_upsert_witness :
  In Demo.new_row (save_change [Demo.old_row; Demo.new_row] Demo.new_row)
  ∧ List.NoDup (map change_id (save_change [Demo.old_row; Demo.new_row]
                                          Demo.new_row)).
Proof.
  destruct (save_change_upsert [Demo.old_row; Demo.new_row] Demo.new_row)
    as (Hin & _ & Hnd).
  split.
  - apply Hin. now left.
  - apply Hnd. repeat constructor; simpl; intuition discriminate.
Defined.

Section Scan.
Context `{Runtime}.

(** X13. The result never names the current change itself. *)
Theorem never_reports_itself (table : list Row) (now : Z) (cid : string)
    (objects : list Obj) (window_days : Z) :
  Forall (fun rec => other_change_id rec ≠ cid)
         (find_overlaps table now cid objects window_days).
Proof.
  apply List.Forall_forall. intros rec Hin.
  apply find_overlaps_In in Hin. destruct Hin as (row & _ & Hne & Hr).
  apply overlap_of_row_Some in Hr.
  destruct Hr as (_ & other & keys & _ & _ & _ & ->). exact Hne.
Qed.

Lemma scan_ids obj_set cutoff rows id :
  In id (map other_change_id (scan obj_set cutoff rows)) →
  In id (map change_id rows).
Proof.
  rewrite !List.in_map_iff. intros (rec & <- & Hin).
  apply scan_In in Hin. destruct Hin as (row & Hrow & Hr).
  apply overlap_of_row_Some in Hr.
  destruct Hr as (_ & other & keys & _ & _ & _ & ->).
  exists row. split; [reflexivity | exact Hrow].
Qed.

Lemma scan_NoDup obj_set cutoff rows :
  List.NoDup (map change_id rows) →
  List.NoDup (map other_change_id (scan obj_set cutoff rows)).
Proof.
  induction rows as [|row rows IH]; simpl; intros Hnd; [constructor|].
  inversion Hnd as [|? ? Hnotin Hnd']; subst.
  destruct (overlap_of_row obj_set cutoff row) as [[r|]|e] eqn:E;
    try now apply IH.
  simpl. constructor; [|now apply IH].
  apply overlap_of_row_Some in E.
  destruct E as (_ & other & keys & _ & _ & _ & ->). simpl.
  intros Hin. apply Hnotin. now apply (scan_ids obj_set cutoff).
Qed.

(** X14. With unique ids in the table, every prior change appears in at
    most one record of the result. *)
Theorem one_record_per_change (table : list Row) (now : Z) (cid : string)
    (objects : list Obj) (window_days : Z) :
  List.NoDup (map change_id table) →
  List.NoDup (map other_change_id
                (find_overlaps table now cid objects window_days)).
Proof.
  intros Hnd. unfold find_overlaps. rewrite <- firstn_map.
  apply NoDup_firstn.
  eapply Permutation_NoDup.
  - apply Permutation_map, sort_reverse_perm.
  - apply scan_NoDup. unfold select_others. now apply NoDup_map_filter.
Qed.

Lemma recent_bad_stamp row cutoff :
  bad_stamp row → ∃ e, recent (generated_at row) cutoff = Raise e.
Proof.
  intros (g & -> & Hne & Hg). unfold recent.
  apply String.eqb_neq in Hne. rewrite Hne.
  destruct Hg as [-> | ->]; simpl; eauto.
Qed.

(** X15. In a table with unique change ids, a stored change whose time
    stamp is present but does not parse, or parses to a date without
    time zone, is in no record of the result: the error of the recency
    test makes the scan pass the row over. *)
Theorem bad_stamp_excluded (table : list Row) (now : Z) (cid : string)
    (objects : list Obj) (window_days : Z) (row : Row) :
  List.NoDup (map change_id table) →
  In row table →
  bad_stamp row →
  ¬ In (change_id row)
       (map other_change_id (find_overlaps table now cid objects window_days)).
Proof.
  intros Hnd Hrow Hbad Hin.
  apply List.in_map_iff in Hin. destruct Hin as (rec & Hid & Hin).
  apply find_overlaps_In in Hin. destruct Hin as (row' & Hrow' & _ & Hr).
  apply overlap_of_row_Some in Hr.
  destruct Hr as (Hrecent & other & keys & _ & _ & _ & ->). simpl in Hid.
  assert (row' = row) as -> by now apply (NoDup_map_inj change_id table).
  destruct (recent_bad_stamp row (now - window_days * us_per_day)%Z Hbad)
    as [e He].
  rewrite He in Hrecent. discriminate.
Qed.

Lemma overlap_of_row_stampless obj_set c1 c2 row :
  stampless row →
  overlap_of_row obj_set c1 row = overlap_of_row obj_set c2 row.
Proof. unfold overlap_of_row, recent. now intros [-> | ->]. Qed.

Lemma scan_stampless obj_set c1 c2 rows :
  Forall stampless rows → scan obj_set c1 rows = scan obj_set c2 rows.
Proof.
  induction 1 as [|row rows Hrow _ IH]; simpl; [reflexivity|].
  now rewrite (overlap_of_row_stampless obj_set c1 c2 row Hrow), IH.
Qed.

(** X16. Rows without a time stamp are never excluded by the window: on
    a table of such rows the result does not depend on the clock or on
    the number of days, as long as the window is one the code can
    compute with (the cutoff is a date of the years 1 to 9999). *)
Theorem stampless_ignores_window (table : list Row) (cid : string)
    (objects : list Obj) (now1 now2 days1 days2 : Z) :
  window_fits now1 days1 →
  window_fits now2 days2 →
  Forall stampless table →
  find_overlaps table now1 cid objects days1
  = find_overlaps table now2 cid objects days2.
Proof.
  intros _ _ Hall. unfold find_overlaps. f_equal. f_equal.
  apply scan_stampless. unfold select_others.
  apply List.Forall_forall. intros r Hr. apply filter_In in Hr.
  rewrite List.Forall_forall in Hall. now apply Hall.
Qed.

Lemma shared_keys_empty_set keys : shared_keys ∅ keys = [].
Proof.
  unfold shared_keys.
  assert ((∅ : gset string) ∩ list_to_set (strings_of keys) = ∅) as ->
    by apply intersection_empty_l_L.
  now rewrite elements_empty.
Qed.

(** X17. A change without objects overlaps with nothing. *)
Theorem no_objects_no_overlaps (table : list Row) (now : Z) (cid : string)
    (window_days : Z) :
  find_overlaps table now cid [] window_days = [].
Proof.
  destruct (find_overlaps table now cid [] window_days) as [|rec l] eqn:E;
    [reflexivity|].
  assert (Hin : In rec (find_overlaps table now cid [] window_days))
    by (rewrite E; now left).
  apply find_overlaps_In in Hin. destruct Hin as (row & _ & _ & Hr).
  apply overlap_of_row_Some in Hr.
  destruct Hr as (_ & other & keys & _ & _ & Hne & _).
  exfalso. apply Hne. apply shared_keys_empty_set.
Qed.







End Scan.

Lemma one_record_per_change_witness :
  List.NoDup (map other_change_id
                (@find_overlaps Demo.runtime [Demo.old_row; Demo.new_row]
                   Demo.clock "CHG-2" [Demo.prog "ZA"] 30)).
Proof.
  apply (@one_record_per_change Demo.runtime).
  repeat constructor; simpl; intuition discriminate.
Defined.

End DBMore.

(** ** The history store on the example data *)

Module DBMoreExamples.
Import Parser DB DBNotions DBMore.

Lemma bad_stamp_excluded_witness :
  ¬ In "CHG-NAIVE"
       (map other_change_id
          (@find_overlaps Demo.runtime [DemoMore.naive_row; Demo.new_row]
             Demo.clock "CHG-2" [Demo.prog "ZA"] 30)).
Proof.
  apply (@bad_stamp_excluded Demo.runtime [DemoMore.naive_row; Demo.new_row]
           Demo.clock "CHG-2" [Demo.prog "ZA"] 30 DemoMore.naive_row).
  - repeat constructor; simpl; intuition discriminate.
  - now left.
  - exists "2024-03-01T00:00:00".
    split; [reflexivity|]. split; [discriminate|]. now right.
Defined.

Lemma stampless_ignores_window_witness :
  @find_overlaps Demo.runtime [DemoMore.undated_row] 0 "CHG-2"
    [Demo.prog "ZA"] 1
  = @find_overlaps Demo.runtime [DemoMore.undated_row] Demo.clock "CHG-2"
      [Demo.prog "ZA"] 365.
Proof.
  apply (@stampless_ignores_window Demo.runtime).
  - unfold window_fits, datetime_min, datetime_max, APP_TZ_offset, us_per_day.
    lia.
  - unfold window_fits, datetime_min, datetime_max, APP_TZ_offset, us_per_day,
      Demo.clock.
    lia.
  - constructor; [now left | constructor].
Defined.


End DBMoreExamples.

(** ** More about the scorer *)

Module ScoringMore.
Import PyStr Parser PyFloat Scoring PySort SortFacts FloatFacts ScoringClaims.
Import ScoringNotions.

(** *** The points of one object *)

(** The largest points there can be: base 10, critical, three or more
    overlaps and the hint; they are a little above 24. *)
Lemma object_points_bounds counts critical napps o :
  (3 <= fst (object_points counts critical napps o))%Q
  ∧ (fst (object_points counts critical napps o) <= 49 # 2)%Q
  ∧ 1 ≤ length (snd (object_points counts critical napps o)) ≤ 4.
Proof.
  split; [|split].
  - assert (Hb := object_points_base counts critical napps o).
    assert (Hm := base_points_min (upper (obj_type o))).
    rewrite Zle_Qle in Hm. change (inject_Z 3) with 3%Q in Hm. lra.
  - assert (Hnn := object_points_nonneg counts critical napps o).
    revert Hnn. unfold object_points.
    assert (Hlo := base_points_min (upper (obj_type o))).
    assert (Hhi := base_points_max (upper (obj_type o))).
    set (b := base_points (upper (obj_type o))) in *.
    rewrite (of_int_small b) by lia.
    assert (Hb0 : (0 <= inject_Z b)%Q).
    { change 0%Q with (inject_Z 0). rewrite <- Zle_Qle. lia. }
    assert (Hb10 : (inject_Z b <= 10)%Q).
    { change 10%Q with (inject_Z 10). now rewrite <- Zle_Qle. }
    set (u1 := fmul 10 (literal (13 # 10))).
    set (u2 := fadd u1 9).
    set (u3 := fadd u2 2).
    assert (H01 : (10 <= u1)%Q) by (apply Qle_bool_iff; vm_compute; reflexivity).
    assert (H12 : (u1 <= u2)%Q) by (apply Qle_bool_iff; vm_compute; reflexivity).
    assert (H23 : (u2 <= u3)%Q) by (apply Qle_bool_iff; vm_compute; reflexivity).
    assert (H3 : (u3 <= 49 # 2)%Q) by (apply Qle_bool_iff; vm_compute; reflexivity).
    assert (Hc : (0 <= literal (13 # 10))%Q)
      by (apply Qle_bool_iff; vm_compute; reflexivity).
    assert (H1 : (fmul (inject_Z b) (literal (13 # 10)) <= u1)%Q).
    { apply fmul_mono; [exact Hb0 | exact Hc | exact Hb10 | apply Qle_refl]. }
    assert (H1n : (0 <= fmul (inject_Z b) (literal (13 # 10)))%Q)
      by now apply fmul_nonneg.
    assert (H22 : of_int 2 = 2%Q) by reflexivity.
    assert (H2 : ∀ p z, (0 <= p)%Q → (p <= u1)%Q → (0 <= z <= 9)%Z →
                        (0 <= fadd p (inject_Z z))%Q
                        ∧ (fadd p (inject_Z z) <= u2)%Q).
    { intros p z Hp0 Hp [Hz0 Hz9].
      rewrite Zle_Qle in Hz0, Hz9.
      change (inject_Z 0) with 0%Q in Hz0. change (inject_Z 9) with 9%Q in Hz9.
      split; [now apply fadd_nonneg|].
      apply fadd_mono; assumption. }
    assert (H4 : ∀ p, (0 <= p)%Q → (p <= u2)%Q → (fadd p 2 <= u3)%Q).
    { intros p Hp0 Hp. apply fadd_mono; [assumption | lra | assumption | lra]. }
    destruct (overlap_bonus _) as [[bonus why]|] eqn:E;
      [destruct (overlap_bonus_cases _ _ _ E) as [-> Hbonus]|];
      destruct (bool_decide _); destruct (_ && _); cbn [fst];
      rewrite ?H22; intros _;
      repeat match goal with
             | |- (fadd (fadd ?p (inject_Z ?z)) 2 <= _)%Q =>
                 destruct (H2 p z) as [? ?]; [| |lia|];
                 [| |eapply Qle_trans; [apply H4; eassumption|exact H3]]
             | |- (fadd ?p (inject_Z ?z) <= _)%Q =>
                 destruct (H2 p z) as [? ?]; [| |lia|];
                 [| |lra]
             | |- (fadd ?p 2 <= _)%Q =>
                 eapply Qle_trans; [apply H4|exact H3]
             | |- (0 <= _)%Q => first [exact H1n | exact Hb0]
             | |- (_ <= _)%Q => first [exact H1 | lra]
             end.
  - unfold object_points.
    destruct (overlap_bonus _) as [[bonus why]|];
      destruct (bool_decide _); destruct (_ && _); simpl;
      rewrite ?length_app; simpl; lia.
Qed.

Lemma py_round_between q :
  (3 <= q)%Q → (q <= 49 # 2)%Q → (3 <= py_round q <= 24)%Z.
Proof.
  intros Hlo Hhi. split.
  - apply nearest_even_ge. exact Hlo.
  - change 24%Z with (nearest_even (49 # 2)). now apply nearest_even_mono.
Qed.

Lemma score_objects_risks counts critical napps objects :
  snd (score_objects counts critical napps objects)
  = map (fun o =>
           {| risk_key := normalized_key o;
              risk_points :=
                py_round (fst (object_points counts critical napps o));
              reasons := snd (object_points counts critical napps o) |})
        objects.
Proof.
  unfold score_objects.
  assert (Hgen : ∀ t0 r0,
    snd (fold_left
           (fun '(total_points, object_risks) o =>
              let '(points, reasons) :=
                object_points counts critical napps o in
              (fadd total_points points,
               object_risks ++ [{| risk_key := normalized_key o;
                                   risk_points := py_round points;
                                   reasons := reasons |}]))
           objects (t0, r0))
    = r0 ++ map (fun o =>
           {| risk_key := normalized_key o;
              risk_points :=
                py_round (fst (object_points counts critical napps o));
              reasons := snd (object_points counts critical napps o) |})
        objects).
  { induction objects as [|o objects IH]; intros t0 r0; simpl.
    - now rewrite app_nil_r.
    - destruct (object_points counts critical napps o) as [points why].
      rewrite IH. simpl. now rewrite <- app_assoc. }
  apply (Hgen 0%Q []).
Qed.

Section Score.
Context `{Runtime}.

Lemma findings_fields table now stamp cid objects apps days :
  let f := score_change table now stamp cid objects apps days in
  let overlaps := DB.find_overlaps table now cid objects days in
  let counts := overlap_counts overlaps in
  let critical := critical_object_set apps in
  overlaps = Scoring.overlaps f
  ∧ object_risks f
    = sort_reverse risk_leb
        (snd (score_objects counts critical (length apps) objects))
  ∧ risk_score (summary f)
    = Z.min 100
        (py_round
           (scaled_average
              (fst (score_objects counts critical (length apps) objects))
              (Nat.max 1 (length objects))))
  ∧ risk_level (summary f) = _risk_level (risk_score (summary f))
  ∧ objects_total (summary f) = length objects
  ∧ apps_impacted (summary f) = length apps
  ∧ overlaps_found (summary f)
    = length (List.filter (fun o => 0 <? DB.shared_object_count o) overlaps).
Proof.
  unfold score_change. destruct (score_objects _ _ _ objects).
  simpl. repeat split.
Qed.

(** X19. Every per-object risk entry has between 3 and 24 risk points
    and between one and four reasons. *)
Theorem risk_points_bounded (table : list DB.Row) (now : Z) (stamp : string)
    (change_id : string) (objects : list Obj)
    (impacted_apps : list Mapping.ImpactedApp) (window_days : Z) :
  Forall (fun r => (3 <= risk_points r <= 24)%Z
                   ∧ 1 ≤ length (reasons r) ≤ 4)
    (object_risks
       (score_change table now stamp change_id objects impacted_apps
          window_days)).
Proof.
  destruct (findings_fields table now stamp change_id objects impacted_apps
              window_days) as (_ & -> & _).
  apply List.Forall_forall. intros r Hr.
  apply sort_reverse_In in Hr. rewrite score_objects_risks in Hr.
  apply List.in_map_iff in Hr. destruct Hr as (o & <- & _). simpl.
  destruct (object_points_bounds
              (overlap_counts (DB.find_overlaps table now change_id objects
                                 window_days))
              (critical_object_set impacted_apps) (length impacted_apps) o)
    as (Hlo & Hhi & Hlen).
  split; [|exact Hlen].
  now apply py_round_between.
Qed.

Lemma risk_leb_total x y : risk_leb x y = true ∨ risk_leb y x = true.
Proof.
  unfold risk_leb.
  destruct (Z.leb_spec (risk_points x) (risk_points y));
    [now left | right]. apply Z.leb_le. lia.
Qed.

(** X20. The per-object risk list has one entry for each object of the
    change, under the object's key, and is in descending order of risk
    points. *)
Theorem object_risks_sorted (table : list DB.Row) (now : Z) (stamp : string)
    (change_id : string) (objects : list Obj)
    (impacted_apps : list Mapping.ImpactedApp) (window_days : Z) :
  let f := score_change table now stamp change_id objects impacted_apps
             window_days in
  Permutation (map normalized_key objects) (map risk_key (object_risks f))
  ∧ length (object_risks f) = objects_total (summary f)
  ∧ StronglySorted (fun a b => (risk_points b <= risk_points a)%Z)
      (object_risks f).
Proof.
  intros f.
  destruct (findings_fields table now stamp change_id objects impacted_apps
              window_days) as (_ & Hrisks & _ & _ & Htotal & _).
  fold f in Hrisks, Htotal. rewrite Hrisks, Htotal.
  rewrite score_objects_risks.
  match goal with
  | |- context [sort_reverse risk_leb ?l] => set (entries := l)
  end.
  assert (Hkeys : map risk_key entries = map normalized_key objects).
  { unfold entries. rewrite map_map. reflexivity. }
  repeat split.
  - rewrite <- Hkeys. apply Permutation_map, sort_reverse_perm.
  - rewrite <- (Permutation_length (sort_reverse_perm risk_leb entries)).
    unfold entries. apply length_map.
  - apply Sorted_StronglySorted; [intros x y z; lia|].
    eapply Sorted_ind with
      (P := fun l => Sorted (fun a b => (risk_points b <= risk_points a)%Z) l);
      [constructor | | apply (sort_reverse_sorted risk_leb risk_leb_total)].
    intros a l _ IH Hhd. constructor; [exact IH|].
    destruct Hhd as [|b l' Hab]; constructor.
    unfold desc, risk_leb in Hab. now apply Z.leb_le in Hab.
Qed.

(** X21. The summary counts every overlap record: [overlaps_found] is
    the number of records in [overlaps], at most 25. *)
Theorem overlaps_found_counts_all (table : list DB.Row) (now : Z)
    (stamp : string) (change_id : string) (objects : list Obj)
    (impacted_apps : list Mapping.ImpactedApp) (window_days : Z) :
  let f := score_change table now stamp change_id objects impacted_apps
             window_days in
  overlaps_found (summary f) = length (overlaps f)
  ∧ length (overlaps f) ≤ 25.
Proof.
  intros f.
  destruct (findings_fields table now stamp change_id objects impacted_apps
              window_days) as (Hov & _ & _ & _ & _ & _ & Hfound).
  fold f in Hov, Hfound. rewrite Hfound, <- Hov. split.
  - f_equal. apply MappingMore.filter_all. intros o Ho.
    apply (DBClaims.find_overlaps_record table now change_id objects
             window_days) in Ho.
    apply Nat.ltb_lt. lia.
  - unfold DB.find_overlaps. apply firstn_le_length.
Qed.

(** The value that is rounded is at least that of [c] points on the
    average, when every object has at least [c] points and the sum of
    the points stays below 2^53, where the doubles hold every integer. *)
Lemma score_value_ge (c : Z) table now cid objects apps days :
  (0 <= c <= 10)%Z →
  objects ≠ [] →
  (Z.of_nat (length objects) <= 2 ^ 48)%Z →
  (∀ o, In o objects →
        (inject_Z c
         <= fst (object_points
                   (overlap_counts (DB.find_overlaps table now cid objects days))
                   (critical_object_set apps) (length apps) o))%Q) →
  (fmul (fmul (inject_Z c) scale) (of_int 10)
   <= scaled_average
        (fst (score_objects
                (overlap_counts (DB.find_overlaps table now cid objects days))
                (critical_object_set apps) (length apps) objects))
        (Nat.max 1 (length objects)))%Q.
Proof.
  intros Hc Hne Hmany Hall.
  set (counts := overlap_counts _) in *.
  set (critical := critical_object_set _) in *.
  assert (Hlen : Nat.max 1 (length objects) = length objects).
  { destruct objects; [congruence | simpl; lia]. }
  assert (Hpos : (1 <= Z.of_nat (length objects))%Z).
  { destruct objects; [congruence | simpl; lia]. }
  assert (H48 : (2 ^ 48 = 281474976710656)%Z) by reflexivity.
  assert (H53 : (2 ^ 53 = 9007199254740992)%Z) by reflexivity.
  rewrite Hlen, score_objects_total. unfold scaled_average.
  set (n := Z.of_nat (length objects)) in *.
  rewrite (of_int_small n) by lia.
  assert (Hn : (0 < inject_Z n)%Q).
  { change 0%Q with (inject_Z 0). rewrite <- Zlt_Qlt. lia. }
  assert (Hc0 : (0 <= inject_Z c)%Q).
  { change 0%Q with (inject_Z 0). rewrite <- Zle_Qle. lia. }
  assert (Hsum : (inject_Z (c * n)
                  <= fsum (map (fun o => fst (object_points counts critical
                                                (length apps) o)) objects))%Q).
  { unfold fsum, n.
    rewrite <- (length_map (fun o => fst (object_points counts critical
                                            (length apps) o)) objects).
    rewrite <- (Z.add_0_l (Z.of_nat _)).
    apply fsum_from_ge.
    - lia.
    - apply List.Forall_forall. intros q Hq.
      apply List.in_map_iff in Hq. destruct Hq as (o & <- & Ho).
      now apply Hall.
    - lia.
    - rewrite length_map. fold n. nia.
    - rewrite Z.mul_0_r. apply Qle_refl. }
  assert (Havg : (inject_Z c
                  <= fdiv (fsum (map (fun o => fst (object_points counts critical
                                                      (length apps) o)) objects))
                          (inject_Z n))%Q).
  { apply fl_ge; [lia|]. apply Qle_shift_div_l; [exact Hn|].
    now rewrite <- inject_Z_mult. }
  assert (Hscale : (0 <= scale)%Q)
    by (apply Qle_bool_iff; vm_compute; reflexivity).
  assert (Hten : (0 <= of_int 10)%Q)
    by (apply Qle_bool_iff; vm_compute; reflexivity).
  apply fmul_mono; [now apply fmul_nonneg | exact Hten | | apply Qle_refl].
  apply fmul_mono; [exact Hc0 | exact Hscale | exact Havg | apply Qle_refl].
Qed.

(** X22. The score of a change with at least one object is never below
    38, as long as the change has no more than 2^48 objects (the sum of
    their points is then below 2^53, where doubles still hold every
    integer; far beyond, adding a few points to the sum no longer
    changes it); without objects the score is 0 and the level is Low. *)
Theorem risk_score_floor (table : list DB.Row) (now : Z) (stamp : string)
    (change_id : string) (objects : list Obj)
    (impacted_apps : list Mapping.ImpactedApp) (window_days : Z) :
  let f := score_change table now stamp change_id objects impacted_apps
             window_days in
  (objects ≠ [] → (Z.of_nat (length objects) <= 2 ^ 48)%Z →
   (38 <= risk_score (summary f))%Z)
  ∧ (objects = [] →
     risk_score (summary f) = 0%Z ∧ risk_level (summary f) = "Low").
Proof.
  intros f.
  destruct (findings_fields table now stamp change_id objects impacted_apps
              window_days) as (_ & _ & Hscore & Hlevel & _).
  fold f in Hscore, Hlevel. split.
  - intros Hne Hmany. rewrite Hscore. apply Z.min_glb; [lia|].
    assert (E : py_round (fmul (fmul (inject_Z 3) scale) (of_int 10)) = 38%Z)
      by (vm_compute; reflexivity).
    rewrite <- E. apply nearest_even_mono.
    apply (score_value_ge 3 table now change_id objects impacted_apps
             window_days); [lia | exact Hne | exact Hmany |].
    intros o _.
    apply (object_points_bounds
             (overlap_counts (DB.find_overlaps table now change_id objects
                                window_days))
             (critical_object_set impacted_apps) (length impacted_apps) o).
  - intros ->. rewrite Hlevel, Hscore. split; reflexivity.
Qed.

(** X23. A change made only of objects whose type has base 8 or more,
    and of no more than 2^48 of them, scores 100, level High. *)
Theorem heavy_change_scores_100 (table : list DB.Row) (now : Z)
    (stamp : string) (change_id : string) (objects : list Obj)
    (impacted_apps : list Mapping.ImpactedApp) (window_days : Z) :
  let f := score_change table now stamp change_id objects impacted_apps
             window_days in
  objects ≠ [] → (Z.of_nat (length objects) <= 2 ^ 48)%Z → heavy objects →
  risk_score (summary f) = 100%Z ∧ risk_level (summary f) = "High".
Proof.
  intros f Hne Hmany Hheavy.
  destruct (findings_fields table now stamp change_id objects impacted_apps
              window_days) as (_ & _ & Hscore & Hlevel & _).
  fold f in Hscore, Hlevel.
  assert (Hs : risk_score (summary f) = 100%Z).
  { rewrite Hscore. apply Z.min_l.
    assert (E : py_round (fmul (fmul (inject_Z 8) scale) (of_int 10)) = 100%Z)
      by (vm_compute; reflexivity).
    rewrite <- E. apply nearest_even_mono.
    apply (score_value_ge 8 table now change_id objects impacted_apps
             window_days); [lia | exact Hne | exact Hmany |].
    intros o Ho. unfold heavy in Hheavy.
    rewrite List.Forall_forall in Hheavy. specialize (Hheavy o Ho).
    eapply Qle_trans; [|apply object_points_base].
    now rewrite <- Zle_Qle. }
  split; [exact Hs|]. rewrite Hlevel, Hs. reflexivity.
Qed.

(** Why the two bounds stop at a number of objects.  A sum of doubles
    that has reached 2^58 is no longer changed by the points of one
    object, so the total never exceeds 2^58, whatever the change; the
    average of a change of 2^59 objects or more is then 1/2 at the
    most, and its score 6. *)
Lemma sum_stalls l :
  Forall (fun p => (0 <= p)%Q ∧ (p <= 49 # 2)%Q) l →
  ∀ t0, (0 <= t0)%Q → (t0 <= pow2 58)%Q →
        (0 <= fold_left fadd l t0)%Q ∧ (fold_left fadd l t0 <= pow2 58)%Q.
Proof.
  induction 1 as [|p l [Hp0 Hp] _ IH]; intros t0 H0 Hhi; simpl; [now split|].
  apply IH; [now apply fadd_nonneg|].
  apply Qle_trans with (fadd (pow2 58) (49 # 2)).
  - apply fadd_mono; assumption.
  - apply Qle_bool_iff. vm_compute. reflexivity.
Qed.

Lemma total_points_bounded counts critical napps objects :
  (0 <= fst (score_objects counts critical napps objects))%Q
  ∧ (fst (score_objects counts critical napps objects) <= pow2 58)%Q.
Proof.
  rewrite score_objects_total. apply sum_stalls; [|discriminate..].
  apply List.Forall_forall. intros q Hq.
  apply List.in_map_iff in Hq. destruct Hq as (o & <- & _).
  destruct (object_points_bounds counts critical napps o) as (Hlo & Hhi & _).
  split; [lra | exact Hhi].
Qed.

Lemma long_change_scores_low (table : list DB.Row) (now : Z)
    (stamp cid : string) (objects : list Obj)
    (apps : list Mapping.ImpactedApp) (days : Z) :
  (2 ^ 59 <= Z.of_nat (length objects))%Z →
  (risk_score (summary (score_change table now stamp cid objects apps days))
   <= 6)%Z.
Proof.
  intros Hn.
  assert (H59 : (2 ^ 59 = 576460752303423488)%Z) by reflexivity.
  destruct (findings_fields table now stamp cid objects apps days)
    as (_ & _ & -> & _).
  replace (Nat.max 1 (length objects)) with (length objects) by lia.
  destruct (total_points_bounded
              (overlap_counts (DB.find_overlaps table now cid objects days))
              (critical_object_set apps) (length apps) objects) as [Ht0 Ht].
  set (total := fst (score_objects _ _ _ objects)) in *.
  assert (Hd : (pow2 59 <= of_int (Z.of_nat (length objects)))%Q).
  { apply Qle_trans with (of_int (2 ^ 59)).
    - apply Qle_bool_iff. vm_compute. reflexivity.
    - apply fl_mono; [discriminate|]. now rewrite <- Zle_Qle. }
  set (d := of_int (Z.of_nat (length objects))) in *.
  assert (Hp58 : (pow2 58 == 288230376151711744)%Q) by reflexivity.
  assert (Hp59 : (pow2 59 == 576460752303423488)%Q) by reflexivity.
  assert (Hd0 : (0 < d)%Q) by (rewrite Hp59 in Hd; lra).
  assert (Hq : (total / d <= 1 # 2)%Q).
  { apply Qle_shift_div_r; [exact Hd0|]. rewrite Hp58 in Ht. rewrite Hp59 in Hd.
    lra. }
  assert (Hq0 : (0 <= total / d)%Q).
  { apply Qle_shift_div_l; [exact Hd0 | lra]. }
  apply Z.le_trans with (py_round (scaled_average total (length objects)));
    [apply Z.le_min_r|].
  assert (E : py_round (fmul (fmul (fl (1 # 2)) scale) (of_int 10)) = 6%Z)
    by (vm_compute; reflexivity).
  rewrite <- E. apply nearest_even_mono. unfold scaled_average. fold d.
  assert (Hscale : (0 <= scale)%Q)
    by (apply Qle_bool_iff; vm_compute; reflexivity).
  assert (Hten : (0 <= of_int 10)%Q)
    by (apply Qle_bool_iff; vm_compute; reflexivity).
  apply fmul_mono;
    [apply fmul_nonneg; [now apply fl_nonneg | exact Hscale]
    | exact Hten | | apply Qle_refl].
  apply fmul_mono;
    [now apply fl_nonneg | exact Hscale | | apply Qle_refl].
  now apply fl_mono.
Qed.

(** So neither bound holds of every change: 2^59 tables make a change
    that is not empty, has only types of base 8 or more, and scores 6
    at the most. *)
Lemma bounds_need_a_limit :
  ∃ objects,
    objects ≠ [] ∧ heavy objects
    ∧ ∀ table now stamp cid apps days,
        (risk_score
           (summary (score_change table now stamp cid objects apps days))
         <= 6)%Z.
Proof.
  set (tabl := mkObj "R3TR" "TABL" "ZT" None None "R3TR TABL ZT" "R3TR:TABL:ZT").
  assert (Hlen : Z.of_nat (length (repeat tabl (Z.to_nat (2 ^ 59))))
                 = (2 ^ 59)%Z).
  { rewrite repeat_length. apply Z2Nat.id. discriminate. }
  exists (repeat tabl (Z.to_nat (2 ^ 59))). split; [|split].
  - intros E. rewrite E in Hlen. discriminate Hlen.
  - apply List.Forall_forall. intros o Ho. apply repeat_spec in Ho. subst o.
    vm_compute. discriminate.
  - intros table now stamp cid apps days. apply long_change_scores_low.
    rewrite Hlen. apply Z.le_refl.
Qed.
End Score.

End ScoringMore.

(** ** Overlap counts and critical objects *)

Module ScoringSets.
Import PyStr Parser Scoring PySort SortFacts ScoringClaims ScoringNotions
  ScoringMore.

Lemma count_key_lookup (counts : gmap string nat) nk k :
  default 0 (count_key counts nk !! k)
  = default 0 (counts !! k) + (if String.eqb k nk then 1 else 0).
Proof.
  unfold count_key. destruct (String.eqb_spec k nk) as [->|Hne].
  - rewrite lookup_insert_eq. simpl. lia.
  - rewrite lookup_insert_ne by congruence. lia.
Qed.

Lemma count_keys_lookup l (counts : gmap string nat) k :
  default 0 (fold_left count_key l counts !! k)
  = default 0 (counts !! k) + count_occ string_dec l k.
Proof.
  revert counts. induction l as [|nk l IH]; intros counts; simpl; [lia|].
  rewrite IH, count_key_lookup.
  destruct (string_dec nk k) as [Heq|Hneq];
    destruct (String.eqb_spec k nk) as [Heq'|Hne]; try congruence; lia.
Qed.

Lemma count_occ_NoDup l k :
  List.NoDup l →
  count_occ string_dec l k = if in_strs k l then 1 else 0.
Proof.
  intros Hnd.
  assert (Hle := proj1 (NoDup_count_occ string_dec l) Hnd k).
  destruct (in_strs k l) eqn:E.
  - apply ParserMore.in_strs_In in E.
    apply (count_occ_In string_dec) in E. lia.
  - assert (Hn : ¬ In k l).
    { intros Hin. apply ParserMore.in_strs_In in Hin. congruence. }
    now apply (count_occ_not_In string_dec) in Hn.
Qed.

Lemma overlap_counts_from (counts : gmap string nat) overlaps k :
  Forall (fun o => List.NoDup (DB.shared_objects o)) overlaps →
  default 0
    (fold_left (fun counts o => fold_left count_key (DB.shared_objects o) counts)
               overlaps counts !! k)
  = default 0 (counts !! k) + length (List.filter (lists_key k) overlaps).
Proof.
  intros Hall. revert counts.
  induction Hall as [|o overlaps Ho _ IH]; intros counts; simpl; [lia|].
  rewrite IH, count_keys_lookup, (count_occ_NoDup _ k Ho).
  unfold lists_key at 2. destruct (in_strs k (DB.shared_objects o)); simpl; lia.
Qed.

Lemma union_keys_elem (acc : gset string) l k :
  k ∈ fold_left (fun acc nk => acc ∪ {[nk]}) l acc ↔ k ∈ acc ∨ In k l.
Proof.
  revert acc. induction l as [|nk l IH]; intros acc; simpl.
  - tauto.
  - rewrite IH, elem_of_union, elem_of_singleton. intuition.
Qed.

Lemma critical_from (acc : gset string) apps k :
  k ∈ fold_left (fun acc a => fold_left (fun acc nk => acc ∪ {[nk]})
                                        (Mapping.top_objects a) acc) apps acc
  ↔ k ∈ acc ∨ ∃ a, In a apps ∧ In k (Mapping.top_objects a).
Proof.
  revert acc. induction apps as [|a apps IH]; intros acc; simpl.
  - split; [tauto | intros [Hk | (a & [] & _)]; exact Hk].
  - rewrite IH, union_keys_elem. split.
    + intros [[Hk | Hk] | (a' & Ha' & Hk)]; eauto.
    + intros [Hk | (a' & [<- | Ha'] & Hk)]; eauto.
Qed.

(** X24. The critical set holds exactly the keys that stand among the
    [top_objects] (the first ten matched objects) of an app of
    criticality 4 or more. *)
Theorem critical_object_set_spec (impacted_apps : list Mapping.ImpactedApp)
    (k : string) :
  k ∈ critical_object_set impacted_apps
  ↔ ∃ a, In a impacted_apps ∧ critical_for k a.
Proof.
  unfold critical_object_set, critical_for. rewrite critical_from. split.
  - intros [Hk | (a & Ha & Hk)]; [now apply not_elem_of_empty in Hk|].
    apply filter_In in Ha. destruct Ha as [Ha Hc].
    apply Z.leb_le in Hc. eauto.
  - intros (a & Ha & Hc & Hk). right. exists a. split; [|exact Hk].
    apply filter_In. split; [exact Ha | now apply Z.leb_le].
Qed.

Section Score.
Context `{Runtime}.

(** X25. The overlap count of a key, which selects the overlap bonus, is
    the number of overlap records that list the key among their (at most
    200) shared objects; it is at most 25. *)
Theorem overlap_count_spec (table : list DB.Row) (now : Z) (cid : string)
    (objects : list Obj) (window_days : Z) (k : string) :
  let overlaps := DB.find_overlaps table now cid objects window_days in
  default 0 (overlap_counts overlaps !! k)
  = length (List.filter (lists_key k) overlaps)
  ∧ default 0 (overlap_counts overlaps !! k) ≤ 25.
Proof.
  intros overlaps.
  assert (Heq : default 0 (overlap_counts overlaps !! k)
                = length (List.filter (lists_key k) overlaps)).
  { unfold overlap_counts. rewrite overlap_counts_from.
    - rewrite lookup_empty. reflexivity.
    - apply List.Forall_forall. intros o Ho.
      now apply (DBClaims.find_overlaps_record table now cid objects
                   window_days) in Ho. }
  split; [exact Heq|]. rewrite Heq.
  etransitivity; [apply List.filter_length_le|].
  unfold overlaps, DB.find_overlaps. apply firstn_le_length.
Qed.
End Score.

Lemma risk_score_floor_witness :
  (38 <= risk_score
           (summary (@score_change Demo.runtime [] Demo.clock "now" "CHG-1"
                       [Demo.prog "ZA"] [] 30)))%Z
  ∧ risk_score
      (summary (@score_change Demo.runtime [] Demo.clock "now" "CHG-1"
                  [] [] 30)) = 0%Z.
Proof.
  split.
  - apply (@risk_score_floor Demo.runtime [] Demo.clock "now" "CHG-1"
             [Demo.prog "ZA"] [] 30); [discriminate|].
    apply Z.leb_le. reflexivity.
  - apply (@risk_score_floor Demo.runtime [] Demo.clock "now" "CHG-1"
             [] [] 30). reflexivity.
Defined.

Lemma heavy_change_scores_100_witness :
  let tabl := mkObj "R3TR" "TABL" "ZT" None None "R3TR TABL ZT" "R3TR:TABL:ZT" in
  risk_score
    (summary (@score_change Demo.runtime [] Demo.clock "now" "CHG-1"
                [tabl] [] 30)) = 100%Z
  ∧ risk_level
      (summary (@score_change Demo.runtime [] Demo.clock "now" "CHG-1"
                  [tabl] [] 30)) = "High".
Proof.
  intros tabl.
  apply (@heavy_change_scores_100 Demo.runtime [] Demo.clock "now" "CHG-1"
           [tabl] [] 30).
  - discriminate.
  - apply Z.leb_le. reflexivity.
  - constructor; [|constructor]. vm_compute. discriminate.
Defined.

End ScoringSets.

(** ** The checklist exporter *)

Module ExporterFacts.
Import PyStr Parser Scoring Exporter.

Lemma length_append a b :
  String.length (a +:+ b) = String.length a + String.length b.
Proof. induction a as [|c a IH]; simpl; [reflexivity | now rewrite IH]. Qed.

Lemma sum_len_app a b : sum_len (a ++ b) = sum_len a + sum_len b.
Proof.
  unfold sum_len. induction a as [|x a IH]; simpl; [reflexivity|].
  rewrite IH. lia.
Qed.

Lemma join_length g :
  g ≠ [] →
  String.length (str_join " " g) = sum_len g + (length g - 1).
Proof.
  induction g as [|x g IH]; [congruence|]. intros _.
  destruct g as [|y g].
  - simpl. lia.
  - change (str_join " " (x :: y :: g))
      with (x +:+ " " +:+ str_join " " (y :: g)).
    rewrite !length_append, IH by discriminate.
    change (sum_len (x :: y :: g)) with (String.length x + sum_len (y :: g)).
    simpl String.length. simpl length. lia.
Qed.

Lemma fits_snoc n cur w :
  sum_len cur + length cur + String.length w ≤ n → fits n (cur ++ [w]).
Proof.
  intros Hle. right. rewrite join_length by (now destruct cur).
  rewrite sum_len_app, length_app. simpl. lia.
Qed.

(** The loop keeps the finished lines and the current group fitting, and
    loses no word. *)
Lemma wrap_loop n words : ∀ gs cur lines' cur',
  Forall (fits n) gs → fits n cur →
  fold_left (wrap_step n) words (map (str_join " ") gs, cur) = (lines', cur') →
  ∃ gs', lines' = map (str_join " ") gs'
         ∧ concat gs' ++ cur' = concat gs ++ cur ++ words
         ∧ Forall (fits n) gs' ∧ fits n cur'.
Proof.
  induction words as [|w words IH]; intros gs cur lines' cur' Hgs Hcur; simpl.
  - intros [= <- <-]. exists gs. rewrite app_nil_r. auto.
  - destruct (Nat.ltb_spec n (sum_len cur + length cur + String.length w)).
    + change (map (str_join " ") gs ++ [str_join " " cur])
        with (map (str_join " ") gs ++ map (str_join " ") [cur]).
      rewrite <- map_app. intros Hfold.
      apply IH in Hfold.
      * destruct Hfold as (gs' & -> & Hcat & Hall & Hc).
        exists gs'. repeat split; try assumption.
        rewrite Hcat, concat_app. simpl. rewrite app_nil_r.
        now rewrite <- !app_assoc.
      * apply Forall_app. split; [exact Hgs | now constructor].
      * left. simpl. lia.
    + intros Hfold. apply IH in Hfold.
      * destruct Hfold as (gs' & -> & Hcat & Hall & Hc).
        exists gs'. repeat split; try assumption.
        rewrite Hcat. now rewrite <- !app_assoc.
      * exact Hgs.
      * apply fits_snoc. lia.
Qed.

(** X26. [wrap] never returns an empty list; its lines are the words of
    the text in their order, joined by single blanks and divided into
    groups, and every line either is at most [max_chars] long or holds a
    single word. *)
Theorem wrap_lines (text : string) (max_chars : nat) :
  ∃ groups,
    wrap text max_chars = map (str_join " ") groups
    ∧ concat groups = py_split text
    ∧ Forall (fits max_chars) groups
    ∧ groups ≠ [].
Proof.
  unfold wrap.
  destruct (fold_left (wrap_step max_chars) (py_split text) ([], []))
    as [lines cur] eqn:E.
  apply (wrap_loop max_chars (py_split text) [] []) in E;
    [|constructor | left; simpl; lia].
  destruct E as (gs & -> & Hcat & Hall & Hcur). simpl in Hcat.
  destruct cur as [|w cur].
  - rewrite app_nil_r in Hcat. destruct gs as [|g gs].
    + exists [[]]. simpl in *. repeat split; try congruence.
      constructor; [left; simpl; lia | constructor].
    + exists (g :: gs). repeat split; try assumption. discriminate.
  - exists (gs ++ [w :: cur]). repeat split.
    + rewrite map_app. simpl. now destruct (map (str_join " ") gs).
    + rewrite concat_app. simpl. now rewrite app_nil_r.
    + apply Forall_app. split; [exact Hall | now constructor].
    + now destruct gs.
Qed.

Section Sections.
Variable show_round2 : Q → string.

Lemma firstn_10_length {A} (l : list A) : length (firstn 10 l) ≤ 10.
Proof. apply firstn_le_length. Qed.

(** X27. The checklist always has its three sections, in the same order,
    and none of them is empty; the focus section has at most 33 lines and
    the redundancy section at most 11. *)
Theorem checklist_sections_shape (f : Findings) :
  map fst (build_checklist_sections show_round2 f)
  = [ "What to focus on (to keep prod fixes boring)";
      "Redundancy guardrails";
      "Quick smoke checklist" ]
  ∧ Forall (fun s => snd s ≠ []) (build_checklist_sections show_round2 f)
  ∧ length (focus_section show_round2 f) ≤ 33
  ∧ length (dedupe_section f) ≤ 11.
Proof.
  split; [reflexivity|].
  assert (He := firstn_10_length
                  (List.filter (mentions ENHANCEMENT_MARKS) (object_risks f))).
  assert (Hd := firstn_10_length
                  (List.filter (mentions DDIC_MARKS) (object_risks f))).
  assert (Ha := firstn_10_length (impacted_apps f)).
  assert (Ho := firstn_10_length (overlaps f)).
  assert (Hfocus : focus_section show_round2 f ≠ []
                   ∧ length (focus_section show_round2 f) ≤ 33).
  { unfold focus_section.
    set (te := firstn 10 (List.filter (mentions ENHANCEMENT_MARKS) _)) in *.
    set (td := firstn 10 (List.filter (mentions DDIC_MARKS) _)) in *.
    set (ta := firstn 10 (impacted_apps f)) in *.
    clearbody te td ta.
    destruct te as [|e te]; destruct td as [|d td];
      destruct (impacted_apps f) as [|a apps];
      cbn [app]; split; try discriminate;
      cbn [length app]; rewrite ?length_app; cbn [length];
      rewrite ?length_map; simpl in *; lia. }
  assert (Hdedupe : dedupe_section f ≠ []
                    ∧ length (dedupe_section f) ≤ 11).
  { unfold dedupe_section.
    set (to := firstn 10 (overlaps f)) in *. clearbody to.
    destruct (overlaps f); split; try discriminate;
      cbn [length]; rewrite ?length_map; lia. }
  split; [|split; [apply Hfocus | apply Hdedupe]].
  repeat constructor; simpl; [apply Hfocus | apply Hdedupe | discriminate].
Qed.
End Sections.

End ExporterFacts.

(** ** Analysing one change after another *)

Module AppFacts.
Import PyStr Parser Scoring PySort SortFacts Modes ParserNotions DBNotions App.







Section Analyze.
Context `{Runtime}.
Variable b64decode : string → result string.
Variable dumps : pyval → string.



Lemma analyze_scored catalog now stamp cid days inp s s' f :
  analyze b64decode dumps catalog now stamp cid days inp s = (s', Scored f) →
  ∃ objects,
    _load_objects b64decode inp = Ok objects ∧ objects ≠ []
    ∧ f = score_change (table s) now stamp cid objects
            (Mapping.map_objects_to_apps objects catalog) (window_of days)
    ∧ s' = {| table := DB.save_change (table s) (stored_row dumps f);
              latest := Some f |}.
Proof.
  unfold analyze.
  destruct (_load_objects b64decode inp) as [objects|e]; [|discriminate].
  destruct objects as [|o objects]; [discriminate|]. simpl.
  intros [= <- <-]. exists (o :: objects). repeat split. discriminate.
Qed.

Lemma score_change_ids table now stamp cid objects apps days :
  f_change_id (score_change table now stamp cid objects apps days) = cid
  ∧ f_generated_at (score_change table now stamp cid objects apps days) = stamp.
Proof.
  unfold score_change. destruct (score_objects _ _ _ objects). split; reflexivity.
Qed.

(** X28. An analysis that ends without findings (no objects, or an
    error while loading) leaves the history and the latest findings as
    they were.  One that scores saves exactly one row under the change
    id, holding the stamp and the serialised findings, keeps the rows of
    all other changes and the uniqueness of the ids, and the findings
    count at least one object. *)
Theorem analyze_session (catalog : Mapping.Catalog) (now : Z)
    (stamp change_id : string) (overlap_days : option Z) (inp : Inputs)
    (s : Session) :
  let s' := fst (analyze b64decode dumps catalog now stamp change_id
                   overlap_days inp s) in
  match snd (analyze b64decode dumps catalog now stamp change_id
               overlap_days inp s) with
  | Scored f =>
      f_change_id f = change_id ∧ f_generated_at f = stamp
      ∧ 1 ≤ objects_total (summary f)
      ∧ latest s' = Some f
      ∧ In (stored_row dumps f) (table s')
      ∧ (∀ r, In r (table s') → DB.change_id r = change_id →
              r = stored_row dumps f)
      ∧ (∀ r, DB.change_id r ≠ change_id →
              (In r (table s') ↔ In r (table s)))
      ∧ (List.NoDup (map DB.change_id (table s)) →
         List.NoDup (map DB.change_id (table s')))
  | _ => s' = s
  end.
Proof.
  intros s'.
  destruct (analyze b64decode dumps catalog now stamp change_id overlap_days
              inp s) as [s1 out] eqn:E.
  unfold s'. simpl. destruct out as [| e | f].
  - unfold analyze in E.
    destruct (_load_objects b64decode inp) as [[|o l]|]; simpl in E;
      congruence.
  - unfold analyze in E.
    destruct (_load_objects b64decode inp) as [[|o l]|]; simpl in E;
      congruence.
  - apply analyze_scored in E.
    destruct E as (objects & Hload & Hne & Hf & ->).
    destruct (score_change_ids (table s) now stamp change_id objects
                (Mapping.map_objects_to_apps objects catalog)
                (window_of overlap_days)) as [Hid Hstamp].
    rewrite <- Hf in Hid, Hstamp.
    assert (Hrow : DB.change_id (stored_row dumps f) = change_id)
      by exact Hid.
    simpl. repeat split; try assumption.
    + destruct (ScoringMore.findings_fields (table s) now stamp change_id
                  objects (Mapping.map_objects_to_apps objects catalog)
                  (window_of overlap_days)) as (_ & _ & _ & _ & Ht & _).
      rewrite <- Hf in Ht. rewrite Ht.
      destruct objects; [congruence | simpl; lia].
    + apply DBMore.save_change_In. now left.
    + intros r Hin Hr. apply DBMore.save_change_In in Hin.
      destruct Hin as [->|[_ Hn]]; [reflexivity | congruence].
    + intros Hin. apply DBMore.save_change_In in Hin.
      destruct Hin as [->|[Hin _]]; [congruence | exact Hin].
    + intros Hin. apply DBMore.save_change_In. right. split; [exact Hin|].
      congruence.
    + apply DBClaims.save_change_keys.
Qed.



End Analyze.

End AppFacts.

(** ** Two analyses on the example data *)

Module AppExamples.
Import Parser Scoring App AppFacts.

Lemma first_analysis :
  @analyze DemoApp.runtime DemoApp.no_upload Demo.dumps DemoApp.empty_catalog
    1709269200000000 "2024-03-01T00:00:00-05:00" "CHG-1" (Some 30%Z)
    DemoApp.first_input DemoApp.empty_session
  = (DemoApp.first_session, Scored DemoApp.first_findings).
Proof. vm_compute. reflexivity. Qed.


Lemma analyze_session_witness :
  List.NoDup
    (map DB.change_id
       (table (fst (@analyze DemoApp.runtime DemoApp.no_upload Demo.dumps
                      DemoApp.empty_catalog 1709269200000000
                      "2024-03-01T00:00:00-05:00" "CHG-1" (Some 30%Z)
                      DemoApp.first_input DemoApp.empty_session)))).
Proof.
  assert (Hs := @analyze_session DemoApp.runtime DemoApp.no_upload Demo.dumps
                  DemoApp.empty_catalog 1709269200000000
                  "2024-03-01T00:00:00-05:00" "CHG-1" (Some 30%Z)
                  DemoApp.first_input DemoApp.empty_session).
  rewrite first_analysis in Hs. simpl in Hs.
  rewrite first_analysis. simpl.
  destruct Hs as (_ & _ & _ & _ & _ & _ & _ & Hnd).
  apply Hnd. constructor.
Defined.

End AppExamples.
